(** * tui-json-viewer: the colorizer, the two searches and the search state

    A shallow embedding of [main.go].  Go strings are byte sequences; they
    are modelled as lists of 8-bit characters.  Go's [int] is modelled by
    [Z]; where a sum can leave the 64-bit range the wrap-around is written
    out ([wrap64]).  Offsets into a string are bounded by its length, which
    always fits an [int], so they are plain [Z] sums.

    A Go call either returns, panics (slice or index out of range), or is
    still looping when the fuel given to the model is spent: [outcome]. *)

From Stdlib Require Import List ZArith Lia Bool Ascii String.
From Stdlib Require Import Numbers.DecimalString.
Import ListNotations.
Open Scope Z_scope.

(* ================================================================== *)
(** ** Strings *)

Definition str := list ascii.

Definition lit (s : string) : str := list_ascii_of_string s.

Definition dq : ascii := "034"%char.   (* the double quote *)
Definition nl : ascii := "010"%char.   (* the newline *)

(** JSON text is written with a single quote standing for the double
    quote, which [jlit] puts back. *)
Definition jlit (s : string) : str :=
  map (fun c => if Ascii.eqb c "'" then dq else c) (lit s).

Definition len (s : str) : Z := Z.of_nat (List.length s).

Fixpoint str_eqb (a b : str) : bool :=
  match a, b with
  | [], [] => true
  | x :: a', y :: b' => Ascii.eqb x y && str_eqb a' b'
  | _, _ => false
  end.

(** The outcome of running a piece of Go code under a fuel bound. *)
Inductive outcome (A : Type) : Type :=
| Returns (a : A)
| Panics
| OutOfFuel.
Arguments Returns {A} a.
Arguments Panics {A}.
Arguments OutOfFuel {A}.

Definition bind {A B} (o : outcome A) (f : A -> outcome B) : outcome B :=
  match o with
  | Returns a => f a
  | Panics => Panics
  | OutOfFuel => OutOfFuel
  end.

Notation "x <- e ;; k" := (bind e (fun x => k))
  (at level 61, e at next level, right associativity).

(** [s[lo:hi]]: panics unless [0 <= lo <= hi <= len(s)]. *)
Definition slice (s : str) (lo hi : Z) : outcome str :=
  if (0 <=? lo) && (lo <=? hi) && (hi <=? len s)
  then Returns (firstn (Z.to_nat (hi - lo)) (skipn (Z.to_nat lo) s))
  else Panics.

(** [s[lo:]] *)
Definition sliceFrom (s : str) (lo : Z) : outcome str := slice s lo (len s).

(** [s[:hi]] *)
Definition sliceTo (s : str) (hi : Z) : outcome str := slice s 0 hi.

(** [xs[i]] on a slice: panics when [i] is out of range. *)
Definition index_at {A} (xs : list A) (i : Z) : outcome A :=
  if (0 <=? i) && (i <? Z.of_nat (List.length xs))
  then match nth_error xs (Z.to_nat i) with
       | Some x => Returns x
       | None => Panics
       end
  else Panics.

(** [strings.HasPrefix(s, p)] *)
Fixpoint hasPrefix (p s : str) : bool :=
  match p, s with
  | [], _ => true
  | x :: p', y :: s' => Ascii.eqb x y && hasPrefix p' s'
  | _ :: _, [] => false
  end.

(** First offset at which [sub] occurs in [s]. *)
Fixpoint indexNat (s sub : str) : option nat :=
  if hasPrefix sub s then Some 0%nat
  else match s with
       | [] => None
       | _ :: t => option_map S (indexNat t sub)
       end.

(** [strings.Index(s, sub)]: the first offset, or -1. *)
Definition Index (s sub : str) : Z :=
  match indexNat s sub with
  | Some n => Z.of_nat n
  | None => -1
  end.

(** [strings.Split] at the newline *)
Fixpoint splitLines (s : str) : list str :=
  match s with
  | [] => [[]]
  | c :: t =>
      if Ascii.eqb c nl then [] :: splitLines t
      else match splitLines t with
           | l :: ls => (c :: l) :: ls
           | [] => [[c]]
           end
  end.

(** [strconv.Itoa] and the [%d] verb. *)
Definition Itoa (z : Z) : str := lit (NilZero.string_of_int (Z.to_int z)).

(** Go's [int] is 64 bits wide, two's complement. *)
Definition wrap64 (z : Z) : Z := (z + 2 ^ 63) mod 2 ^ 64 - 2 ^ 63.
Definition add64 (a b : Z) : Z := wrap64 (a + b).
Definition sub64 (a b : Z) : Z := wrap64 (a - b).
(** [a % b] truncates towards zero; [b] is never 0 where it is used. *)
Definition rem64 (a b : Z) : Z := wrap64 (Z.rem a b).

(* ================================================================== *)
(** ** The offset-based search: [performSearch] *)

Record searchOptions := { caseSensitive : bool; useRegex : bool }.

Section OffsetSearch.

(** The [regexp] package and [strings.ToLower] are libraries; the search
    only calls them. [Compile] returns the program or the error text. *)
Variable Regexp : Type.
Variable Compile : str -> Regexp + str.
Variable FindAllStringIndex : Regexp -> str -> list (Z * Z).
Variable ToLower : str -> str.

(** The [for] loop of the literal branch, from cursor [pos]. *)
Fixpoint literalLoop (fuel : nat) (content searchString : str)
         (pos : Z) (positions : list Z) : outcome (list Z) :=
  match fuel with
  | O => OutOfFuel
  | S fuel' =>
      rest <- sliceFrom content pos ;;
      let index := Index rest searchString in
      if index =? -1 then Returns positions
      else literalLoop fuel' content searchString
             (pos + (index + len searchString))
             (positions ++ [pos + index])
  end.

(** [performSearch]: the positions and the lines written to the error
    log. *)
Definition performSearch (fuel : nat) (content searchString : str)
           (options : searchOptions) : outcome (list Z * list str) :=
  if useRegex options then
    let compiled :=
      if caseSensitive options then Compile searchString
      else Compile (lit "(?i)" ++ searchString) in
    match compiled with
    | inr err => Returns ([], [lit "Invalid regex pattern: " ++ err])
    | inl re =>
        Returns (map fst (FindAllStringIndex re content), [])
    end
  else
    let content' := if caseSensitive options then content
                    else ToLower content in
    let searchString' := if caseSensitive options then searchString
                         else ToLower searchString in
    positions <- literalLoop fuel content' searchString' 0 [] ;;
    Returns (positions, []).

End OffsetSearch.

(* ================================================================== *)
(** ** The application state and the interactive search *)

(** What the model keeps of a [tview.TextView]. *)
Record TextView := {
  tvText : str;            (* SetText *)
  tvTitle : str;           (* SetTitle *)
  tvHighlight : str;       (* the highlighted region, empty when none *)
  tvScroll : Z * Z         (* ScrollTo(row, column) *)
}.

Definition SetText (t : str) (v : TextView) : TextView :=
  {| tvText := t; tvTitle := tvTitle v;
     tvHighlight := tvHighlight v; tvScroll := tvScroll v |}.

(** The ids of the regions a view knows.  A text view reads region tags
    out of its text only after [SetRegions(true)]; the program calls that
    on none of its views, whose texts carry color tags only, so that no
    view knows a region. *)
Definition regions (v : TextView) : list str := [].

(** [TextView.Highlight(id)]: an id that names no region of the view is
    dropped from the request, and what is left of the request replaces
    the highlights. *)
Definition Highlight (id : str) (v : TextView) : TextView :=
  {| tvText := tvText v; tvTitle := tvTitle v;
     tvHighlight := if existsb (str_eqb id) (regions v) then id else [];
     tvScroll := tvScroll v |}.

Definition ScrollTo (row column : Z) (v : TextView) : TextView :=
  {| tvText := tvText v; tvTitle := tvTitle v;
     tvHighlight := tvHighlight v; tvScroll := (row, column) |}.

(** The closure stored for a list item captures the file and its index. *)
Record action := { actFile : str; actFileIndex : Z }.

Inductive widget := FileListW | FileContentW | DebugViewW.

(** A search result: [struct{ line, pos int }]. *)
Record result := { line : Z; pos : Z }.

Record appState := {
  fileList : list (str * action);     (* the items of the tview.List *)
  fileContent : TextView;
  debugView : TextView;
  focus : widget;                     (* app.SetFocus *)
  actionFuncs : list action;
  activeFileIndex : Z;
  searchString : str;
  searchResults : list result;
  currentSearchIndex : Z;
  searchMode : bool;
  errorLog : list str;                (* lines written by errorLogger *)
  infoLog : list str                  (* lines written by infoLogger *)
}.

Definition set_fileContent (v : TextView) (st : appState) : appState :=
  {| fileList := fileList st; fileContent := v; debugView := debugView st;
     focus := focus st; actionFuncs := actionFuncs st;
     activeFileIndex := activeFileIndex st;
     searchString := searchString st; searchResults := searchResults st;
     currentSearchIndex := currentSearchIndex st;
     searchMode := searchMode st;
     errorLog := errorLog st; infoLog := infoLog st |}.

Definition set_debugText (t : str) (st : appState) : appState :=
  {| fileList := fileList st; fileContent := fileContent st;
     debugView := SetText t (debugView st);
     focus := focus st; actionFuncs := actionFuncs st;
     activeFileIndex := activeFileIndex st;
     searchString := searchString st; searchResults := searchResults st;
     currentSearchIndex := currentSearchIndex st;
     searchMode := searchMode st;
     errorLog := errorLog st; infoLog := infoLog st |}.

Definition set_focus (w : widget) (st : appState) : appState :=
  {| fileList := fileList st; fileContent := fileContent st;
     debugView := debugView st;
     focus := w; actionFuncs := actionFuncs st;
     activeFileIndex := activeFileIndex st;
     searchString := searchString st; searchResults := searchResults st;
     currentSearchIndex := currentSearchIndex st;
     searchMode := searchMode st;
     errorLog := errorLog st; infoLog := infoLog st |}.

Definition set_searchString (q : str) (st : appState) : appState :=
  {| fileList := fileList st; fileContent := fileContent st;
     debugView := debugView st;
     focus := focus st; actionFuncs := actionFuncs st;
     activeFileIndex := activeFileIndex st;
     searchString := q; searchResults := searchResults st;
     currentSearchIndex := currentSearchIndex st;
     searchMode := searchMode st;
     errorLog := errorLog st; infoLog := infoLog st |}.

Definition set_searchResults (rs : list result) (st : appState) : appState :=
  {| fileList := fileList st; fileContent := fileContent st;
     debugView := debugView st;
     focus := focus st; actionFuncs := actionFuncs st;
     activeFileIndex := activeFileIndex st;
     searchString := searchString st; searchResults := rs;
     currentSearchIndex := currentSearchIndex st;
     searchMode := searchMode st;
     errorLog := errorLog st; infoLog := infoLog st |}.

Definition set_currentSearchIndex (i : Z) (st : appState) : appState :=
  {| fileList := fileList st; fileContent := fileContent st;
     debugView := debugView st;
     focus := focus st; actionFuncs := actionFuncs st;
     activeFileIndex := activeFileIndex st;
     searchString := searchString st; searchResults := searchResults st;
     currentSearchIndex := i;
     searchMode := searchMode st;
     errorLog := errorLog st; infoLog := infoLog st |}.

Definition set_searchMode (b : bool) (st : appState) : appState :=
  {| fileList := fileList st; fileContent := fileContent st;
     debugView := debugView st;
     focus := focus st; actionFuncs := actionFuncs st;
     activeFileIndex := activeFileIndex st;
     searchString := searchString st; searchResults := searchResults st;
     currentSearchIndex := currentSearchIndex st;
     searchMode := b;
     errorLog := errorLog st; infoLog := infoLog st |}.

Definition set_files (items : list (str * action)) (fs : list action)
           (st : appState) : appState :=
  {| fileList := items; fileContent := fileContent st;
     debugView := debugView st;
     focus := focus st; actionFuncs := fs;
     activeFileIndex := activeFileIndex st;
     searchString := searchString st; searchResults := searchResults st;
     currentSearchIndex := currentSearchIndex st;
     searchMode := searchMode st;
     errorLog := errorLog st; infoLog := infoLog st |}.

Definition log_error (l : str) (st : appState) : appState :=
  {| fileList := fileList st; fileContent := fileContent st;
     debugView := debugView st;
     focus := focus st; actionFuncs := actionFuncs st;
     activeFileIndex := activeFileIndex st;
     searchString := searchString st; searchResults := searchResults st;
     currentSearchIndex := currentSearchIndex st;
     searchMode := searchMode st;
     errorLog := errorLog st ++ [l]; infoLog := infoLog st |}.

Definition log_info (l : str) (st : appState) : appState :=
  {| fileList := fileList st; fileContent := fileContent st;
     debugView := debugView st;
     focus := focus st; actionFuncs := actionFuncs st;
     activeFileIndex := activeFileIndex st;
     searchString := searchString st; searchResults := searchResults st;
     currentSearchIndex := currentSearchIndex st;
     searchMode := searchMode st;
     errorLog := errorLog st; infoLog := infoLog st ++ [l] |}.

(** [initializeApp]: every field not set there has Go's zero value. *)
Definition emptyView : TextView :=
  {| tvText := []; tvTitle := []; tvHighlight := []; tvScroll := (0, 0) |}.

Definition initializeApp : appState :=
  {| fileList := [];
     fileContent := {| tvText := []; tvTitle := lit "Content";
                       tvHighlight := []; tvScroll := (0, 0) |};
     debugView := SetText (lit "Press F1, ?, or h for help. Press q to quit.")
                          emptyView;
     focus := FileListW; actionFuncs := [];
     activeFileIndex := 0;
     searchString := []; searchResults := [];
     currentSearchIndex := 0; searchMode := false;
     errorLog := []; infoLog := [] |}.

Definition resultCount (st : appState) : Z :=
  Z.of_nat (List.length (searchResults st)).

(** [cancelSearch] *)
Definition cancelSearch (st : appState) : appState :=
  let st := set_searchMode false st in
  let st := set_searchString [] st in
  let st := set_searchResults [] st in
  let st := set_currentSearchIndex 0 st in
  let st := set_fileContent (Highlight [] (fileContent st)) st in
  let st := set_debugText [] st in
  set_focus FileContentW st.

(** [startSearch] *)
Definition startSearch (st : appState) : appState :=
  let st := set_searchMode true st in
  let st := set_searchString [] st in
  let st := set_debugText (lit "Search: ") st in
  set_focus DebugViewW st.

(** [highlightCurrentResult] *)
Definition highlightCurrentResult (st : appState) : outcome appState :=
  if resultCount st =? 0 then Returns st
  else
    r <- index_at (searchResults st) (currentSearchIndex st) ;;
    let v := Highlight (Itoa (line r)) (fileContent st) in
    let v := ScrollTo (pos r) (line r) v in
    Returns (set_fileContent v st).

(** The status text of the navigation: Result i of n *)
Definition resultOf (st : appState) : str :=
  lit "Result " ++ Itoa (add64 (currentSearchIndex st) 1)
      ++ lit " of " ++ Itoa (resultCount st).

(** [findNextResult] *)
Definition findNextResult (st : appState) : outcome appState :=
  if resultCount st =? 0 then Returns st
  else
    let i := rem64 (add64 (currentSearchIndex st) 1) (resultCount st) in
    st <- highlightCurrentResult (set_currentSearchIndex i st) ;;
    Returns (set_debugText (resultOf st) st).

(** [findPreviousResult] *)
Definition findPreviousResult (st : appState) : outcome appState :=
  if resultCount st =? 0 then Returns st
  else
    let i := rem64 (add64 (sub64 (currentSearchIndex st) 1) (resultCount st))
                   (resultCount st) in
    st <- highlightCurrentResult (set_currentSearchIndex i st) ;;
    Returns (set_debugText (resultOf st) st).

(** The inner [for index != -1] loop of the line search, on one line. *)
Fixpoint scanLine (fuel : nat) (ln query : str) (i index : Z)
         (results : list result) : outcome (list result) :=
  if index =? -1 then Returns results
  else match fuel with
       | O => OutOfFuel
       | S fuel' =>
           let results := results ++ [{| line := i; pos := index |}] in
           rest <- sliceFrom ln (index + len query) ;;
           let index := Index rest query in
           let index := if negb (index =? -1) then index + len query
                        else index in
           scanLine fuel' ln query i index results
       end.

(** The [for i, line := range lines] loop. *)
Fixpoint scanLines (fuel : nat) (lines : list str) (query : str) (i : Z)
         (results : list result) : outcome (list result) :=
  match lines with
  | [] => Returns results
  | ln :: rest =>
      results <- scanLine fuel ln query i (Index ln query) results ;;
      scanLines fuel rest query (i + 1) results
  end.

Section InteractiveSearch.

(** [TextView.GetText(true)] returns the text with the style tags
    stripped; the stripping is tview's. *)
Variable stripTags : str -> str.

Definition GetText (v : TextView) (strip : bool) : str :=
  if strip then stripTags (tvText v) else tvText v.

(** [appState.performSearch] *)
Definition appState_performSearch (fuel : nat) (st : appState)
  : outcome appState :=
  if str_eqb (searchString st) [] then Returns st
  else
    let content := GetText (fileContent st) true in
    let lines := splitLines content in
    results <- scanLines fuel lines (searchString st) 0 [] ;;
    let st := set_searchResults results st in
    let st := set_currentSearchIndex 0 st in
    if 0 <? resultCount st then
      st <- highlightCurrentResult st ;;
      Returns (set_debugText
                 (lit "Found " ++ Itoa (resultCount st)
                  ++ lit " occurrences. Result 1 of "
                  ++ Itoa (resultCount st)
                  ++ lit ". Press 'n' for next, 'N' for previous.") st)
    else
      Returns (set_debugText
                 (lit "[red]No results found for: " ++ searchString st
                  ++ lit "[-]") st).

(** [case tcell.KeyRune] of [setupKeyBindings] in search mode; the rune
    typed is a one-byte character here. *)
Definition typeRune (r : ascii) (st : appState) : appState :=
  let st := set_searchString (searchString st ++ [r]) st in
  set_debugText (lit "Search: " ++ searchString st) st.

(** [case tcell.KeyEnter] of [setupKeyBindings] in search mode. *)
Definition submitSearch (fuel : nat) (st : appState) : outcome appState :=
  st <- appState_performSearch fuel (set_searchMode false st) ;;
  Returns (set_focus FileContentW st).

(** The operations of [setupKeyBindings] that write a search field:
    [/], Esc, Enter and a typed rune in search mode, [n] and [N]. *)
Inductive searchOp :=
| OpStart | OpCancel | OpSubmit | OpType (r : ascii) | OpNext | OpPrevious.

Definition runOp (fuel : nat) (op : searchOp) (st : appState)
  : outcome appState :=
  match op with
  | OpStart => Returns (startSearch st)
  | OpCancel => Returns (cancelSearch st)
  | OpSubmit => submitSearch fuel st
  | OpType r => Returns (typeRune r st)
  | OpNext => findNextResult st
  | OpPrevious => findPreviousResult st
  end.

End InteractiveSearch.

(* ================================================================== *)
(** ** The file catalog: [loadJSONFilesWithContext], [reloadJSONFiles] *)

(** One call that [filepath.Walk] makes to its callback: the path, the
    entry's name and kind, and the error the walk met there, if any. *)
Record walkEntry := {
  wePath : str;
  weName : str;
  weIsDir : bool;
  weErr : option str
}.

(** [ctx.Err()] at the k-th call of the callback: [None] while the
    context is not done. *)
Definition context := nat -> option str.

(** [filepath.Ext]: the suffix from the last dot of the last element. *)
Fixpoint Ext (path : str) : str :=
  match path with
  | [] => []
  | c :: t =>
      if existsb (fun x => Ascii.eqb x "." || Ascii.eqb x "/") t then Ext t
      else if Ascii.eqb c "." then c :: t
      else []
  end.

(** The callback of [loadJSONFilesWithContext] run over the calls of the
    walk; the walk stops at the first error the callback returns. *)
Fixpoint walkCallbacks (ctx : context) (entries : list walkEntry) (k : nat)
         (files : list str) : list str + str :=
  match entries with
  | [] => inl files
  | e :: rest =>
      match ctx k with
      | Some err => inr err
      | None =>
          match weErr e with
          | Some err =>
              inr (lit "error accessing path " ++ wePath e ++ lit ": " ++ err)
          | None =>
              walkCallbacks ctx rest (S k)
                (if negb (weIsDir e) && str_eqb (Ext (weName e)) (lit ".json")
                 then files ++ [wePath e] else files)
          end
      end
  end.

Section Catalog.

(** The file system: the callback calls [filepath.Walk] makes for a
    directory. *)
Variable Walk : str -> list walkEntry.

Definition loadJSONFilesWithContext (ctx : context) (dir : str)
  : list str + str :=
  match walkCallbacks ctx (Walk dir) 0 [] with
  | inr err => inr (lit "error walking directory " ++ dir ++ lit ": " ++ err)
  | inl files => inl files
  end.

(** The body of the [for i, file := range jsonFiles] loop. *)
Fixpoint addItems (files : list str) (i : Z) (st : appState) : appState :=
  match files with
  | [] => st
  | file :: rest =>
      let act := {| actFile := file; actFileIndex := i |} in
      addItems rest (i + 1)
               (set_files (fileList st ++ [(file, act)])
                          (actionFuncs st ++ [act]) st)
  end.

Definition reloadJSONFiles (ctx : context) (dir : str) (st : appState)
  : appState :=
  let st := set_files [] [] st in
  match loadJSONFilesWithContext ctx dir with
  | inr err =>
      let st := log_error (lit "Failed to load JSON files: " ++ err) st in
      set_debugText
        (lit "[red]Failed to load JSON files. Check error log for details.[-]")
        st
  | inl jsonFiles =>
      let st := addItems jsonFiles 0 st in
      let st := log_info (lit "JSON files loaded successfully") st in
      set_debugText (lit "Select a file to view its content.") st
  end.

End Catalog.

(* ================================================================== *)
(** ** The regular expressions of the colorizer

    Go's [regexp] returns the leftmost match and, among the matches that
    start there, the one a backtracking search finds first.  The matcher
    below is that backtracking search, in continuation-passing style.  It
    works on bytes; the patterns of [main.go] begin with an ASCII byte and
    their classes treat the bytes of a multi-byte rune alike, so they match
    the same spans on bytes as on runes. *)

Inductive regex :=
| Eps                               (* the empty pattern *)
| Chr (p : ascii -> bool)           (* one character of a class *)
| Seq (a b : regex)                 (* ab *)
| Alt (a b : regex)                 (* a|b, a preferred *)
| Star (greedy : bool) (a : regex)  (* a* (greedy) and a*? (lazy) *)
| Group (n : nat) (a : regex)       (* the n-th capturing group *)
| WordB.                            (* \b *)

Definition Plus (a : regex) : regex := Seq a (Star true a).     (* a+ *)
Definition Opt (a : regex) : regex := Alt a Eps.                (* a? *)

Definition code (c : ascii) : N := N_of_ascii c.

Definition isChar (c : ascii) : ascii -> bool := fun x => Ascii.eqb x c.
Definition isNot (c : ascii) : ascii -> bool := fun x => negb (Ascii.eqb x c).
Definition oneOf (cs : str) : ascii -> bool :=
  fun x => existsb (Ascii.eqb x) cs.
(** [\s]: tab, newline, form feed, carriage return, space *)
Definition isSpace : ascii -> bool :=
  fun x => let n := code x in
           N.eqb n 9 || N.eqb n 10 || N.eqb n 12 || N.eqb n 13 || N.eqb n 32.
(** [\d] *)
Definition isDigit : ascii -> bool :=
  fun x => let n := code x in N.leb 48 n && N.leb n 57.
(** [\w], for [\b] *)
Definition isWordChar : ascii -> bool :=
  fun x => let n := code x in
           (N.leb 48 n && N.leb n 57) || (N.leb 65 n && N.leb n 90)
           || (N.leb 97 n && N.leb n 122) || N.eqb n 95.
(** [.]: anything but a newline *)
Definition isDot : ascii -> bool := isNot nl.

Definition C (c : ascii) : regex := Chr (isChar c).

(** A literal word. *)
Fixpoint Word (w : str) : regex :=
  match w with
  | [] => Eps
  | c :: w' => Seq (C c) (Word w')
  end.

(** The span of each capturing group that took part in the match. *)
Definition caps := nat -> option (nat * nat).
Definition noCaps : caps := fun _ => None.
Definition setCap (n : nat) (v : nat * nat) (c : caps) : caps :=
  fun k => if Nat.eqb k n then Some v else c k.

(** [s[i:j]] for offsets of the matcher. *)
Definition sub (s : str) (i j : nat) : str := firstn (j - i) (skipn i s).

Section Matcher.

Variable s : str.
Variable R : Type.

Definition wordAt (i : nat) : bool :=
  match nth_error s i with
  | Some c => isWordChar c
  | None => false
  end.

Definition wordBoundary (i : nat) : bool :=
  xorb (match i with O => false | S i' => wordAt i' end) (wordAt i).

(** The iterations of a star: [step] matches the body once.  The
    greedy star tries one more iteration first, the lazy one tries to go
    on without.  An iteration must consume something (in every pattern
    here it does), so at most [n] iterations are tried, [n] being more
    than what is left of [s]. *)
Fixpoint starLoop
         (step : nat -> caps -> (nat -> caps -> option R) -> option R)
         (greedy : bool) (k : nat -> caps -> option R)
         (n : nat) (i : nat) (c : caps) {struct n} : option R :=
  match n with
  | O => k i c
  | S n' =>
      let more :=
        step i c (fun j c' =>
                    if (i <? j)%nat then starLoop step greedy k n' j c'
                    else None) in
      if greedy then
        match more with
        | Some res => Some res
        | None => k i c
        end
      else
        match k i c with
        | Some res => Some res
        | None => more
        end
  end.

(** [run r i c k]: match [r] at offset [i], then continue with [k]; the
    first success in backtracking order wins. *)
Fixpoint run (r : regex) (i : nat) (c : caps)
         (k : nat -> caps -> option R) {struct r} : option R :=
  match r with
  | Eps => k i c
  | Chr p =>
      match nth_error s i with
      | Some a => if p a then k (S i) c else None
      | None => None
      end
  | Seq a b => run a i c (fun j c' => run b j c' k)
  | Alt a b =>
      match run a i c k with
      | Some res => Some res
      | None => run b i c k
      end
  | Star greedy a => starLoop (run a) greedy k (S (List.length s - i)) i c
  | Group n a => run a i c (fun j c' => k j (setCap n (i, j) c'))
  | WordB => if wordBoundary i then k i c else None
  end.

End Matcher.

(** A match: start, end, captures. *)
Definition matchT : Type := nat * nat * caps.

Definition matchAt (re : regex) (s : str) (i : nat) : option matchT :=
  run s matchT re i noCaps (fun j c => Some (i, j, c)).

(** The leftmost match at or after [i]. *)
Fixpoint scanFrom (re : regex) (s : str) (n i : nat) : option matchT :=
  match matchAt re s i with
  | Some m => Some m
  | None =>
      match n with
      | O => None
      | S n' => scanFrom re s n' (S i)
      end
  end.

(** [re.doExecute(..., pos, ...)] *)
Definition doExecute (re : regex) (s : str) (pos : nat) : option matchT :=
  scanFrom re s (List.length s - pos) pos.

(** The loop of [Regexp.replaceAll].  After a match the search resumes at
    its end, or one character further when the match was empty. *)
Fixpoint replaceLoop (re : regex) (src : str) (repl : matchT -> outcome str)
         (fuel : nat) (lastMatchEnd searchPos : nat) (buf : str)
  : outcome str :=
  match fuel with
  | O => OutOfFuel
  | S fuel' =>
      if (List.length src <? searchPos)%nat
      then Returns (buf ++ skipn lastMatchEnd src)
      else
        match doExecute re src searchPos with
        | None => Returns (buf ++ skipn lastMatchEnd src)
        | Some (a0, a1, c) =>
            let buf := buf ++ sub src lastMatchEnd a0 in
            r <- (if (lastMatchEnd <? a1)%nat || (a0 =? 0)%nat
                  then repl (a0, a1, c) else Returns []) ;;
            let width := if (searchPos <? List.length src)%nat
                         then 1%nat else 0%nat in
            let searchPos' :=
              if (a1 <? searchPos + width)%nat then (searchPos + width)%nat
              else if (a1 <? searchPos + 1)%nat then (searchPos + 1)%nat
              else a1 in
            replaceLoop re src repl fuel' a1 searchPos' (buf ++ r)
        end
  end.

Definition replaceAll (re : regex) (src : str) (repl : matchT -> outcome str)
  : outcome str :=
  replaceLoop re src repl (S (S (List.length src))) 0 0 [].

(** The matches [replaceAll] hands to [repl], in order. *)
Fixpoint replacedLoop (re : regex) (src : str)
         (fuel : nat) (lastMatchEnd searchPos : nat) : list matchT :=
  match fuel with
  | O => []
  | S fuel' =>
      if (List.length src <? searchPos)%nat then []
      else
        match doExecute re src searchPos with
        | None => []
        | Some (a0, a1, c) =>
            let width := if (searchPos <? List.length src)%nat
                         then 1%nat else 0%nat in
            let searchPos' :=
              if (a1 <? searchPos + width)%nat then (searchPos + width)%nat
              else if (a1 <? searchPos + 1)%nat then (searchPos + 1)%nat
              else a1 in
            (if (lastMatchEnd <? a1)%nat || (a0 =? 0)%nat
             then [(a0, a1, c)] else [])
              ++ replacedLoop re src fuel' a1 searchPos'
        end
  end.

Definition replaced (re : regex) (src : str) : list matchT :=
  replacedLoop re src (S (S (List.length src))) 0 0.

(** *** Templates: [Regexp.expand] for [$name] and [$$] *)

Inductive titem :=
| TLit (c : ascii)
| TRef (name : str).

(** [parseTemplate t pending]: [pending] is the name being read after a
    [$].  A [$] that no name follows stays as it is. *)
Fixpoint parseTemplate (t : str) (pending : option str) : list titem :=
  match t with
  | [] =>
      match pending with
      | Some name => [TRef name]
      | None => []
      end
  | ch :: t' =>
      match pending, isWordChar ch with
      | Some name, true => parseTemplate t' (Some (name ++ [ch]))
      | _, _ =>
          (match pending with Some name => [TRef name] | None => [] end)
            ++ (if Ascii.eqb ch "$" then
                  match t' with
                  | c2 :: t'' =>
                      if Ascii.eqb c2 "$" then TLit "$" :: parseTemplate t'' None
                      else if isWordChar c2 then parseTemplate t' (Some [])
                      else TLit "$" :: parseTemplate t' None
                  | [] => [TLit "$"]
                  end
                else TLit ch :: parseTemplate t' None)
      end
  end.

(** The group number a name denotes: decimal, at most nine digits, no
    leading zero.  The patterns here have no named groups. *)
Definition groupNumber (name : str) : option nat :=
  let digits := forallb isDigit name in
  let leadingZero :=
    match name with
    | c :: _ :: _ => Ascii.eqb c "0"
    | _ => false
    end in
  let n := fold_left (fun acc c => (acc * 10 + (code c - 48))%N) name 0%N in
  if digits && negb leadingZero && (List.length name <=? 9)%nat
  then Some (N.to_nat n) else None.

Definition expandItem (src : str) (c : caps) (it : titem) : str :=
  match it with
  | TLit ch => [ch]
  | TRef name =>
      match groupNumber name with
      | Some n =>
          match c n with
          | Some (i, j) => sub src i j
          | None => []
          end
      | None => []
      end
  end.

Definition expand (template src : str) (m : matchT) : str :=
  let '(a0, a1, c) := m in
  flat_map (expandItem src (setCap 0 (a0, a1) c)) (parseTemplate template None).

(** [re.ReplaceAllString(src, repl)] *)
Definition ReplaceAllString (re : regex) (src repl : str) : outcome str :=
  replaceAll re src (fun m => Returns (expand repl src m)).

(** [re.ReplaceAllStringFunc(src, f)] *)
Definition ReplaceAllStringFunc (re : regex) (src : str)
           (f : str -> outcome str) : outcome str :=
  replaceAll re src (fun m => let '(a0, a1, _) := m in f (sub src a0 a1)).

(** *** What a match is

    [sem s r i c j c']: the pattern [r] can match [s] from offset [i] to
    offset [j], turning the captures [c] into [c'] (whatever the
    preferences of the backtracking search). *)
Inductive sem (s : str) : regex -> nat -> caps -> nat -> caps -> Prop :=
| sem_eps i c : sem s Eps i c i c
| sem_chr p i c a :
    nth_error s i = Some a -> p a = true -> sem s (Chr p) i c (S i) c
| sem_seq a b i c j c' k c'' :
    sem s a i c j c' -> sem s b j c' k c'' -> sem s (Seq a b) i c k c''
| sem_alt_l a b i c j c' : sem s a i c j c' -> sem s (Alt a b) i c j c'
| sem_alt_r a b i c j c' : sem s b i c j c' -> sem s (Alt a b) i c j c'
| sem_star_stop g a i c : sem s (Star g a) i c i c
| sem_star_more g a i c j c' k c'' :
    sem s a i c j c' -> (i < j)%nat -> sem s (Star g a) j c' k c'' ->
    sem s (Star g a) i c k c''
| sem_group n a i c j c' :
    sem s a i c j c' -> sem s (Group n a) i c j (setCap n (i, j) c')
| sem_wordb i c : wordBoundary s i = true -> sem s WordB i c i c.

(** The least number of characters a match of [r] spans. *)
Fixpoint minLen (r : regex) : nat :=
  match r with
  | Eps => 0
  | Chr _ => 1
  | Seq a b => minLen a + minLen b
  | Alt a b => Nat.min (minLen a) (minLen b)
  | Star _ _ => 0
  | Group _ a => minLen a
  | WordB => 0
  end.

(** [m] is a match of [re] in [s]. *)
Definition isMatch (re : regex) (s : str) (m : matchT) : Prop :=
  let '(a0, a1, c) := m in
  sem s re a0 noCaps a1 c /\ (a1 <= List.length s)%nat.

(* ================================================================== *)
(** ** The colorizer: [colorizeJSON]

    In the comments the patterns are written with a single quote for the
    double quote of the source, and with blanks between their parts (no
    pattern contains a blank). *)

Definition ws : regex := Star true (Chr isSpace).                 (* \s* *)
Definition digits : regex := Plus (Chr isDigit).                  (* \d+ *)
Definition sign : regex := Opt (Chr (oneOf (lit "-+"))).          (* [-+]? *)
Definition lazyString : regex := Star false (Chr (isNot dq)).     (* [^']*? *)

(** [[-+]? \d* \.? \d+ ( [eE] [-+]? \d+ )?], the exponent being group [g] *)
Definition number (g : nat) : regex :=
  Seq sign
   (Seq (Star true (Chr isDigit))
    (Seq (Opt (C "."))
     (Seq digits
          (Opt (Group g (Seq (Chr (oneOf (lit "eE"))) (Seq sign digits))))))).

(** [' ( [^']+ ) ' : \s*] *)
Definition keyRegex : regex :=
  Seq (C dq) (Seq (Group 1 (Plus (Chr (isNot dq))))
                  (Seq (C dq) (Seq (C ":") ws))).

(** [: \s* ' ( [^']*? ) '] *)
Definition stringRegex : regex :=
  Seq (C ":") (Seq ws (Seq (C dq) (Seq (Group 1 lazyString) (C dq)))).

(** [\[ \s* ' ( [^']*? ) ' \s* ( , \s* ' ( [^']*? ) ' \s* )* ]] *)
Definition arrayStringRegex : regex :=
  Seq (C "[")
   (Seq ws
    (Seq (C dq)
     (Seq (Group 1 lazyString)
      (Seq (C dq)
       (Seq ws
        (Seq (Star true
                (Group 2
                   (Seq (C ",")
                    (Seq ws
                     (Seq (C dq)
                      (Seq (Group 3 lazyString) (Seq (C dq) ws)))))))
             (C "]"))))))).

(** [: \s* ( number ) \s* [,}]] *)
Definition numberRegex : regex :=
  Seq (C ":")
   (Seq ws (Seq (Group 1 (number 2)) (Seq ws (Chr (oneOf (lit ",}")))))).

(** [\[ \s* ( number ) (?: \s* , \s* number )* \s* \]] *)
Definition arrayNumberRegex : regex :=
  Seq (C "[")
   (Seq ws
    (Seq (Group 1 (number 2))
     (Seq (Star true (Seq ws (Seq (C ",") (Seq ws (number 3)))))
          (Seq ws (C "]"))))).

(** [\b ( true | false ) \b] *)
Definition booleanRegex : regex :=
  Seq WordB (Seq (Group 1 (Alt (Word (lit "true")) (Word (lit "false")))) WordB).

(** [: \s* ( null )] *)
Definition nullRegex : regex :=
  Seq (C ":") (Seq ws (Group 1 (Word (lit "null")))).

(** [' ( .*? ) '], compiled inside the array-string pass *)
Definition quotedRegex : regex :=
  Seq (C dq) (Seq (Group 1 (Star false (Chr isDot))) (C dq)).

(** [( \d+ )], compiled inside the array-number pass *)
Definition digitsRegex : regex := Group 1 digits.

Definition keyColor : str := lit "[blue]".
Definition stringColor : str := lit "[lightgreen]".
Definition arrayStringColor : str := lit "[green]".
Definition numberColor : str := lit "[yellow]".
Definition arrayNumberColor : str := lit "[yellow]".
Definition booleanColor : str := lit "[lightblue]".
Definition nullColor : str := lit "[red]".
Definition resetColor : str := lit "[-]".

(** The seven passes, one by one; first the two replacement templates. *)
Definition keyTemplate : str :=
  keyColor ++ [dq] ++ lit "$1" ++ [dq] ++ resetColor ++ lit ": ".

Definition arrayStringTemplate : str :=
  arrayStringColor ++ [dq] ++ lit "$1" ++ [dq] ++ resetColor.

Definition keyPass (input : str) : outcome str :=
  ReplaceAllString keyRegex input keyTemplate.

Definition stringPass (input : str) : outcome str :=
  ReplaceAllStringFunc stringRegex input
    (fun s =>
       colonIndex <- sliceTo s 2 ;;
       body <- slice s 2 (len s - 1) ;;
       last <- sliceFrom s (len s - 1) ;;
       Returns (colonIndex ++ stringColor ++ body ++ resetColor ++ last)).

Definition arrayStringPass (input : str) : outcome str :=
  ReplaceAllStringFunc arrayStringRegex input
    (fun s =>
       ReplaceAllString quotedRegex s arrayStringTemplate).

Definition numberPass (input : str) : outcome str :=
  ReplaceAllStringFunc numberRegex input
    (fun s =>
       head <- sliceTo s 2 ;;
       tail <- sliceFrom s 2 ;;
       Returns (head ++ numberColor ++ tail ++ resetColor)).

Definition arrayNumberPass (input : str) : outcome str :=
  ReplaceAllStringFunc arrayNumberRegex input
    (fun s =>
       ReplaceAllStringFunc digitsRegex s
         (fun num => Returns (arrayNumberColor ++ num ++ resetColor))).

Definition booleanPass (input : str) : outcome str :=
  ReplaceAllStringFunc booleanRegex input
    (fun s => Returns (booleanColor ++ s ++ resetColor)).

Definition nullPass (input : str) : outcome str :=
  ReplaceAllStringFunc nullRegex input
    (fun s =>
       head <- sliceTo s 2 ;;
       tail <- sliceFrom s 2 ;;
       Returns (head ++ nullColor ++ tail ++ resetColor)).

Definition colorizeJSON (input : str) : outcome str :=
  input <- keyPass input ;;
  input <- stringPass input ;;
  input <- arrayStringPass input ;;
  input <- numberPass input ;;
  input <- arrayNumberPass input ;;
  input <- booleanPass input ;;
  nullPass input.

(** The directive tokens the colorizer writes. *)
Definition directives : list str :=
  [keyColor; stringColor; arrayStringColor; numberColor; arrayNumberColor;
   booleanColor; nullColor; resetColor].

(** A scan that removes every directive token it meets, left to right. *)
Fixpoint dropPrefix (p s : str) : option str :=
  match p, s with
  | [], _ => Some s
  | x :: p', y :: s' => if Ascii.eqb x y then dropPrefix p' s' else None
  | _ :: _, [] => None
  end.

Fixpoint dropToken (ts : list str) (s : str) : option (nat * str) :=
  match ts with
  | [] => None
  | t :: ts' =>
      match dropPrefix t s with
      | Some rest => Some (List.length t, rest)
      | None => dropToken ts' s
      end
  end.

Fixpoint stripLoop (skip : nat) (s : str) : str :=
  match s with
  | [] => []
  | c :: s' =>
      match skip with
      | S k => stripLoop k s'
      | O =>
          match dropToken directives s with
          | Some (S k, _) => stripLoop k s'
          | _ => c :: stripLoop O s'
          end
      end
  end.

Definition stripDirectives (s : str) : str := stripLoop 0 s.

(** [y] is [x] with directive tokens inserted, nothing else changed. *)
Inductive inserted : str -> str -> Prop :=
| inserted_refl x : inserted x x
| inserted_step a t b y :
    In t directives -> inserted (a ++ t ++ b) y -> inserted (a ++ b) y.

(** The number of blanks: insertion of tokens keeps it, as no token
    holds a blank. *)
Definition blanks (s : str) : nat := count_occ ascii_dec s " "%char.

(** Every match the key pass rewrites ends in a colon and one space. *)
Definition endsColonSpace (s : str) : bool :=
  match rev s with
  | sp :: co :: _ => Ascii.eqb sp " " && Ascii.eqb co ":"
  | _ => false
  end.

Definition keysSpaced (x : str) : bool :=
  forallb (fun m : matchT => let '(a0, a1, _) := m in
                             endsColonSpace (sub x a0 a1))
          (replaced keyRegex x).

(* ================================================================== *)
(** ** Pretty-printed JSON: [json.MarshalIndent] with a two-space indent

    The printer of [encoding/json] for decoded values: object keys in
    byte order, one member or element per line, two spaces per level.
    Numbers are the integers (printed in decimal); strings are printable
    ASCII, where the quote and the backslash are escaped and the three
    HTML characters are written as their code points. *)

#[warnings="-register-all"]
Inductive json :=
| JNull
| JBool (b : bool)
| JNum (z : Z)
| JStr (s : str)
| JArr (elems : list json)
| JObj (members : list (str * json)).

Definition escapeChar (c : ascii) : str :=
  if Ascii.eqb c dq then ["\"%char; dq]
  else if Ascii.eqb c "\" then ["\"%char; "\"%char]
  else if Ascii.eqb c "<" then lit "\u003c"
  else if Ascii.eqb c ">" then lit "\u003e"
  else if Ascii.eqb c "&" then lit "\u0026"
  else [c].

Definition quote (s : str) : str := [dq] ++ flat_map escapeChar s ++ [dq].

Fixpoint str_ltb (a b : str) : bool :=
  match a, b with
  | _, [] => false
  | [], _ :: _ => true
  | x :: a', y :: b' =>
      N.ltb (code x) (code y) || (N.eqb (code x) (code y) && str_ltb a' b')
  end.

Fixpoint insertMember {A} (m : str * A) (ms : list (str * A))
  : list (str * A) :=
  match ms with
  | [] => [m]
  | m' :: rest =>
      if str_ltb (fst m) (fst m') then m :: ms
      else m' :: insertMember m rest
  end.

Definition sortMembers {A} (ms : list (str * A)) : list (str * A) :=
  fold_right insertMember [] ms.

Definition indentOf (depth : nat) : str :=
  List.concat (repeat (lit "  ") depth).

Definition joinLines (depth : nat) (items : list str) : str :=
  match items with
  | [] => []
  | first :: rest =>
      [nl] ++ indentOf (S depth) ++ first
      ++ flat_map (fun it => lit "," ++ [nl] ++ indentOf (S depth) ++ it) rest
      ++ [nl] ++ indentOf depth
  end.

Fixpoint marshal (depth : nat) (v : json) : str :=
  match v with
  | JNull => lit "null"
  | JBool true => lit "true"
  | JBool false => lit "false"
  | JNum z => Itoa z
  | JStr s => quote s
  | JArr elems =>
      lit "[" ++ joinLines depth (map (marshal (S depth)) elems) ++ lit "]"
  | JObj members =>
      lit "{"
      ++ joinLines depth
           (map (fun m => quote (fst m) ++ lit ": " ++ snd m)
                (sortMembers
                   (map (fun m => (fst m, marshal (S depth) (snd m)))
                        members)))
      ++ lit "}"
  end.

Definition MarshalIndent (v : json) : str := marshal 0 v.

(* ================================================================== *)
(** ** Notions the statements use *)

(** [q] occurs in [content] at offset [p]. *)
Definition occursAt (content q : str) (p : Z) : Prop :=
  exists a b, content = a ++ q ++ b /\ len a = p.

(** [positions] are the occurrences of [q] a left-to-right scan from
    [cursor] reports when it resumes behind each occurrence it found:
    each is the first occurrence at or after the cursor, and none is left
    behind the last one. *)
Inductive scanned (content q : str) : Z -> list Z -> Prop :=
| scanned_done cursor :
    (forall p, cursor <= p -> ~ occursAt content q p) ->
    scanned content q cursor []
| scanned_next cursor p rest :
    cursor <= p ->
    occursAt content q p ->
    (forall p', cursor <= p' < p -> ~ occursAt content q p') ->
    scanned content q (p + len q) rest ->
    scanned content q cursor (p :: rest).

Fixpoint increasing (l : list Z) : Prop :=
  match l with
  | [] => True
  | x :: rest =>
      match rest with
      | [] => True
      | y :: _ => x < y
      end /\ increasing rest
  end.

(** Each offset is at least [d] behind the one before. *)
Fixpoint spaced (d : Z) (l : list Z) : Prop :=
  match l with
  | [] => True
  | x :: rest =>
      match rest with
      | [] => True
      | y :: _ => x + d <= y
      end /\ spaced d rest
  end.

(** The invariant of the search state. *)
Definition searchInvariant (st : appState) : Prop :=
  (searchResults st <> [] ->
   0 <= currentSearchIndex st < resultCount st)
  /\ (searchResults st = [] -> currentSearchIndex st = 0).

(** A slice of 16-byte results is far shorter than this. *)
Definition maxResults : Z := 2 ^ 62.

(** A pattern compiler that rejects an unbalanced parenthesis and takes
    anything else as a literal; a stand-in for [regexp.Compile] where a
    concrete one is wanted. *)
Fixpoint parenDepth (q : str) (d : nat) : option nat :=
  match q with
  | [] => Some d
  | c :: q' =>
      if Ascii.eqb c "(" then parenDepth q' (S d)
      else if Ascii.eqb c ")" then
             match d with
             | O => None
             | S d' => parenDepth q' d'
             end
           else parenDepth q' d
  end.

Definition toyCompile (q : str) : regex + str :=
  match parenDepth q 0 with
  | Some O => inl (Word q)
  | Some (S _) => inr (lit "missing closing )")
  | None => inr (lit "unexpected )")
  end.

Definition toyFindAll (re : regex) (s : str) : list (Z * Z) :=
  map (fun m : matchT => let '(a0, a1, _) := m in
                         (Z.of_nat a0, Z.of_nat a1))
      (replaced re s).

(** ASCII lower-casing, a stand-in for [strings.ToLower]. *)
Definition asciiLower (s : str) : str :=
  map (fun c => let n := code c in
                if N.leb 65 n && N.leb n 90 then ascii_of_N (n + 32) else c) s.

(** A view showing the text [t]. *)
Definition viewOf (t : str) : TextView :=
  {| tvText := t; tvTitle := []; tvHighlight := []; tvScroll := (0, 0) |}.

(** The state after a file with text [t] was opened. *)
Definition showing (t : str) : appState :=
  set_fileContent (viewOf t) initializeApp.

(** A state that browses three results. *)
Definition browsing3 (i : Z) : appState :=
  set_currentSearchIndex i
    (set_searchResults
       [{| line := 0; pos := 0 |}; {| line := 0; pos := 1 |};
        {| line := 1; pos := 0 |}]
       (showing (lit "aa" ++ [nl] ++ lit "a"))).

(** The state in which the query a is submitted on the text aXaYa. *)
Definition searching_aXaYa : appState :=
  set_searchString (lit "a") (showing (lit "aXaYa")).

(** A directory that holds the one file a.json. *)
Definition walkOne (dir : str) : list walkEntry :=
  [ {| wePath := dir; weName := dir; weIsDir := true; weErr := None |};
    {| wePath := lit "a.json"; weName := lit "a.json"; weIsDir := false;
       weErr := None |} ].

(** A context that has plenty of time, and one whose deadline has
    passed. *)
Definition background : context := fun _ => None.
Definition expired : context :=
  fun _ => Some (lit "context deadline exceeded").

(** The state after the directory was listed. *)
Definition listedOne : appState :=
  reloadJSONFiles walkOne background (lit ".") initializeApp.

(** [sub] occurs somewhere in [s]. *)
Definition contains (s sub : str) : bool := negb (Index s sub =? -1).

(** The object of the colorizer example, and its pretty-printed text. *)
Definition claimObject : json :=
  JObj [(lit "a", JStr (lit "b")); (lit "n", JNum 1); (lit "t", JBool true);
        (lit "z", JNull); (lit "arr", JArr [JStr (lit "x"); JStr (lit "y")]);
        (lit "nums", JArr [JNum 1; JNum 2; JNum 3])].

Definition claimText : str := jlit
"{
  'a': 'b',
  'arr': [
    'x',
    'y'
  ],
  'n': 1,
  'nums': [
    1,
    2,
    3
  ],
  't': true,
  'z': null
}".

(** What [colorizeJSON] makes of it. *)
Definition claimColored : str := jlit
"{
  [blue]'a'[-]: [lightgreen]'b[-]',
  [blue]'arr'[-]: [
    [green]'x'[-],
    [green]'y'[-]
  ],
  [blue]'n'[-]: [yellow]1,[-]
  [blue]'nums'[-]: [
    [yellow]1[-],
    [yellow]2[-],
    [yellow]3[-]
  ],
  [blue]'t'[-]: [lightblue]true[-],
  [blue]'z'[-]: [red]null[-]
}".

(** An object whose string value holds a quote, a colon and two blanks;
    its text; and what [colorizeJSON] makes of it. *)
Definition quoteObject : json :=
  JObj [(lit "a", JStr ([dq] ++ lit ":  b"))].

Definition quoteText : str := jlit
"{
  'a': '\':  b'
}".

Definition quoteColored : str := jlit
"{
  [blue]'a'[-]: [blue]'\'[-]: b'
}".


(* ================================================================== *)
(** ** More notions for the statements *)

(** The text without its white space. *)
Definition squeeze (s : str) : str := filter (fun c => negb (isSpace c)) s.

(** The characters a match of one of the seven patterns can begin with:
    the double quote, the colon, the opening bracket, and the first
    letters of true and false. *)
Definition startsPattern (c : ascii) : bool :=
  Ascii.eqb c dq || oneOf (lit ":[tf") c.

(** No occurrence of [q] in [ln] begins at or behind the end of another:
    a scan that resumes behind an occurrence finds no second one. *)
Definition atMostOnce (ln q : str) : Prop :=
  forall p p', occursAt ln q p -> occursAt ln q p' -> p' < p + len q.

(** For each line that holds [q], its number and the offset of the first
    occurrence; [i] is the number of the first line. *)
Fixpoint lineHits (lines : list str) (q : str) (i : Z) : list result :=
  match lines with
  | [] => []
  | ln :: rest =>
      (if Index ln q =? -1 then []
       else [{| line := i; pos := Index ln q |}])
        ++ lineHits rest q (i + 1)
  end.

(** A state that shows the text [t] and in which [q] was typed. *)
Definition searchingFor (q t : str) : appState :=
  set_searchString q (showing t).

(** [strings.HasSuffix(s, suffix)] *)
Definition hasSuffix (s suffix : str) : bool := hasPrefix (rev suffix) (rev s).

(** The entries [loadJSONFilesWithContext] keeps: files, no directories,
    whose name ends in .json. *)
Definition jsonFile (e : walkEntry) : bool :=
  negb (weIsDir e) && hasSuffix (weName e) (lit ".json").

(** The list items and action functions for [files], numbered from [i]. *)
Fixpoint itemsFor (files : list str) (i : Z) : list (str * action) :=
  match files with
  | [] => []
  | file :: rest =>
      (file, {| actFile := file; actFileIndex := i |}) :: itemsFor rest (i + 1)
  end.

(** A directory with a sub-directory, two JSON files and a text file. *)
Definition walkMixed (dir : str) : list walkEntry :=
  [ {| wePath := dir; weName := dir; weIsDir := true; weErr := None |};
    {| wePath := lit "a.json"; weName := lit "a.json"; weIsDir := false;
       weErr := None |};
    {| wePath := lit "d.json"; weName := lit "d.json"; weIsDir := true;
       weErr := None |};
    {| wePath := lit "d.json/b.json"; weName := lit "b.json";
       weIsDir := false; weErr := None |};
    {| wePath := lit "notes.txt"; weName := lit "notes.txt";
       weIsDir := false; weErr := None |} ].

(* ================================================================== *)
(** ** Scrolling two panes together: [handleScroll] *)

(** The keys [handleScroll] is called for, and any other key. *)
Inductive scrollKey := KeyUp | KeyDown | KeyPgUp | KeyPgDn | KeyElse.

(** [handleScroll]: the two views (the second may be nil) and the scroll
    offset after the key. *)
Definition handleScroll (key : scrollKey) (firstContent : TextView)
           (secondContent : option TextView) (scrollOffset : Z)
  : TextView * option TextView * Z :=
  match secondContent with
  | None => (firstContent, None, scrollOffset)
  | Some second =>
      let scrollOffset :=
        match key with
        | KeyUp =>
            let o := sub64 scrollOffset 1 in if o <? 0 then 0 else o
        | KeyDown => add64 scrollOffset 1
        | KeyPgUp =>
            let o := sub64 scrollOffset 10 in if o <? 0 then 0 else o
        | KeyPgDn => add64 scrollOffset 10
        | KeyElse => scrollOffset
        end in
      (ScrollTo scrollOffset 0 firstContent,
       Some (ScrollTo scrollOffset 0 second),
       scrollOffset)
  end.

(** A sequence of scroll keys, one call each, with both views there. *)
Fixpoint scrollAll (keys : list scrollKey) (first second : TextView)
         (scrollOffset : Z) : TextView * TextView * Z :=
  match keys with
  | [] => (first, second, scrollOffset)
  | key :: rest =>
      match handleScroll key first (Some second) scrollOffset with
      | (first', Some second', offset') => scrollAll rest first' second' offset'
      | (first', None, offset') => (first', second, offset')
      end
  end.

(* ================================================================== *)
(** ** Bold lines for search positions: [highlightSearchResult] *)

(** [containsAnyPosition] *)
Fixpoint containsAnyPosition (start end_ : Z) (positions : list Z) : bool :=
  match positions with
  | [] => false
  | pos :: rest =>
      if (start <=? pos) && (pos <? end_) then true
      else containsAnyPosition start end_ rest
  end.

Definition bold (ln : str) : str := lit "[::b]" ++ ln ++ lit "[::-]".

(** The [for i, line := range lines] loop of [highlightSearchResult];
    a newline follows every line but the last. *)
Fixpoint highlightLoop (lines : list str) (currentPosition : Z)
         (searchPositions : list Z) : str :=
  match lines with
  | [] => []
  | ln :: rest =>
      let lineStart := currentPosition in
      let lineEnd := lineStart + len ln in
      (if containsAnyPosition lineStart lineEnd searchPositions
       then bold ln else ln)
        ++ (match rest with [] => [] | _ :: _ => [nl] end)
        ++ highlightLoop rest (lineEnd + 1) searchPositions
  end.

(** [highlightSearchResult]; its third argument is not used. *)
Definition highlightSearchResult (stripTags : str -> str)
           (fileContent : TextView) (searchPositions : list Z)
           (searchString : str) : TextView :=
  if Z.of_nat (List.length searchPositions) =? 0 then fileContent
  else
    let content := GetText stripTags fileContent true in
    let lines := splitLines content in
    SetText (highlightLoop lines 0 searchPositions) fileContent.

(** Lines joined by newlines. *)
Fixpoint joinLines0 (lines : list str) : str :=
  match lines with
  | [] => []
  | [ln] => ln
  | ln :: rest => ln ++ [nl] ++ joinLines0 rest
  end.

(** The lines with the offset at which each begins, the first at [o]. *)
Fixpoint withOffsets (lines : list str) (o : Z) : list (Z * str) :=
  match lines with
  | [] => []
  | ln :: rest => (o, ln) :: withOffsets rest (o + len ln + 1)
  end.

(** The lines of a text, each with its offset in the text. *)
Definition lineSpans (content : str) : list (Z * str) :=
  withOffsets (splitLines content) 0.

(* ================================================================== *)
(** ** The highlight of the active file: [updateActiveFileHighlight] *)

(** [\[ [^\]]* \]]: a color code in square brackets *)
Definition tagRegex : regex :=
  Seq (C "[") (Seq (Star true (Chr (isNot "]"))) (C "]")).

(** The first loop: every color code is taken out of every item text. *)
Fixpoint stripItems (items : list (str * action))
  : outcome (list (str * action)) :=
  match items with
  | [] => Returns []
  | (mainText, act) :: rest =>
      plainString <- ReplaceAllString tagRegex mainText [] ;;
      rest' <- stripItems rest ;;
      Returns ((plainString, act) :: rest')
  end.

(** The second loop: the item at [activeFileIndex] is wrapped; [i] is
    the index of the first item. *)
Fixpoint markActive (items : list (str * action)) (i activeFileIndex : Z)
  : list (str * action) :=
  match items with
  | [] => []
  | (mainText, act) :: rest =>
      (if i =? activeFileIndex
       then lit "[lightgreen]" ++ mainText ++ lit "[-]"
       else mainText, act)
        :: markActive rest (i + 1) activeFileIndex
  end.

(** [updateActiveFileHighlight], on the items of the list. *)
Definition updateActiveFileHighlight (items : list (str * action))
           (activeFileIndex : Z) : outcome (list (str * action)) :=
  items <- stripItems items ;;
  Returns (markActive items 0 activeFileIndex).

(** A scanner that drops every span from an opening bracket that has a
    closing bracket behind it to the first such closing bracket;
    [skipping] is true inside a span. *)
Fixpoint untag (skipping : bool) (s : str) : str :=
  match s with
  | [] => []
  | c :: t =>
      if skipping then
        if Ascii.eqb c "]" then untag false t else untag true t
      else if Ascii.eqb c "[" && existsb (fun x => Ascii.eqb x "]") t
           then untag true t
           else c :: untag false t
  end.

(** The number of leading characters of a class. *)
Fixpoint spanLen (p : ascii -> bool) (l : str) : nat :=
  match l with
  | [] => 0
  | c :: t => if p c then S (spanLen p t) else 0
  end.

(** Item texts without an opening bracket. *)
Definition bracketFree (items : list (str * action)) : Prop :=
  Forall (fun it => existsb (fun x => Ascii.eqb x "[") (fst it) = false) items.

(* ================================================================== *)
(** ** Opening a file: the action of a list item and the Enter key *)

Fixpoint dropWhile {A} (p : A -> bool) (l : list A) : list A :=
  match l with
  | [] => []
  | x :: t => if p x then dropWhile p t else l
  end.

Fixpoint takeWhile {A} (p : A -> bool) (l : list A) : list A :=
  match l with
  | [] => []
  | x :: t => if p x then x :: takeWhile p t else []
  end.

Definition isSlash (c : ascii) : bool := Ascii.eqb c "/".

(** [filepath.Base] where the separator is the slash: the last element
    of the path, trailing slashes apart. *)
Definition Base (path : str) : str :=
  match path with
  | [] => lit "."
  | _ =>
      let stripped := dropWhile isSlash (rev path) in
      match rev (takeWhile (fun c => negb (isSlash c)) stripped) with
      | [] => lit "/"
      | element => element
      end
  end.

Definition SetTitle (t : str) (v : TextView) : TextView :=
  {| tvText := tvText v; tvTitle := t;
     tvHighlight := tvHighlight v; tvScroll := tvScroll v |}.

Definition set_activeFileIndex (i : Z) (st : appState) : appState :=
  {| fileList := fileList st; fileContent := fileContent st;
     debugView := debugView st;
     focus := focus st; actionFuncs := actionFuncs st;
     activeFileIndex := i;
     searchString := searchString st; searchResults := searchResults st;
     currentSearchIndex := currentSearchIndex st;
     searchMode := searchMode st;
     errorLog := errorLog st; infoLog := infoLog st |}.

Section Opening.

(** What [readFileContent] returns for a path (the content, or the text
    of its error), and the two calls into [encoding/json]. *)
Variable readFileContent : str -> str + str.
Variable Value : Type.
Variable Unmarshal : str -> Value + str.
Variable MarshalIndentValue : Value -> str.

(** The closure [action] that [reloadJSONFiles] builds for a file. *)
Definition runAction (act : action) (st : appState) : outcome appState :=
  let file := actFile act in
  match readFileContent file with
  | inr err =>
      let st := log_error (lit "Failed to read file " ++ file ++ lit ": "
                               ++ err) st in
      Returns (set_debugText
                 (lit "[red]Failed to read file. Check error log for details.[-]")
                 st)
  | inl content =>
      match Unmarshal content with
      | inr err =>
          let st := log_error (lit "Invalid JSON in file " ++ file
                                   ++ lit ": " ++ err) st in
          Returns (set_debugText
                     (lit "[red]Invalid JSON. Check error log for details.[-]")
                     st)
      | inl formattedContent =>
          let prettyContent := MarshalIndentValue formattedContent in
          coloredContent <- colorizeJSON prettyContent ;;
          let st := set_fileContent
                      (SetTitle (Base file)
                                (SetText coloredContent (fileContent st)))
                      st in
          let st := set_activeFileIndex (actFileIndex act) st in
          items <- updateActiveFileHighlight (fileList st)
                                             (activeFileIndex st) ;;
          Returns (set_files items (actionFuncs st) st)
      end
  end.

(** [case tcell.KeyEnter] of [setupKeyBindings] with the file list
    focused; [current] is what [fileList.GetCurrentItem()] returns.  The
    focus flag and the borders of the panes are not part of the state
    here. *)
Definition openSelected (current : Z) (st : appState) : outcome appState :=
  let st := set_activeFileIndex current st in
  act <- index_at (actionFuncs st) (activeFileIndex st) ;;
  st <- runAction act st ;;
  items <- updateActiveFileHighlight (fileList st) (activeFileIndex st) ;;
  Returns (set_focus FileContentW (set_files items (actionFuncs st) st)).

End Opening.

(** A file system with the one readable file a.json, and a decoder that
    takes a text as it is when it begins with a brace. *)
Definition readOnlyA (path : str) : str + str :=
  if str_eqb path (lit "a.json") then inl (jlit "{'k': 1}")
  else inr (lit "failed to open file: no such file or directory").

Definition braceDecoder (content : str) : str + str :=
  match content with
  | "{"%char :: _ => inl content
  | _ => inr (lit "invalid character")
  end.

(** Two files listed, the first one readable. *)
Definition walkTwo (dir : str) : list walkEntry :=
  [ {| wePath := lit "a.json"; weName := lit "a.json"; weIsDir := false;
       weErr := None |};
    {| wePath := lit "b.json"; weName := lit "b.json"; weIsDir := false;
       weErr := None |} ].

Definition listedTwo : appState :=
  reloadJSONFiles walkTwo background (lit ".") initializeApp.

(* ================================================================== *)
(** ** The panes of the main flex: [toggleLayout], [toggleCompareView] *)

Inductive pane := FileListPane | FileContentPane | SecondContentPane.

Inductive direction := FlexRow | FlexColumn.

(** One [AddItem(item, fixedSize, proportion, focus)]. *)
Record flexItem := {
  itemPane : pane;
  fixedSize : Z;
  proportion : Z;
  itemFocus : bool
}.

(** The main flex and the layout fields of [appState]. *)
Record layout := {
  mainDirection : direction;
  mainItems : list flexItem;
  layoutHorizontal : bool;
  secondFileVisible : bool;
  secondFileContent : option TextView
}.

(** [initializeApp] and [setupLayout]: a new flex lays its items out in
    a row of columns. *)
Definition setupLayout : layout :=
  {| mainDirection := FlexColumn;
     mainItems := [ {| itemPane := FileListPane; fixedSize := 0;
                       proportion := 1; itemFocus := true |};
                    {| itemPane := FileContentPane; fixedSize := 0;
                       proportion := 2; itemFocus := false |} ];
     layoutHorizontal := true;
     secondFileVisible := false;
     secondFileContent := None |}.

(** [appState.toggleLayout] *)
Definition toggleLayout (l : layout) : layout :=
  if secondFileVisible l then
    if layoutHorizontal l then
      {| mainDirection := FlexRow;
         mainItems := [ {| itemPane := FileListPane; fixedSize := 0;
                           proportion := 1; itemFocus := true |};
                        {| itemPane := FileContentPane; fixedSize := 0;
                           proportion := 1; itemFocus := false |};
                        {| itemPane := SecondContentPane; fixedSize := 0;
                           proportion := 1; itemFocus := false |} ];
         layoutHorizontal := false;
         secondFileVisible := secondFileVisible l;
         secondFileContent := secondFileContent l |}
    else
      {| mainDirection := FlexColumn;
         mainItems := [ {| itemPane := FileListPane; fixedSize := 0;
                           proportion := 1; itemFocus := true |};
                        {| itemPane := FileContentPane; fixedSize := 0;
                           proportion := 2; itemFocus := false |};
                        {| itemPane := SecondContentPane; fixedSize := 0;
                           proportion := 2; itemFocus := false |} ];
         layoutHorizontal := true;
         secondFileVisible := secondFileVisible l;
         secondFileContent := secondFileContent l |}
  else l.

Definition isSecondPane (it : flexItem) : bool :=
  match itemPane it with
  | SecondContentPane => true
  | _ => false
  end.

Section Compare.

Variable readFileContent : str -> str + str.
Variable Value : Type.
Variable Unmarshal : str -> Value + str.
Variable MarshalIndentValue : Value -> str.
(** [filepath.Join] *)
Variable Join : str -> str -> str.

(** [toggleCompareView]; [selectedFileIndex] is what
    [fileList.GetCurrentItem()] returns, and [GetItemText] indexes the
    items of the list. *)
Definition toggleCompareView (selectedFileIndex : Z)
           (st : appState) (l : layout) : outcome (appState * layout) :=
  if secondFileVisible l then
    Returns (st,
             {| mainDirection := mainDirection l;
                mainItems := filter (fun it => negb (isSecondPane it))
                                    (mainItems l);
                layoutHorizontal := layoutHorizontal l;
                secondFileVisible := false;
                secondFileContent := secondFileContent l |})
  else
    let second := match secondFileContent l with
                  | None => emptyView
                  | Some v => v
                  end in
    let l := {| mainDirection := mainDirection l;
                mainItems := mainItems l;
                layoutHorizontal := layoutHorizontal l;
                secondFileVisible := secondFileVisible l;
                secondFileContent := Some second |} in
    item <- index_at (fileList st) selectedFileIndex ;;
    let mainText := fst item in
    match readFileContent (Join (lit ".") mainText) with
    | inr err =>
        let st := log_error (lit "Failed to read file " ++ mainText
                                 ++ lit ": " ++ err) st in
        Returns (set_debugText
                   (lit "[red]Failed to read file. Check error log for details.[-]")
                   st, l)
    | inl content =>
        match Unmarshal content with
        | inr err =>
            let st := log_error (lit "Invalid JSON in file " ++ mainText
                                     ++ lit ": " ++ err) st in
            Returns (set_debugText
                       (lit "[red]Invalid JSON. Check error log for details.[-]")
                       st, l)
        | inl formattedContent =>
            let prettyContent := MarshalIndentValue formattedContent in
            coloredContent <- colorizeJSON prettyContent ;;
            let second := SetTitle mainText (SetText coloredContent second) in
            Returns (st,
                     {| mainDirection := mainDirection l;
                        mainItems :=
                          mainItems l
                          ++ [ {| itemPane := SecondContentPane;
                                  fixedSize := 0; proportion := 2;
                                  itemFocus := false |} ];
                        layoutHorizontal := layoutHorizontal l;
                        secondFileVisible := true;
                        secondFileContent := Some second |})
        end
    end.

End Compare.

(** [filepath.Join] of the current directory and a plain name. *)
Definition joinPlain (dir name : str) : str := name.

(* ================================================================== *)
(** ** [readFileContent] *)

(** What one [reader.Read(buffer)] returns: the bytes read (n is their
    number) and the error, [io.EOF] or another one. *)
Inductive readError := EOF | ReadFailed (msg : str).

Record readResult := { readBytes : str; readErr : option readError }.

(** The [for] loop of [readFileContent] over the reads the reader
    delivers; a reader that has nothing more to deliver reads nothing. *)
Fixpoint readLoop (reads : list readResult) (content : str) : str + str :=
  match reads with
  | [] => inl content
  | r :: rest =>
      match readErr r with
      | Some (ReadFailed msg) => inr (lit "error reading file: " ++ msg)
      | _ =>
          if len (readBytes r) =? 0 then inl content
          else readLoop rest (content ++ readBytes r)
      end
  end.

Section Files.

(** [os.Open]: the reads the opened file will deliver, or the error. *)
Variable Open : str -> list readResult + str.

Definition readFileContent (filePath : str) : str + str :=
  match Open filePath with
  | inr err => inr (lit "failed to open file: " ++ err)
  | inl reads => readLoop reads []
  end.

End Files.

(** The reads of a file whose bytes arrive in the given chunks. *)
Definition readsOf (chunks : list str) : list readResult :=
  map (fun c => {| readBytes := c; readErr := None |}) chunks
      ++ [ {| readBytes := []; readErr := Some EOF |} ].

(** The runes of [rs] typed one after the other in search mode. *)
Definition typeRunes (rs : str) (st : appState) : appState :=
  fold_left (fun st r => typeRune r st) rs st.

Definition okRead (c : str) : readResult :=
  {| readBytes := c; readErr := None |}.

(** [os.Open] on a directory that holds one file, whose bytes arrive in
    two chunks. *)
Definition openTwoChunks (filePath : str) : list readResult + str :=
  if str_eqb filePath (lit "a.json")
  then inl (readsOf [jlit "{'k':"; lit " 1}"])
  else inr (lit "no such file or directory").
(* ================================================================== *)
(** * Theorems *)

(** ** Strings and [strings.Index] *)

Lemma len_nonneg (s : str) : 0 <= len s.
Proof. unfold len. lia. Qed.

Lemma len_app (a b : str) : len (a ++ b) = len a + len b.
Proof. unfold len. rewrite length_app. lia. Qed.

Lemma len_nil_iff (s : str) : len s = 0 <-> s = [].
Proof.
  unfold len. destruct s; simpl; split; intro H; try reflexivity;
    try discriminate; lia.
Qed.

Lemma str_eqb_eq (a b : str) : str_eqb a b = true <-> a = b.
Proof.
  revert b. induction a as [|x a IH]; intros [|y b]; simpl;
    try (split; intro; (reflexivity || discriminate)).
  rewrite andb_true_iff, Ascii.eqb_eq, IH. split.
  - intros [-> ->]. reflexivity.
  - intros H. injection H as -> ->. auto.
Qed.

Lemma hasPrefix_iff (p s : str) :
  hasPrefix p s = true <-> exists b, s = p ++ b.
Proof.
  revert s. induction p as [|x p IH]; intros s; simpl.
  - split; [intros _; exists s; reflexivity | reflexivity].
  - destruct s as [|y s].
    + split; [discriminate | intros [b H]; discriminate].
    + rewrite andb_true_iff, Ascii.eqb_eq, IH. split.
      * intros [-> [b ->]]. exists b. reflexivity.
      * intros [b H]. injection H as -> ->. split; [reflexivity | eauto].
Qed.

Lemma hasPrefix_nil_l (s : str) : hasPrefix [] s = true.
Proof. destruct s; reflexivity. Qed.

(** What [indexNat] finds is an occurrence, and the first one. *)
Lemma indexNat_some (s q : str) (n : nat) :
  indexNat s q = Some n ->
  (exists a b, s = a ++ q ++ b /\ List.length a = n)
  /\ (forall a b, s = a ++ q ++ b -> (n <= List.length a)%nat).
Proof.
  revert n. induction s as [|c s IH]; intros n; simpl.
  - destruct (hasPrefix q []) eqn:E; [|discriminate].
    intros [= <-]. split; [|intros; lia].
    apply hasPrefix_iff in E. destruct E as [b E].
    exists [], b. auto.
  - destruct (hasPrefix q (c :: s)) eqn:E.
    + intros [= <-]. split; [|intros; lia].
      apply hasPrefix_iff in E. destruct E as [b E].
      exists [], b. auto.
    + destruct (indexNat s q) as [m|] eqn:Em; simpl; [|discriminate].
      intros [= <-]. destruct (IH m eq_refl) as [[a [b [Hs Ha]]] Hmin].
      split.
      * exists (c :: a), b. simpl. rewrite Hs, <- Ha. auto.
      * intros [|c' a'] b' H.
        -- simpl in H. assert (hasPrefix q (c :: s) = true)
             by (apply hasPrefix_iff; eauto). congruence.
        -- simpl in H. injection H as _ H. apply Hmin in H. simpl. lia.
Qed.

Lemma indexNat_none (s q : str) :
  indexNat s q = None -> forall a b, s <> a ++ q ++ b.
Proof.
  induction s as [|c s IH]; simpl.
  - destruct (hasPrefix q []) eqn:E; [discriminate|].
    intros _ a b H. destruct a; [|discriminate]. simpl in H.
    assert (hasPrefix q [] = true) by (apply hasPrefix_iff; eauto).
    congruence.
  - destruct (hasPrefix q (c :: s)) eqn:E; [discriminate|].
    destruct (indexNat s q) eqn:Em; simpl; [discriminate|].
    intros _ [|c' a] b H.
    + assert (hasPrefix q (c :: s) = true) by (apply hasPrefix_iff; eauto).
      congruence.
    + simpl in H. injection H as _ H. exact (IH eq_refl a b H).
Qed.

Lemma Index_nil (s : str) : Index s [] = 0.
Proof. unfold Index. destruct s; reflexivity. Qed.

Lemma sliceFrom_ok (s : str) (p : Z) :
  0 <= p <= len s -> sliceFrom s p = Returns (skipn (Z.to_nat p) s).
Proof.
  intros H. unfold sliceFrom, slice.
  replace ((0 <=? p) && (p <=? len s) && (len s <=? len s)) with true
    by (symmetry; rewrite !andb_true_iff, !Z.leb_le; lia).
  f_equal. apply firstn_all2. rewrite length_skipn. unfold len in *. lia.
Qed.

(** An occurrence behind the cursor is an occurrence in the rest. *)
Lemma occurs_skipn (content q : str) (pos p : Z) :
  0 <= pos <= p -> occursAt content q p ->
  exists a b, skipn (Z.to_nat pos) content = a ++ q ++ b /\ len a = p - pos.
Proof.
  intros Hp [a [b [-> Ha]]].
  exists (skipn (Z.to_nat pos) a), b. split.
  - rewrite skipn_app.
    replace (Z.to_nat pos - List.length a)%nat with 0%nat
      by (unfold len in Ha; lia).
    reflexivity.
  - unfold len in *. rewrite length_skipn. lia.
Qed.

Lemma occurs_unskipn (content q : str) (pos : Z) (a b : str) :
  0 <= pos <= len content ->
  skipn (Z.to_nat pos) content = a ++ q ++ b ->
  occursAt content q (pos + len a).
Proof.
  intros Hp H. exists (firstn (Z.to_nat pos) content ++ a), b. split.
  - rewrite <- app_assoc, <- H. symmetry. apply firstn_skipn.
  - rewrite len_app. unfold len in *. rewrite length_firstn. lia.
Qed.

(** ** The literal loop of [performSearch] *)

Section LiteralLoop.

Variables (content q : str).
Hypothesis q_nonempty : q <> [].

Lemma literalLoop_scanned (fuel : nat) :
  forall pos acc,
    0 <= pos <= len content ->
    (List.length content - Z.to_nat pos < fuel)%nat ->
    exists rest,
      literalLoop fuel content q pos acc = Returns (acc ++ rest)
      /\ scanned content q pos rest.
Proof.
  induction fuel as [|fuel IH]; intros pos acc Hpos Hfuel; [lia|].
  simpl. rewrite (sliceFrom_ok _ _ Hpos). simpl.
  unfold Index. destruct (indexNat (skipn (Z.to_nat pos) content) q)
    as [n|] eqn:E.
  - destruct (indexNat_some _ _ _ E) as [[a [b [Hs Ha]]] Hmin].
    replace (Z.of_nat n =? -1) with false by (symmetry; apply Z.eqb_neq; lia).
    assert (Hq : 0 < len q).
    { pose proof (len_nonneg q). destruct (Z.eq_dec (len q) 0) as [e|]; [|lia].
      apply len_nil_iff in e. contradiction. }
    assert (Hlen : Z.of_nat n + len q <= len content - pos).
    { assert (L : len (skipn (Z.to_nat pos) content) = len content - pos)
        by (unfold len in *; rewrite length_skipn; lia).
      rewrite Hs, !len_app in L. unfold len in *. lia. }
    destruct (IH (pos + (Z.of_nat n + len q)) (acc ++ [pos + Z.of_nat n]))
      as [rest [Hrun Hsc]]; [lia | unfold len in *; lia |].
    exists ((pos + Z.of_nat n) :: rest). split.
    + rewrite Hrun, <- app_assoc. reflexivity.
    + apply scanned_next; [lia | | | ].
      * replace (Z.of_nat n) with (len a) by (unfold len; lia).
        apply occurs_unskipn with (b := b); [lia | exact Hs].
      * intros p' Hp' Hocc.
        destruct (occurs_skipn content q pos p') as [a' [b' [Hs' Ha']]];
          [lia | exact Hocc |].
        apply Hmin in Hs'. unfold len in Ha'. lia.
      * replace (pos + Z.of_nat n + len q)
          with (pos + (Z.of_nat n + len q)) by lia.
        exact Hsc.
  - simpl. exists []. split; [rewrite app_nil_r; reflexivity|].
    apply scanned_done. intros p Hp Hocc.
    destruct (occurs_skipn content q pos p) as [a' [b' [Hs' _]]];
      [lia | exact Hocc |].
    exact (indexNat_none _ _ E _ _ Hs').
Qed.

Lemma scanned_lower_bound (cursor : Z) (l : list Z) :
  scanned content q cursor l -> Forall (fun p => cursor <= p) l.
Proof.
  induction 1 as [|cursor p rest Hc Ho Hm Hs IH]; constructor; [exact Hc|].
  eapply Forall_impl; [|exact IH]. simpl. intros x Hx.
  pose proof (len_nonneg q). lia.
Qed.

Lemma scanned_increasing (cursor : Z) (l : list Z) :
  scanned content q cursor l -> increasing l.
Proof.
  induction 1 as [|cursor p rest Hc Ho Hm Hs IH]; simpl; [exact I|].
  split; [|exact IH].
  destruct rest as [|y rest']; [exact I|].
  apply scanned_lower_bound in Hs. inversion Hs as [|? ? Hy _]; subst.
  assert (0 < len q).
  { pose proof (len_nonneg q). destruct (Z.eq_dec (len q) 0) as [e|]; [|lia].
    apply len_nil_iff in e. contradiction. }
  lia.
Qed.

End LiteralLoop.

Lemma scanned_spaced (content q : str) (cursor : Z) (l : list Z) :
  scanned content q cursor l -> spaced (len q) l.
Proof.
  induction 1 as [|cursor p rest Hc Ho Hm Hs IH]; simpl; [exact I|].
  split; [|exact IH].
  destruct rest as [|y rest']; [exact I|].
  inversion Hs; subst. assumption.
Qed.

(** With an empty query the loop finds the query at the cursor, over and
    over, and never leaves. *)
Lemma literalLoop_empty_query (content : str) (fuel : nat) :
  forall acc, literalLoop fuel content [] 0 acc = OutOfFuel.
Proof.
  induction fuel as [|fuel IH]; intros acc; [reflexivity|].
  simpl. rewrite sliceFrom_ok by (pose proof (len_nonneg content); lia).
  simpl. rewrite Index_nil. simpl. apply IH.
Qed.

(** ** The offset-based search *)

Section OffsetSearchFacts.

Variable Regexp : Type.
Variable Compile : str -> Regexp + str.
Variable FindAllStringIndex : Regexp -> str -> list (Z * Z).
Variable ToLower : str -> str.

Lemma performSearch_literal (content q : str) (cs : bool) :
  let content' := if cs then content else ToLower content in
  let q' := if cs then q else ToLower q in
  q' <> [] ->
  exists positions,
    scanned content' q' 0 positions
    /\ forall fuel, (List.length content' < fuel)%nat ->
         performSearch Regexp Compile FindAllStringIndex ToLower
                       fuel content q
                       {| caseSensitive := cs; useRegex := false |}
         = Returns (positions, []).
Proof.
  intros content' q' Hq.
  destruct (literalLoop_scanned content' q' Hq (S (List.length content'))
              0 []) as [positions [_ Hsc]];
    [pose proof (len_nonneg content'); lia | lia |].
  exists positions. split; [exact Hsc|].
  intros fuel Hfuel. unfold performSearch. simpl.
  fold content' q'.
  destruct (literalLoop_scanned content' q' Hq fuel 0 [])
    as [positions' [Hrun Hsc']];
    [pose proof (len_nonneg content'); lia | lia |].
  rewrite Hrun. simpl. f_equal. f_equal.
  clear - Hsc Hsc'. revert positions' Hsc'.
  induction Hsc as [c Hno | c p rest Hc Ho Hm Hs IH]; intros l Hl;
    inversion Hl as [c' Hno' | c' p' rest' Hc' Ho' Hm' Hs']; subst.
  - reflexivity.
  - exfalso. exact (Hno _ Hc' Ho').
  - exfalso. exact (Hno' _ Hc Ho).
  - assert (p = p').
    { destruct (Z.lt_trichotomy p p') as [H | [H | H]]; [|exact H|].
      - exfalso. apply (Hm' p); [lia | exact Ho].
      - exfalso. apply (Hm p'); [lia | exact Ho']. }
    subst p'. f_equal. apply IH. exact Hs'.
Qed.

End OffsetSearchFacts.

(** C6: with [useRegex] false and [caseSensitive] true, [performSearch]
    returns the offsets a left-to-right scan reports when it resumes
    behind each occurrence it found (each offset is the first occurrence
    at or after the cursor, the cursor then moves past it, and no
    occurrence is left behind the last one); for the query a in the
    content aXaYa these are 0, 2 and 4. *)
Theorem performSearch_literal_offsets
        (Regexp : Type) (Compile : str -> Regexp + str)
        (FindAllStringIndex : Regexp -> str -> list (Z * Z))
        (ToLower : str -> str) :
  let opts := {| caseSensitive := true; useRegex := false |} in
  performSearch Regexp Compile FindAllStringIndex ToLower
                6 (lit "aXaYa") (lit "a") opts
  = Returns ([0; 2; 4], [])
  /\ forall content q,
      q <> [] ->
      exists positions,
        scanned content q 0 positions
        /\ forall fuel, (List.length content < fuel)%nat ->
             performSearch Regexp Compile FindAllStringIndex ToLower
                           fuel content q opts
             = Returns (positions, []).
Proof.
  split; [reflexivity|].
  intros content q Hq.
  exact (performSearch_literal Regexp Compile FindAllStringIndex ToLower
                               content q true Hq).
Qed.

Lemma performSearch_literal_offsets_witness :
  exists positions,
    scanned (lit "abcabc") (lit "bc") 0 positions
    /\ forall fuel, (List.length (lit "abcabc") < fuel)%nat ->
         performSearch regex toyCompile toyFindAll asciiLower
                       fuel (lit "abcabc") (lit "bc")
                       {| caseSensitive := true; useRegex := false |}
         = Returns (positions, []).
Proof.
  apply (proj2 (performSearch_literal_offsets regex toyCompile toyFindAll
                                              asciiLower)).
  discriminate.
Defined.

(** C9: for a non-empty query the literal loop of [performSearch]
    terminates (enough fuel gives the result) and the offsets it returns
    are strictly increasing, each at least the length of the query (as
    searched: lower-cased when the search ignores case) behind the one
    before; for the empty query it never terminates, so the non-emptiness
    is needed.  [strings.ToLower] maps the empty string, and only it, to
    the empty string. *)
Theorem performSearch_literal_terminates
        (Regexp : Type) (Compile : str -> Regexp + str)
        (FindAllStringIndex : Regexp -> str -> list (Z * Z))
        (ToLower : str -> str)
        (ToLower_nil : forall s, ToLower s = [] <-> s = [])
        (content q : str) (cs : bool) :
  let opts := {| caseSensitive := cs; useRegex := false |} in
  (q <> [] ->
   exists positions n,
     increasing positions
     /\ spaced (len (if cs then q else ToLower q)) positions
     /\ forall fuel, (n <= fuel)%nat ->
          performSearch Regexp Compile FindAllStringIndex ToLower
                        fuel content q opts
          = Returns (positions, []))
  /\ (q = [] ->
      forall fuel,
        performSearch Regexp Compile FindAllStringIndex ToLower
                      fuel content q opts
        = OutOfFuel).
Proof.
  intros opts. split.
  - intros Hq.
    assert (Hq' : (if cs then q else ToLower q) <> []).
    { destruct cs; [exact Hq|]. intros H.
      apply (proj1 (ToLower_nil q)) in H. contradiction. }
    destruct (performSearch_literal Regexp Compile FindAllStringIndex ToLower
                                    content q cs Hq')
      as [positions [Hsc Hrun]].
    exists positions,
      (S (List.length (if cs then content else ToLower content))).
    split; [|split].
    + exact (scanned_increasing _ _ Hq' _ _ Hsc).
    + exact (scanned_spaced _ _ _ _ Hsc).
    + intros fuel Hfuel. apply Hrun. exact Hfuel.
  - intros -> fuel. unfold performSearch, opts.
    destruct cs; cbn [useRegex caseSensitive].
    + rewrite literalLoop_empty_query. reflexivity.
    + rewrite (proj2 (ToLower_nil []) eq_refl).
      rewrite literalLoop_empty_query. reflexivity.
Qed.

Lemma asciiLower_nil (s : str) : asciiLower s = [] <-> s = [].
Proof.
  destruct s; simpl; split; intro H; try reflexivity; discriminate.
Qed.

Lemma performSearch_literal_terminates_witness :
  exists positions n,
    increasing positions
    /\ spaced (len (asciiLower (lit "AN"))) positions
    /\ forall fuel, (n <= fuel)%nat ->
         performSearch regex toyCompile toyFindAll asciiLower
                       fuel (lit "Banana") (lit "AN")
                       {| caseSensitive := false; useRegex := false |}
         = Returns (positions, []).
Proof.
  apply (proj1 (performSearch_literal_terminates
                  regex toyCompile toyFindAll asciiLower asciiLower_nil
                  (lit "Banana") (lit "AN") false)).
  discriminate.
Defined.

(** C7: when the pattern handed to [regexp.Compile] is rejected,
    [performSearch] with [useRegex] returns (it does not panic, whatever
    the content) the empty sequence of positions, and has written one
    line with the error to the error log. *)
Theorem performSearch_invalid_pattern
        (Regexp : Type) (Compile : str -> Regexp + str)
        (FindAllStringIndex : Regexp -> str -> list (Z * Z))
        (ToLower : str -> str)
        (fuel : nat) (content q err : str) (opts : searchOptions) :
  useRegex opts = true ->
  Compile (if caseSensitive opts then q else lit "(?i)" ++ q) = inr err ->
  performSearch Regexp Compile FindAllStringIndex ToLower
                fuel content q opts
  = Returns ([], [lit "Invalid regex pattern: " ++ err]).
Proof.
  intros Hre Hc. unfold performSearch. rewrite Hre.
  destruct (caseSensitive opts); rewrite Hc; reflexivity.
Qed.

Lemma performSearch_invalid_pattern_witness :
  performSearch regex toyCompile toyFindAll asciiLower
                0 (lit "f(x)") (lit "(x") {| caseSensitive := true; useRegex := true |}
  = Returns ([], [lit "Invalid regex pattern: " ++ lit "missing closing )"]).
Proof.
  apply performSearch_invalid_pattern; reflexivity.
Defined.

(** ** The interactive search *)

Lemma wrap64_small (z : Z) : - 2 ^ 63 <= z < 2 ^ 63 -> wrap64 z = z.
Proof.
  intros H. unfold wrap64. rewrite Z.mod_small; lia.
Qed.

Lemma index_at_in_range {A} (xs : list A) (i : Z) :
  0 <= i < Z.of_nat (List.length xs) -> exists x, index_at xs i = Returns x.
Proof.
  intros H. unfold index_at.
  replace ((0 <=? i) && (i <? Z.of_nat (List.length xs))) with true
    by (symmetry; rewrite andb_true_iff, Z.leb_le, Z.ltb_lt; lia).
  destruct (nth_error xs (Z.to_nat i)) as [x|] eqn:E; [eauto|].
  apply nth_error_None in E. lia.
Qed.

Lemma resultCount_pos (st : appState) :
  searchResults st <> [] <-> 0 < resultCount st.
Proof.
  unfold resultCount. destruct (searchResults st); simpl; split; intro H;
    try congruence; try lia.
Qed.

(** [highlightCurrentResult] touches the content view only. *)
Lemma highlightCurrentResult_in_bounds (st : appState) :
  searchInvariant st ->
  exists st',
    highlightCurrentResult st = Returns st'
    /\ searchResults st' = searchResults st
    /\ currentSearchIndex st' = currentSearchIndex st
    /\ searchString st' = searchString st.
Proof.
  intros [Hne He]. unfold highlightCurrentResult.
  destruct (resultCount st =? 0) eqn:E.
  - exists st. auto.
  - apply Z.eqb_neq in E.
    assert (Hp : searchResults st <> []).
    { apply resultCount_pos. unfold resultCount in *. lia. }
    destruct (index_at_in_range (searchResults st) (currentSearchIndex st))
      as [r Hr]; [exact (Hne Hp)|].
    rewrite Hr. simpl. eexists. split; [reflexivity|]. auto.
Qed.

(** Moving the index to [i] inside the range, then highlighting. *)
Lemma move_to (st : appState) (i : Z) :
  0 <= i < resultCount st ->
  exists st',
    (st0 <- highlightCurrentResult (set_currentSearchIndex i st) ;;
     Returns (set_debugText (resultOf st0) st0)) = Returns st'
    /\ searchResults st' = searchResults st
    /\ currentSearchIndex st' = i
    /\ searchString st' = searchString st.
Proof.
  intros Hi.
  destruct (highlightCurrentResult_in_bounds (set_currentSearchIndex i st))
    as [st0 [Hrun [Hr [Hc Hs]]]].
  { split; simpl; intros H.
    - exact Hi.
    - unfold resultCount in Hi. rewrite H in Hi. simpl in Hi. lia. }
  rewrite Hrun. simpl. eexists. split; [reflexivity|].
  simpl. simpl in Hr, Hc, Hs. auto.
Qed.

Lemma next_index (i n : Z) :
  0 <= i < n -> n < maxResults ->
  rem64 (add64 i 1) n = (i + 1) mod n.
Proof.
  unfold maxResults, rem64, add64. intros Hi Hn.
  rewrite (wrap64_small (i + 1)) by lia.
  rewrite Z.rem_mod_nonneg by lia.
  pose proof (Z.mod_pos_bound (i + 1) n ltac:(lia)).
  apply wrap64_small. lia.
Qed.

Lemma previous_index (i n : Z) :
  0 <= i < n -> n < maxResults ->
  rem64 (add64 (sub64 i 1) n) n = (i - 1 + n) mod n.
Proof.
  unfold maxResults, rem64, add64, sub64. intros Hi Hn.
  rewrite (wrap64_small (i - 1)) by lia.
  rewrite (wrap64_small (i - 1 + n)) by lia.
  rewrite Z.rem_mod_nonneg by lia.
  pose proof (Z.mod_pos_bound (i - 1 + n) n ltac:(lia)).
  apply wrap64_small. lia.
Qed.

(** Both navigation steps, on a state with results and on one without. *)
Lemma navigation_steps (st : appState) :
  let L := resultCount st in
  let i := currentSearchIndex st in
  (0 < L -> L < maxResults -> 0 <= i < L ->
   (exists st', findNextResult st = Returns st'
                /\ currentSearchIndex st' = (i + 1) mod L
                /\ searchResults st' = searchResults st)
   /\ (exists st', findPreviousResult st = Returns st'
                   /\ currentSearchIndex st' = (i - 1 + L) mod L
                   /\ searchResults st' = searchResults st))
  /\ (L = 0 -> findNextResult st = Returns st
               /\ findPreviousResult st = Returns st).
Proof.
  intros L i. split.
  - intros HL Hmax Hi. unfold findNextResult, findPreviousResult.
    fold L i. replace (L =? 0) with false by (symmetry; apply Z.eqb_neq; lia).
    rewrite (next_index i L Hi Hmax), (previous_index i L Hi Hmax).
    split.
    + destruct (move_to st ((i + 1) mod L)) as [st' [Hrun [Hr [Hc _]]]].
      { apply Z.mod_pos_bound. lia. }
      exists st'. auto.
    + destruct (move_to st ((i - 1 + L) mod L)) as [st' [Hrun [Hr [Hc _]]]].
      { apply Z.mod_pos_bound. lia. }
      exists st'. auto.
  - intros HL. unfold findNextResult, findPreviousResult. fold L.
    rewrite HL. simpl. auto.
Qed.

(** C8: on a non-empty match sequence of length L (a Go slice of results,
    hence far below 2^62 elements) with the current index i in range,
    [findNextResult] returns with the index (i+1) mod L and
    [findPreviousResult] with (i-1+L) mod L, the sequence unchanged; on an
    empty sequence both return the state as it was, and do not panic. *)
Theorem find_next_previous_wrap (st : appState) :
  let L := resultCount st in
  let i := currentSearchIndex st in
  (0 < L -> L < maxResults -> 0 <= i < L ->
   (exists st', findNextResult st = Returns st'
                /\ currentSearchIndex st' = (i + 1) mod L
                /\ searchResults st' = searchResults st)
   /\ (exists st', findPreviousResult st = Returns st'
                   /\ currentSearchIndex st' = (i - 1 + L) mod L
                   /\ searchResults st' = searchResults st))
  /\ (L = 0 -> findNextResult st = Returns st
               /\ findPreviousResult st = Returns st).
Proof. exact (navigation_steps st). Qed.

Lemma find_next_previous_wrap_witness :
  (exists st', findNextResult (browsing3 2) = Returns st'
               /\ currentSearchIndex st' = (2 + 1) mod 3
               /\ searchResults st' = searchResults (browsing3 2))
  /\ (exists st', findPreviousResult (browsing3 0) = Returns st'
                  /\ currentSearchIndex st' = (0 - 1 + 3) mod 3
                  /\ searchResults st' = searchResults (browsing3 0)).
Proof.
  split.
  - apply (proj1 (find_next_previous_wrap (browsing3 2)));
      vm_compute; try split; congruence.
  - apply (proj1 (find_next_previous_wrap (browsing3 0)));
      vm_compute; try split; congruence.
Defined.

Lemma searchInvariant_index_zero (st : appState) :
  currentSearchIndex st = 0 -> searchInvariant st.
Proof.
  intros H. split; intros Hr; [|exact H].
  rewrite H. apply resultCount_pos in Hr. lia.
Qed.

Lemma appState_performSearch_invariant (stripTags : str -> str)
      (fuel : nat) (st st' : appState) :
  searchString st <> [] ->
  appState_performSearch stripTags fuel st = Returns st' ->
  searchInvariant st'.
Proof.
  intros Hq. unfold appState_performSearch.
  destruct (str_eqb (searchString st) []) eqn:E.
  { apply str_eqb_eq in E. contradiction. }
  destruct (scanLines fuel _ _ 0 []) as [results| |]; simpl; try discriminate.
  set (st1 := set_currentSearchIndex 0 (set_searchResults results st)).
  destruct (0 <? resultCount st1) eqn:Ep.
  - destruct (highlightCurrentResult_in_bounds st1) as [st2 [Hrun [Hr [Hc _]]]].
    { apply searchInvariant_index_zero. reflexivity. }
    rewrite Hrun. simpl. intros [= <-].
    apply searchInvariant_index_zero. simpl. rewrite Hc. reflexivity.
  - intros [= <-]. apply searchInvariant_index_zero. reflexivity.
Qed.

Lemma appState_performSearch_empty_query (stripTags : str -> str)
      (fuel : nat) (st : appState) :
  searchString st = [] -> appState_performSearch stripTags fuel st = Returns st.
Proof.
  intros H. unfold appState_performSearch. rewrite H. reflexivity.
Qed.

(** Where [strings.Index] finds the query, the query fits in. *)
Lemma Index_bounds (s q : str) :
  Index s q = -1 \/ (0 <= Index s q /\ Index s q + len q <= len s).
Proof.
  unfold Index. destruct (indexNat s q) as [n|] eqn:E; [right|left; reflexivity].
  destruct (proj1 (indexNat_some _ _ _ E)) as [a [b [Hs Ha]]].
  subst s. rewrite !len_app. pose proof (len_nonneg b).
  unfold len in *. lia.
Qed.

(** The slice the inner loop takes is in range at every round, also in
    the rounds in which the index has lost the offset of the occurrence
    before: the loop may run for ever, it does not panic. *)
Lemma scanLine_no_panic (fuel : nat) (ln q : str) (i : Z) :
  forall index results,
    index = -1 \/ (0 <= index /\ index + len q <= len ln) ->
    scanLine fuel ln q i index results <> Panics.
Proof.
  induction fuel as [|fuel IH]; intros index results J; simpl.
  - destruct (index =? -1); discriminate.
  - destruct (index =? -1) eqn:E; [discriminate|].
    apply Z.eqb_neq in E. destruct J as [J | [J0 J1]]; [contradiction|].
    pose proof (len_nonneg q) as Hq.
    rewrite sliceFrom_ok by lia. simpl.
    set (rest := skipn (Z.to_nat (index + len q)) ln).
    assert (Hrest : len rest = len ln - (index + len q)).
    { unfold rest, len. rewrite length_skipn. unfold len in *. lia. }
    apply IH.
    destruct (Index_bounds rest q) as [Hm | [H0 H1]].
    + left. rewrite Hm. reflexivity.
    + right. replace (Index rest q =? -1) with false
        by (symmetry; apply Z.eqb_neq; lia).
      simpl. lia.
Qed.

Lemma scanLines_no_panic (fuel : nat) (lines : list str) (q : str) :
  forall i results, scanLines fuel lines q i results <> Panics.
Proof.
  induction lines as [|ln rest IH]; intros i results; simpl.
  - discriminate.
  - pose proof (scanLine_no_panic fuel ln q i (Index ln q) results
                  (Index_bounds ln q)) as H.
    destruct (scanLine fuel ln q i (Index ln q) results) as [r| |];
      simpl; [apply IH | congruence | discriminate].
Qed.

(** [appState.performSearch] on a query that is not empty: whatever the
    line loop returns is stored with the index 0, and the result shown
    first is fetched inside the range. *)
Lemma appState_performSearch_runs (stripTags : str -> str)
      (fuel : nat) (st : appState) (results : list result) :
  searchString st <> [] ->
  scanLines fuel (splitLines (GetText stripTags (fileContent st) true))
            (searchString st) 0 []
  = Returns results ->
  exists st',
    appState_performSearch stripTags fuel st = Returns st'
    /\ searchResults st' = results
    /\ currentSearchIndex st' = 0
    /\ searchInvariant st'.
Proof.
  intros Hq Hscan. unfold appState_performSearch.
  destruct (str_eqb (searchString st) []) eqn:E.
  { apply str_eqb_eq in E. contradiction. }
  rewrite Hscan. simpl.
  set (st1 := set_currentSearchIndex 0 (set_searchResults results st)).
  destruct (0 <? resultCount st1) eqn:Ep.
  - destruct (highlightCurrentResult_in_bounds st1) as [st2 [Hrun [Hr [Hc _]]]].
    { apply searchInvariant_index_zero. reflexivity. }
    rewrite Hrun. simpl. eexists. split; [reflexivity|].
    simpl. rewrite Hr, Hc.
    split; [reflexivity|]. split; [reflexivity|].
    apply searchInvariant_index_zero. simpl. rewrite Hc. reflexivity.
  - eexists. split; [reflexivity|].
    split; [reflexivity|]. split; [reflexivity|].
    apply searchInvariant_index_zero. reflexivity.
Qed.

Lemma appState_performSearch_stops (stripTags : str -> str)
      (fuel : nat) (st : appState) :
  searchString st <> [] ->
  scanLines fuel (splitLines (GetText stripTags (fileContent st) true))
            (searchString st) 0 []
  = OutOfFuel ->
  appState_performSearch stripTags fuel st = OutOfFuel.
Proof.
  intros Hq Hscan. unfold appState_performSearch.
  destruct (str_eqb (searchString st) []) eqn:E.
  { apply str_eqb_eq in E. contradiction. }
  cbv zeta. rewrite Hscan. reflexivity.
Qed.

Lemma appState_performSearch_no_panic (stripTags : str -> str)
      (fuel : nat) (st : appState) :
  appState_performSearch stripTags fuel st <> Panics.
Proof.
  destruct (searchString st) as [|c q] eqn:Eq.
  - rewrite appState_performSearch_empty_query by exact Eq. discriminate.
  - assert (Hq : searchString st <> []) by (rewrite Eq; discriminate).
    clear Eq.
    pose proof (scanLines_no_panic fuel
                  (splitLines (GetText stripTags (fileContent st) true))
                  (searchString st) 0 []) as Hnp.
    destruct (scanLines fuel
                (splitLines (GetText stripTags (fileContent st) true))
                (searchString st) 0 []) as [results| |] eqn:Hscan.
    + destruct (appState_performSearch_runs stripTags fuel st results Hq Hscan)
        as [st' [Hrun _]].
      rewrite Hrun. discriminate.
    + congruence.
    + rewrite (appState_performSearch_stops stripTags fuel st Hq Hscan).
      discriminate.
Qed.

Lemma appState_performSearch_index_zero (stripTags : str -> str)
      (fuel : nat) (st st' : appState) :
  searchString st <> [] ->
  appState_performSearch stripTags fuel st = Returns st' ->
  currentSearchIndex st' = 0.
Proof.
  intros Hq Hrun.
  destruct (scanLines fuel
              (splitLines (GetText stripTags (fileContent st) true))
              (searchString st) 0 []) as [results| |] eqn:Hscan.
  - destruct (appState_performSearch_runs stripTags fuel st results Hq Hscan)
      as [st1 [Hrun1 [_ [Hz _]]]].
    rewrite Hrun in Hrun1. injection Hrun1 as <-. exact Hz.
  - exfalso.
    exact (scanLines_no_panic fuel _ _ 0 [] Hscan).
  - rewrite (appState_performSearch_stops stripTags fuel st Hq Hscan) in Hrun.
    discriminate.
Qed.

(** C10: the invariant (index within the results when there are
    results, index 0 when there are none) holds at the start and after
    [cancelSearch].  [appState.performSearch] never panics: the slices of
    its loop and the index access of its own [highlightCurrentResult]
    call are in bounds; whenever its line loop comes to an end it returns
    with the results of the loop stored, the index set to 0 and the
    invariant established, and so does every run of it on a query that
    returns.  Under the invariant (the results being a Go slice, shorter
    than 2^62) no operation on the search state panics, every one that
    returns keeps the invariant, the navigation always returns, and the
    index access of [highlightCurrentResult] is in bounds. *)
Theorem search_index_invariant (stripTags : str -> str) (fuel : nat) :
  searchInvariant initializeApp
  /\ (forall st, searchInvariant (cancelSearch st))
  /\ (forall st,
         appState_performSearch stripTags fuel st <> Panics
         /\ (forall results,
                searchString st <> [] ->
                scanLines fuel
                          (splitLines (GetText stripTags (fileContent st) true))
                          (searchString st) 0 []
                = Returns results ->
                exists st',
                  appState_performSearch stripTags fuel st = Returns st'
                  /\ searchResults st' = results
                  /\ currentSearchIndex st' = 0
                  /\ searchInvariant st')
         /\ (forall st',
                searchString st <> [] ->
                appState_performSearch stripTags fuel st = Returns st' ->
                currentSearchIndex st' = 0 /\ searchInvariant st'))
  /\ (forall op st,
         searchInvariant st -> resultCount st < maxResults ->
         runOp stripTags fuel op st <> Panics
         /\ (forall st',
                runOp stripTags fuel op st = Returns st' ->
                searchInvariant st'))
  /\ (forall st,
         searchInvariant st -> resultCount st < maxResults ->
         (exists st', findNextResult st = Returns st')
         /\ (exists st', findPreviousResult st = Returns st'))
  /\ (forall st,
         searchInvariant st ->
         exists st', highlightCurrentResult st = Returns st').
Proof.
  assert (Hnav : forall st, searchInvariant st -> resultCount st < maxResults ->
            (exists st', findNextResult st = Returns st' /\ searchInvariant st')
            /\ (exists st', findPreviousResult st = Returns st'
                            /\ searchInvariant st')).
  { intros st Hinv Hmax.
    destruct (Z.eq_dec (resultCount st) 0) as [E | E].
    - destruct (proj2 (navigation_steps st) E) as [Hn Hp].
      split; exists st; auto.
    - assert (HL : 0 < resultCount st) by (unfold resultCount in *; lia).
      assert (Hi := proj1 Hinv (proj2 (resultCount_pos st) HL)).
      destruct (proj1 (navigation_steps st) HL Hmax Hi)
        as [[s1 [H1 [I1 R1]]] [s2 [H2 [I2 R2]]]].
      split; [exists s1 | exists s2]; (split; [assumption|]).
      + split; intros Hr.
        * unfold resultCount. rewrite I1, R1. apply Z.mod_pos_bound. exact HL.
        * rewrite R1 in Hr. apply resultCount_pos in HL. contradiction.
      + split; intros Hr.
        * unfold resultCount. rewrite I2, R2. apply Z.mod_pos_bound. exact HL.
        * rewrite R2 in Hr. apply resultCount_pos in HL. contradiction. }
  split; [apply searchInvariant_index_zero; reflexivity|].
  split; [intros st; apply searchInvariant_index_zero; reflexivity|].
  split.
  { intros st. split; [apply appState_performSearch_no_panic|]. split.
    - intros results. apply appState_performSearch_runs.
    - intros st' Hq Hrun. split.
      + exact (appState_performSearch_index_zero stripTags fuel st st' Hq Hrun).
      + exact (appState_performSearch_invariant stripTags fuel st st' Hq Hrun). }
  split; [|split].
  - intros op st Hinv Hmax. split.
    + destruct op; simpl; try discriminate.
      * unfold submitSearch.
        pose proof (appState_performSearch_no_panic
                      stripTags fuel (set_searchMode false st)) as Hnp.
        destruct (appState_performSearch stripTags fuel
                    (set_searchMode false st)) as [s1| |];
          simpl; [discriminate | congruence | discriminate].
      * destruct (proj1 (Hnav st Hinv Hmax)) as [s1 [H1 _]].
        rewrite H1. discriminate.
      * destruct (proj2 (Hnav st Hinv Hmax)) as [s1 [H1 _]].
        rewrite H1. discriminate.
    + intros st'. destruct op; simpl.
      * intros [= <-]. exact Hinv.
      * intros [= <-]. apply searchInvariant_index_zero. reflexivity.
      * unfold submitSearch.
        destruct (appState_performSearch stripTags fuel
                    (set_searchMode false st))
          as [s1| |] eqn:E; simpl; try discriminate.
        intros [= <-].
        assert (searchInvariant s1); [|assumption].
        destruct (searchString st) as [|c q] eqn:Eq.
        -- rewrite appState_performSearch_empty_query in E by exact Eq.
           injection E as <-. exact Hinv.
        -- apply (appState_performSearch_invariant stripTags fuel
                    (set_searchMode false st)); [|exact E].
           simpl. rewrite Eq. discriminate.
      * intros [= <-]. exact Hinv.
      * destruct (proj1 (Hnav st Hinv Hmax)) as [s1 [H1 I1]].
        rewrite H1. intros [= <-]. exact I1.
      * destruct (proj2 (Hnav st Hinv Hmax)) as [s1 [H1 I1]].
        rewrite H1. intros [= <-]. exact I1.
  - intros st Hinv Hmax. destruct (Hnav st Hinv Hmax) as [[s1 [H1 _]] [s2 [H2 _]]].
    eauto.
  - intros st Hinv.
    destruct (highlightCurrentResult_in_bounds st Hinv) as [st' [H _]]. eauto.
Qed.

Lemma search_index_invariant_witness :
  searchInvariant (browsing3 2)
  /\ (exists st', runOp (fun s => s) 9 OpNext (browsing3 2) = Returns st'
                  /\ searchInvariant st')
  /\ (exists st',
         appState_performSearch (fun s => s) 9
                                (set_searchString (lit "aa") (browsing3 2))
         = Returns st'
         /\ searchResults st' = [{| line := 0; pos := 0 |}]
         /\ currentSearchIndex st' = 0
         /\ searchInvariant st').
Proof.
  assert (I : searchInvariant (browsing3 2)).
  { split; vm_compute; [intros _; split|]; congruence. }
  split; [exact I|]. split.
  - eexists. split; [reflexivity|].
    apply (proj2 (proj1 (proj2 (proj2 (proj2
             (search_index_invariant (fun s => s) 9))))
             OpNext (browsing3 2) I eq_refl)).
    reflexivity.
  - apply (proj1 (proj2 (proj1 (proj2 (proj2
             (search_index_invariant (fun s => s) 9)))
             (set_searchString (lit "aa") (browsing3 2))))).
    + discriminate.
    + reflexivity.
Defined.

(** ** [startSearch] *)



(** ** The line search of [appState.performSearch] *)

Lemma scanLine_aXaYa_stuck (fuel : nat) :
  forall results,
    scanLine fuel (lit "aXaYa") (lit "a") 0 2 results = OutOfFuel.
Proof.
  induction fuel as [|fuel IH]; intros results; [reflexivity|].
  change (scanLine (S fuel) (lit "aXaYa") (lit "a") 0 2 results)
    with (scanLine fuel (lit "aXaYa") (lit "a") 0 2
                   (results ++ [{| line := 0; pos := 2 |}])).
  apply IH.
Qed.

(** C2, on the code: on the text aXaYa with the query a the inner loop
    records column 0, then column 2 (the offset relative to the rest of
    the line plus the query length, the offset of the previous occurrence
    being forgotten), and from there finds column 2 again, for ever: no
    amount of fuel lets [appState.performSearch] return. *)
Theorem appState_performSearch_aXaYa_diverges (fuel : nat) :
  appState_performSearch (fun s => s) fuel searching_aXaYa = OutOfFuel.
Proof.
  unfold appState_performSearch.
  change (str_eqb (searchString searching_aXaYa) []) with false.
  cbv iota.
  change (splitLines (GetText (fun s => s) (fileContent searching_aXaYa) true))
    with [lit "aXaYa"].
  change (searchString searching_aXaYa) with (lit "a").
  unfold scanLines.
  change (Index (lit "aXaYa") (lit "a")) with 0.
  destruct fuel as [|fuel]; [reflexivity|].
  change (scanLine (S fuel) (lit "aXaYa") (lit "a") 0 0 [])
    with (scanLine fuel (lit "aXaYa") (lit "a") 0 2
                   [{| line := 0; pos := 0 |}]).
  rewrite scanLine_aXaYa_stuck. reflexivity.
Qed.

(** ** The file catalog *)

Lemma walk_cancelled (Walk : str -> list walkEntry) (ctx : context)
      (dir e : str) :
  Walk dir <> [] -> ctx 0%nat = Some e ->
  loadJSONFilesWithContext Walk ctx dir
  = inr (lit "error walking directory " ++ dir ++ lit ": " ++ e).
Proof.
  intros Hw Hc. unfold loadJSONFilesWithContext.
  destruct (Walk dir) as [|x rest]; [contradiction|].
  simpl. rewrite Hc. reflexivity.
Qed.




(** ** The matcher finds matches *)

Section MatcherSound.

Variable s : str.
Variable R : Type.

Lemma starLoop_sound (g : bool) (a : regex)
      (step : nat -> caps -> (nat -> caps -> option R) -> option R)
      (k : nat -> caps -> option R) :
  (forall i c k' res,
      step i c k' = Some res ->
      exists j c', sem s a i c j c' /\ k' j c' = Some res) ->
  forall n i c res,
    starLoop R step g k n i c = Some res ->
    exists j c', sem s (Star g a) i c j c' /\ k j c' = Some res.
Proof.
  intros Hstep. induction n as [|n IHn]; intros i c res H; simpl in H.
  - exists i, c. split; [apply sem_star_stop | exact H].
  - assert (Hmore : forall res',
               step i c (fun j c' =>
                           if (i <? j)%nat then starLoop R step g k n j c'
                           else None) = Some res' ->
               exists j c', sem s (Star g a) i c j c' /\ k j c' = Some res').
    { intros res' E. apply Hstep in E. destruct E as [j [c' [Ha E]]].
      destruct (i <? j)%nat eqn:Elt; [|discriminate].
      apply Nat.ltb_lt in Elt.
      apply IHn in E. destruct E as [j' [c'' [Hs E]]].
      exists j', c''. split; [|exact E].
      eapply sem_star_more; eauto. }
    destruct g.
    + destruct (step i c _) as [res'|].
      * injection H as <-. apply Hmore. reflexivity.
      * exists i, c. split; [apply sem_star_stop | exact H].
    + destruct (k i c) as [res'|] eqn:E.
      * injection H as <-. exists i, c.
        split; [apply sem_star_stop | exact E].
      * apply Hmore. exact H.
Qed.

Lemma run_sound (r : regex) :
  forall i c (k : nat -> caps -> option R) res,
    run s R r i c k = Some res ->
    exists j c', sem s r i c j c' /\ k j c' = Some res.
Proof.
  induction r as [|p|a IHa b IHb|a IHa b IHb|g a IHa|n a IHa|];
    intros i c k res H.
  - exists i, c. split; [constructor | exact H].
  - simpl in H. destruct (nth_error s i) as [x|] eqn:E; [|discriminate].
    destruct (p x) eqn:Ep; [|discriminate].
    exists (S i), c. split; [econstructor; eauto | exact H].
  - simpl in H. apply IHa in H. destruct H as [j [c' [Ha H]]].
    apply IHb in H. destruct H as [j' [c'' [Hb H]]].
    exists j', c''. split; [econstructor; eauto | exact H].
  - simpl in H. destruct (run s R a i c k) as [res'|] eqn:E.
    + injection H as <-. apply IHa in E. destruct E as [j [c' [Ha E]]].
      exists j, c'. split; [apply sem_alt_l; exact Ha | exact E].
    + apply IHb in H. destruct H as [j [c' [Hb H]]].
      exists j, c'. split; [apply sem_alt_r; exact Hb | exact H].
  - change (starLoop R (run s R a) g k (S (List.length s - i)) i c
            = Some res) in H.
    revert H. apply starLoop_sound. exact IHa.
  - simpl in H. apply IHa in H. destruct H as [j [c' [Ha H]]].
    exists j, (setCap n (i, j) c'). split; [constructor; exact Ha | exact H].
  - simpl in H. destruct (wordBoundary s i) eqn:E; [|discriminate].
    exists i, c. split; [constructor; exact E | exact H].
Qed.

End MatcherSound.

Section SemFacts.

Variable s : str.

Lemma sem_bounds r i c j c' :
  sem s r i c j c' ->
  (i <= j)%nat /\ ((i <= List.length s)%nat -> (j <= List.length s)%nat).
Proof.
  induction 1; try (split; lia).
  assert (i < List.length s)%nat by (apply nth_error_Some; congruence).
  lia.
Qed.

Lemma sem_minLen r i c j c' :
  sem s r i c j c' -> (i + minLen r <= j)%nat.
Proof.
  induction 1; simpl; lia.
Qed.

End SemFacts.

Lemma matchAt_sound (re : regex) (s : str) (i : nat) (m : matchT) :
  matchAt re s i = Some m ->
  exists a1 c, m = (i, a1, c) /\ sem s re i noCaps a1 c.
Proof.
  unfold matchAt. intros H. apply run_sound in H.
  destruct H as [j [c' [Hs H]]]. injection H as <-. eauto.
Qed.

Lemma scanFrom_sound (re : regex) (s : str) (n : nat) :
  forall i m,
    scanFrom re s n i = Some m ->
    exists a0 a1 c,
      m = (a0, a1, c) /\ (i <= a0 <= i + n)%nat /\ sem s re a0 noCaps a1 c.
Proof.
  induction n as [|n IH]; intros i m H; simpl in H.
  - destruct (matchAt re s i) eqn:E; [|discriminate]. injection H as <-.
    apply matchAt_sound in E. destruct E as [a1 [c [-> Hs]]].
    exists i, a1, c. repeat split; auto; lia.
  - destruct (matchAt re s i) eqn:E.
    + injection H as <-.
      apply matchAt_sound in E. destruct E as [a1 [c [-> Hs]]].
      exists i, a1, c. repeat split; auto; lia.
    + apply IH in H. destruct H as [a0 [a1 [c [-> [Hb Hs]]]]].
      exists a0, a1, c. repeat split; auto; lia.
Qed.

Lemma doExecute_sound (re : regex) (s : str) (pos : nat) (m : matchT) :
  (pos <= List.length s)%nat ->
  doExecute re s pos = Some m ->
  exists a0 a1 c,
    m = (a0, a1, c) /\ (pos <= a0 <= a1)%nat /\ (a1 <= List.length s)%nat
    /\ sem s re a0 noCaps a1 c.
Proof.
  intros Hp H. apply scanFrom_sound in H.
  destruct H as [a0 [a1 [c [-> [Hb Hs]]]]].
  pose proof (sem_bounds _ _ _ _ _ _ Hs) as [B1 B2].
  exists a0, a1, c. repeat split; auto; try lia.
Qed.

(** ** Substrings *)

Lemma firstn_plus {A} (n m : nat) (l : list A) :
  firstn (n + m) l = firstn n l ++ firstn m (skipn n l).
Proof.
  revert l. induction n as [|n IH]; intros l; [reflexivity|].
  destruct l as [|x l]; simpl.
  - rewrite firstn_nil. reflexivity.
  - rewrite IH. reflexivity.
Qed.

Lemma skipn_plus {A} (n m : nat) (l : list A) :
  skipn (n + m) l = skipn m (skipn n l).
Proof.
  revert l. induction n as [|n IH]; intros l; [reflexivity|].
  destruct l as [|x l]; simpl.
  - rewrite skipn_nil. reflexivity.
  - apply IH.
Qed.

Lemma sub_split (s : str) (i j k : nat) :
  (i <= j <= k)%nat -> sub s i k = sub s i j ++ sub s j k.
Proof.
  intros H. unfold sub.
  replace (k - i)%nat with ((j - i) + (k - j))%nat by lia.
  rewrite firstn_plus. f_equal. f_equal.
  rewrite <- skipn_plus. f_equal. lia.
Qed.

Lemma sub_from_zero (s : str) (k : nat) : sub s 0 k = firstn k s.
Proof. unfold sub. rewrite Nat.sub_0_r. reflexivity. Qed.

Lemma sub_empty (s : str) (i : nat) : sub s i i = [].
Proof. unfold sub. rewrite Nat.sub_diag. reflexivity. Qed.

Lemma sub_one (s : str) (i : nat) (a : ascii) :
  nth_error s i = Some a -> sub s i (S i) = [a].
Proof.
  unfold sub. replace (S i - i)%nat with 1%nat by lia.
  revert i. induction s as [|x s IH]; intros [|i] H; simpl in *;
    try discriminate.
  - injection H as ->. reflexivity.
  - apply IH. exact H.
Qed.

Lemma sub_length (s : str) (i j : nat) :
  (i <= j <= List.length s)%nat -> List.length (sub s i j) = (j - i)%nat.
Proof.
  intros H. unfold sub. rewrite length_firstn, length_skipn. lia.
Qed.

Lemma sub_all (s : str) : sub s 0 (List.length s) = s.
Proof. rewrite sub_from_zero. apply firstn_all. Qed.

(** ** Insertion of directive tokens *)

Lemma inserted_trans (x y z : str) :
  inserted x y -> inserted y z -> inserted x z.
Proof.
  induction 1 as [x | a t b y Ht Hi IH]; intros Hz; [exact Hz|].
  eapply inserted_step; [exact Ht | exact (IH Hz)].
Qed.

Lemma inserted_one (a t b : str) :
  In t directives -> inserted (a ++ b) (a ++ t ++ b).
Proof.
  intros Ht. eapply inserted_step; [exact Ht | apply inserted_refl].
Qed.

Lemma inserted_app_l (p x y : str) :
  inserted x y -> inserted (p ++ x) (p ++ y).
Proof.
  induction 1 as [x | a t b y Ht Hi IH]; [apply inserted_refl|].
  rewrite app_assoc. eapply inserted_step; [exact Ht|].
  rewrite <- app_assoc. exact IH.
Qed.

Lemma inserted_app_r (q x y : str) :
  inserted x y -> inserted (x ++ q) (y ++ q).
Proof.
  induction 1 as [x | a t b y Ht Hi IH]; [apply inserted_refl|].
  rewrite <- app_assoc. eapply inserted_step; [exact Ht|].
  rewrite <- !app_assoc in IH. exact IH.
Qed.

Lemma inserted_app (a a' b b' : str) :
  inserted a a' -> inserted b b' -> inserted (a ++ b) (a' ++ b').
Proof.
  intros Ha Hb. eapply inserted_trans.
  - apply inserted_app_r. exact Ha.
  - apply inserted_app_l. exact Hb.
Qed.

(** A token in front, and a token behind. *)
Lemma inserted_wrap (t1 t2 x : str) :
  In t1 directives -> In t2 directives -> inserted x (t1 ++ x ++ t2).
Proof.
  intros H1 H2. eapply inserted_trans.
  - apply (inserted_one [] t1 x H1).
  - simpl. rewrite <- (app_nil_r (t1 ++ x)) at 1. rewrite <- app_assoc.
    replace (t1 ++ x ++ t2) with (t1 ++ x ++ t2 ++ []) by
      (rewrite app_nil_r; reflexivity).
    apply inserted_app_l. apply inserted_app_l.
    apply (inserted_one [] t2 [] H2).
Qed.

Lemma blanks_app (a b : str) : blanks (a ++ b) = (blanks a + blanks b)%nat.
Proof. apply count_occ_app. Qed.

Lemma inserted_blanks (x y : str) : inserted x y -> blanks x = blanks y.
Proof.
  induction 1 as [x | a t b y Ht Hi IH]; [reflexivity|].
  rewrite <- IH, !blanks_app.
  assert (blanks t = 0%nat); [|lia].
  simpl in Ht.
  repeat (destruct Ht as [<- | Ht]; [reflexivity|]). contradiction.
Qed.

(** ** [replaceAll] *)

Section ReplaceAll.

Variables (re : regex) (src : str) (repl : matchT -> outcome str).

Lemma replacedLoop_matches (fuel : nat) :
  forall last pos,
    Forall (isMatch re src) (replacedLoop re src fuel last pos).
Proof.
  induction fuel as [|fuel IH]; intros last pos; simpl; [constructor|].
  destruct (List.length src <? pos)%nat eqn:E; [constructor|].
  apply Nat.ltb_ge in E.
  destruct (doExecute re src pos) as [[[a0 a1] c]|] eqn:Ex; [|constructor].
  apply doExecute_sound in Ex; [|exact E].
  destruct Ex as [b0 [b1 [c' [Heq [Hb [Hl Hs]]]]]].
  injection Heq as -> -> ->.
  apply Forall_app. split; [|apply IH].
  destruct ((last <? b1)%nat || (b0 =? 0)%nat); constructor;
    [split; assumption | constructor].
Qed.

(** What [repl] must do on the matches it is given, for the result to
    be the source with tokens inserted. *)
Variable Q : matchT -> Prop.
Hypothesis repl_inserts :
  forall a0 a1 c,
    Q (a0, a1, c) -> isMatch re src (a0, a1, c) ->
    exists r, repl (a0, a1, c) = Returns r /\ inserted (sub src a0 a1) r.

Lemma replaceLoop_inserted (fuel : nat) :
  forall last pos buf,
    (last <= pos <= S (List.length src))%nat ->
    (List.length src + 2 <= fuel + pos)%nat ->
    Forall Q (replacedLoop re src fuel last pos) ->
    inserted (firstn last src) buf ->
    exists y,
      replaceLoop re src repl fuel last pos buf = Returns y
      /\ inserted src y.
Proof.
  induction fuel as [|fuel IH]; intros last pos buf Hpos Hfuel HQ Hbuf;
    [lia|].
  assert (Hend : inserted src (buf ++ skipn last src)).
  { rewrite <- (firstn_skipn last src) at 1.
    apply inserted_app_r. exact Hbuf. }
  simpl. simpl in HQ.
  destruct (List.length src <? pos)%nat eqn:E; [eauto|].
  apply Nat.ltb_ge in E.
  destruct (doExecute re src pos) as [[[a0 a1] c]|] eqn:Ex; [|eauto].
  destruct (doExecute_sound _ _ _ _ E Ex)
    as [b0 [b1 [c' [Heq [Hb [Hl Hs]]]]]].
  injection Heq as <- <- <-.
  apply Forall_app in HQ. destruct HQ as [HQ1 HQ2].
  set (pos' := if (a1 <? pos + (if (pos <? List.length src)%nat
                                then 1 else 0))%nat
               then (pos + (if (pos <? List.length src)%nat
                            then 1 else 0))%nat
               else if (a1 <? pos + 1)%nat then (pos + 1)%nat else a1)
    in *.
  assert (Hpos' : (a1 <= pos' /\ pos < pos' /\ pos' <= S (List.length src))%nat).
  { unfold pos'. destruct (pos <? List.length src)%nat eqn:E1.
    - apply Nat.ltb_lt in E1.
      destruct (a1 <? pos + 1)%nat eqn:E2;
        [apply Nat.ltb_lt in E2 | apply Nat.ltb_ge in E2]; lia.
    - apply Nat.ltb_ge in E1.
      destruct (a1 <? pos + 0)%nat eqn:E2;
        [apply Nat.ltb_lt in E2; lia|].
      destruct (a1 <? pos + 1)%nat eqn:E3;
        [apply Nat.ltb_lt in E3 | apply Nat.ltb_ge in E3]; lia. }
  assert (Hr : exists r,
             (if (last <? a1)%nat || (a0 =? 0)%nat
              then repl (a0, a1, c) else Returns []) = Returns r
             /\ inserted (sub src a0 a1) r).
  { destruct ((last <? a1)%nat || (a0 =? 0)%nat) eqn:Ec.
    - apply repl_inserts; [|split; assumption].
      inversion HQ1; assumption.
    - exists []. split; [reflexivity|].
      apply orb_false_iff in Ec. destruct Ec as [Ec _].
      apply Nat.ltb_ge in Ec.
      replace a1 with a0 by lia. rewrite sub_empty. apply inserted_refl. }
  destruct Hr as [r [Hr Hins]]. rewrite Hr. simpl.
  apply IH; [lia | lia | exact HQ2 |].
  rewrite <- sub_from_zero.
  rewrite (sub_split src 0 last a1) by lia.
  rewrite (sub_split src last a0 a1) by lia.
  rewrite sub_from_zero, <- app_assoc.
  apply inserted_app; [exact Hbuf|].
  apply inserted_app_l. exact Hins.
Qed.

Lemma replaceAll_inserted :
  Forall Q (replaced re src) ->
  exists y, replaceAll re src repl = Returns y /\ inserted src y.
Proof.
  intros HQ. unfold replaceAll.
  apply replaceLoop_inserted; [lia | lia | exact HQ | apply inserted_refl].
Qed.

End ReplaceAll.

(** ** Go slices of a string *)

Lemma slice_ok (s : str) (lo hi : Z) :
  0 <= lo <= hi -> hi <= len s ->
  slice s lo hi = Returns (sub s (Z.to_nat lo) (Z.to_nat hi)).
Proof.
  intros H Hl. unfold slice.
  replace ((0 <=? lo) && (lo <=? hi) && (hi <=? len s)) with true
    by (symmetry; rewrite !andb_true_iff, !Z.leb_le; lia).
  unfold sub. do 3 f_equal. lia.
Qed.

(** The closure of the string pass: defined on three characters or more,
    and then it only inserts. *)
Lemma wrap_inner_inserted (s t1 t2 : str) :
  In t1 directives -> In t2 directives ->
  (3 <= List.length s)%nat ->
  exists r,
    (colonIndex <- sliceTo s 2 ;;
     body <- slice s 2 (len s - 1) ;;
     last <- sliceFrom s (len s - 1) ;;
     Returns (colonIndex ++ t1 ++ body ++ t2 ++ last)) = Returns r
    /\ inserted s r.
Proof.
  intros H1 H2 Hl. set (n := List.length s).
  assert (Hn : len s = Z.of_nat n) by reflexivity.
  unfold sliceTo, sliceFrom.
  rewrite (slice_ok s 0 2) by lia.
  rewrite (slice_ok s 2 (len s - 1)) by lia.
  rewrite (slice_ok s (len s - 1) (len s)) by lia.
  replace (Z.to_nat (len s - 1)) with (n - 1)%nat by lia.
  replace (Z.to_nat (len s)) with n by lia.
  change (Z.to_nat 0) with 0%nat. change (Z.to_nat 2) with 2%nat.
  simpl. eexists. split; [reflexivity|].
  rewrite <- (sub_all s) at 1. fold n.
  rewrite (sub_split s 0 2 n) by lia.
  rewrite (sub_split s 2 (n - 1) n) by lia.
  apply inserted_app_l.
  replace (t1 ++ sub s 2 (n - 1) ++ t2 ++ sub s (n - 1) n)
    with ((t1 ++ sub s 2 (n - 1) ++ t2) ++ sub s (n - 1) n)
    by (rewrite <- !app_assoc; reflexivity).
  apply inserted_app_r. apply inserted_wrap; assumption.
Qed.

(** The closure of the number pass and of the null pass. *)
Lemma wrap_tail_inserted (s t1 t2 : str) :
  In t1 directives -> In t2 directives ->
  (2 <= List.length s)%nat ->
  exists r,
    (head <- sliceTo s 2 ;;
     tail <- sliceFrom s 2 ;;
     Returns (head ++ t1 ++ tail ++ t2)) = Returns r
    /\ inserted s r.
Proof.
  intros H1 H2 Hl. set (n := List.length s).
  assert (Hn : len s = Z.of_nat n) by reflexivity.
  unfold sliceTo, sliceFrom.
  rewrite (slice_ok s 0 2) by lia.
  rewrite (slice_ok s 2 (len s)) by lia.
  replace (Z.to_nat (len s)) with n by lia.
  change (Z.to_nat 0) with 0%nat. change (Z.to_nat 2) with 2%nat.
  simpl. eexists. split; [reflexivity|].
  rewrite <- (sub_all s) at 1. fold n.
  rewrite (sub_split s 0 2 n) by lia.
  apply inserted_app_l. apply inserted_wrap; assumption.
Qed.

Lemma isMatch_length (re : regex) (s : str) (a0 a1 : nat) (c : caps) :
  isMatch re s (a0, a1, c) ->
  (a0 <= a1 <= List.length s)%nat
  /\ (minLen re <= List.length (sub s a0 a1))%nat.
Proof.
  intros [Hs Hl]. pose proof (sem_minLen _ _ _ _ _ _ Hs).
  pose proof (sem_bounds _ _ _ _ _ _ Hs) as [Hb _].
  split; [lia|]. rewrite sub_length by lia. lia.
Qed.

Lemma Forall_trivial {A} (l : list A) : Forall (fun _ => True) l.
Proof. apply Forall_forall. intros; exact I. Qed.

(** ** The passes that never fail and only insert *)

Lemma stringPass_inserted (x : str) :
  exists y, stringPass x = Returns y /\ inserted x y.
Proof.
  unfold stringPass, ReplaceAllStringFunc.
  apply replaceAll_inserted with (Q := fun _ => True);
    [|apply Forall_trivial].
  intros a0 a1 c _ Hm. apply isMatch_length in Hm. destruct Hm as [_ Hm].
  apply wrap_inner_inserted; simpl; auto 10.
Qed.

Lemma numberPass_inserted (x : str) :
  exists y, numberPass x = Returns y /\ inserted x y.
Proof.
  unfold numberPass, ReplaceAllStringFunc.
  apply replaceAll_inserted with (Q := fun _ => True);
    [|apply Forall_trivial].
  intros a0 a1 c _ Hm. apply isMatch_length in Hm. destruct Hm as [_ Hm].
  apply wrap_tail_inserted; simpl; auto 10.
  simpl in Hm. lia.
Qed.

Lemma nullPass_inserted (x : str) :
  exists y, nullPass x = Returns y /\ inserted x y.
Proof.
  unfold nullPass, ReplaceAllStringFunc.
  apply replaceAll_inserted with (Q := fun _ => True);
    [|apply Forall_trivial].
  intros a0 a1 c _ Hm. apply isMatch_length in Hm. destruct Hm as [_ Hm].
  apply wrap_tail_inserted; simpl; auto 10.
  simpl in Hm. lia.
Qed.

Lemma booleanPass_inserted (x : str) :
  exists y, booleanPass x = Returns y /\ inserted x y.
Proof.
  unfold booleanPass, ReplaceAllStringFunc.
  apply replaceAll_inserted with (Q := fun _ => True);
    [|apply Forall_trivial].
  intros a0 a1 c _ _. eexists. split; [reflexivity|].
  apply inserted_wrap; simpl; auto 10.
Qed.

Lemma arrayNumberPass_inserted (x : str) :
  exists y, arrayNumberPass x = Returns y /\ inserted x y.
Proof.
  unfold arrayNumberPass, ReplaceAllStringFunc.
  apply replaceAll_inserted with (Q := fun _ => True);
    [|apply Forall_trivial].
  intros a0 a1 c _ _.
  apply replaceAll_inserted with (Q := fun _ => True);
    [|apply Forall_trivial].
  intros b0 b1 d _ _. eexists. split; [reflexivity|].
  apply inserted_wrap; simpl; auto 10.
Qed.

(** ** The shape of a match of the key pattern and of the quote pattern *)

Section Shapes.

Variable s : str.

Lemma sem_seq_inv a b i c k c'' :
  sem s (Seq a b) i c k c'' ->
  exists j c', sem s a i c j c' /\ sem s b j c' k c''.
Proof. inversion 1; subst; eauto. Qed.

Lemma sem_chr_inv p i c j c' :
  sem s (Chr p) i c j c' ->
  j = S i /\ c' = c /\ exists a, nth_error s i = Some a /\ p a = true.
Proof. inversion 1; subst; eauto. Qed.

Lemma sem_group_inv n a i c j c' :
  sem s (Group n a) i c j c' ->
  exists c0, sem s a i c j c0 /\ c' = setCap n (i, j) c0.
Proof. inversion 1; subst; eauto. Qed.

Lemma sem_C_inv x i c j c' :
  sem s (C x) i c j c' -> j = S i /\ c' = c /\ sub s i (S i) = [x].
Proof.
  intros H. apply sem_chr_inv in H. destruct H as [-> [-> [a [Hn Ha]]]].
  unfold isChar in Ha. apply Ascii.eqb_eq in Ha. subst a.
  repeat split. apply sub_one. exact Hn.
Qed.

(** A star over a character class spans characters of the class and
    leaves the captures alone. *)
Lemma sem_star_chr g p i c j c' :
  sem s (Star g (Chr p)) i c j c' ->
  c' = c /\ (i <= j)%nat /\ Forall (fun a => p a = true) (sub s i j).
Proof.
  intros H. remember (Star g (Chr p)) as r eqn:Er.
  induction H as [| | | | | g' a i c | g' a i c j c' k c'' Ha _ Hlt Hs IH | |];
    try discriminate.
  - rewrite sub_empty. repeat split; [lia | constructor].
  - injection Er as -> ->.
    apply sem_chr_inv in Ha. destruct Ha as [-> [-> [x [Hn Hx]]]].
    destruct (IH eq_refl) as [-> [Hle Hf]].
    repeat split; [lia|].
    rewrite (sub_split s i (S i) k) by lia.
    rewrite (sub_one _ _ _ Hn). constructor; assumption.
Qed.

Lemma sem_plus_chr p i c j c' :
  sem s (Plus (Chr p)) i c j c' -> c' = c /\ (i < j)%nat.
Proof.
  intros H. apply sem_seq_inv in H. destruct H as [j1 [c1 [H1 H2]]].
  apply sem_chr_inv in H1. destruct H1 as [-> [-> _]].
  apply sem_star_chr in H2. destruct H2 as [-> [Hle _]]. split; [reflexivity | lia].
Qed.

(** A key match: a quote, the captured name, a quote, a colon, blanks. *)
Lemma keyRegex_shape a0 a1 c :
  sem s keyRegex a0 noCaps a1 c ->
  exists j w,
    c 1%nat = Some (S a0, j)
    /\ sub s a0 a1 = [dq] ++ sub s (S a0) j ++ [dq] ++ [":"%char] ++ w
    /\ Forall (fun a => isSpace a = true) w.
Proof.
  intros H. unfold keyRegex in H.
  apply sem_seq_inv in H. destruct H as [j1 [c1 [H1 H]]].
  apply sem_C_inv in H1. destruct H1 as [-> [-> Hq1]].
  apply sem_seq_inv in H. destruct H as [j2 [c2 [H2 H]]].
  apply sem_group_inv in H2. destruct H2 as [c0 [H2 ->]].
  apply sem_plus_chr in H2. destruct H2 as [-> Hlt].
  apply sem_seq_inv in H. destruct H as [j3 [c3 [H3 H]]].
  apply sem_C_inv in H3. destruct H3 as [-> [-> Hq2]].
  apply sem_seq_inv in H. destruct H as [j4 [c4 [H4 H]]].
  apply sem_C_inv in H4. destruct H4 as [-> [-> Hco]].
  apply sem_star_chr in H. destruct H as [-> [Hle Hw]].
  exists j2, (sub s (S (S j2)) a1). repeat split; [|exact Hw].
  rewrite (sub_split s a0 (S a0) a1) by lia. rewrite Hq1.
  rewrite (sub_split s (S a0) j2 a1) by lia.
  rewrite (sub_split s j2 (S j2) a1) by lia. rewrite Hq2.
  rewrite (sub_split s (S j2) (S (S j2)) a1) by lia. rewrite Hco.
  reflexivity.
Qed.

(** A quote match: a quote, the captured text, a quote. *)
Lemma quotedRegex_shape a0 a1 c :
  sem s quotedRegex a0 noCaps a1 c ->
  exists j,
    c 1%nat = Some (S a0, j)
    /\ sub s a0 a1 = [dq] ++ sub s (S a0) j ++ [dq].
Proof.
  intros H. unfold quotedRegex in H.
  apply sem_seq_inv in H. destruct H as [j1 [c1 [H1 H]]].
  apply sem_C_inv in H1. destruct H1 as [-> [-> Hq1]].
  apply sem_seq_inv in H. destruct H as [j2 [c2 [H2 H]]].
  apply sem_group_inv in H2. destruct H2 as [c0 [H2 ->]].
  apply sem_star_chr in H2. destruct H2 as [-> [Hle _]].
  apply sem_C_inv in H. destruct H as [-> [-> Hq2]].
  exists j2. split; [reflexivity|].
  rewrite (sub_split s a0 (S a0) (S j2)) by lia. rewrite Hq1.
  rewrite (sub_split s (S a0) j2 (S j2)) by lia. rewrite Hq2.
  reflexivity.
Qed.

End Shapes.

(** ** The two templates *)

Lemma expand_keyTemplate (src : str) (a0 a1 i j : nat) (c : caps) :
  c 1%nat = Some (i, j) ->
  expand keyTemplate src (a0, a1, c)
  = keyColor ++ ([dq] ++ sub src i j ++ [dq]) ++ resetColor ++ lit ": ".
Proof.
  intros Hc. unfold expand.
  let items := eval vm_compute in (parseTemplate keyTemplate None) in
  change (parseTemplate keyTemplate None) with items.
  cbn [flat_map expandItem app].
  change (groupNumber ["1"%char]) with (Some 1%nat). cbv beta iota.
  change (setCap 0 (a0, a1) c 1%nat) with (c 1%nat). rewrite Hc.
  rewrite <- app_assoc. reflexivity.
Qed.

Lemma expand_arrayStringTemplate (src : str) (a0 a1 i j : nat) (c : caps) :
  c 1%nat = Some (i, j) ->
  expand arrayStringTemplate src (a0, a1, c)
  = arrayStringColor ++ ([dq] ++ sub src i j ++ [dq]) ++ resetColor.
Proof.
  intros Hc. unfold expand.
  let items := eval vm_compute in (parseTemplate arrayStringTemplate None) in
  change (parseTemplate arrayStringTemplate None) with items.
  cbn [flat_map expandItem app].
  change (groupNumber ["1"%char]) with (Some 1%nat). cbv beta iota.
  change (setCap 0 (a0, a1) c 1%nat) with (c 1%nat). rewrite Hc.
  rewrite <- app_assoc. reflexivity.
Qed.

(** ** The key pass and the array-string pass *)

Lemma ends_colon_space (pre w : str) :
  Forall (fun a => isSpace a = true) w ->
  endsColonSpace (pre ++ [":"%char] ++ w) = true ->
  w = [" "%char].
Proof.
  intros Hw H. unfold endsColonSpace in H.
  assert (E : rev (pre ++ [":"%char] ++ w) = rev w ++ ":"%char :: rev pre).
  { rewrite !rev_app_distr. simpl. rewrite <- app_assoc. reflexivity. }
  rewrite E in H. clear E.
  rewrite <- (rev_involutive w) in Hw |- *.
  destruct (rev w) as [|x [|y r]]; simpl in *.
  - destruct (rev pre); simpl in H; discriminate.
  - apply andb_true_iff in H. destruct H as [H _].
    apply Ascii.eqb_eq in H. subst x. reflexivity.
  - apply andb_true_iff in H. destruct H as [_ H].
    apply Ascii.eqb_eq in H. subst y.
    rewrite Forall_app in Hw. destruct Hw as [Hw _].
    rewrite Forall_app in Hw. destruct Hw as [_ Hw].
    inversion Hw as [|? ? Hc _]. discriminate Hc.
Qed.

Lemma keyPass_inserted (x : str) :
  keysSpaced x = true ->
  exists y, keyPass x = Returns y /\ inserted x y.
Proof.
  intros Hk. unfold keyPass, ReplaceAllString.
  apply replaceAll_inserted
    with (Q := fun m : matchT => let '(a0, a1, _) := m in
                                 endsColonSpace (sub x a0 a1) = true).
  - intros a0 a1 c Hq [Hs _].
    destruct (keyRegex_shape x a0 a1 c Hs) as [j [w [Hc [Hsub Hw]]]].
    eexists. split; [reflexivity|].
    rewrite (expand_keyTemplate x a0 a1 (S a0) j c Hc).
    rewrite Hsub in Hq |- *.
    assert (w = [" "%char]).
    { apply (ends_colon_space ([dq] ++ sub x (S a0) j ++ [dq]) w Hw).
      rewrite <- !app_assoc. exact Hq. }
    subst w.
    replace ([dq] ++ sub x (S a0) j ++ [dq] ++ [":"%char] ++ [" "%char])
      with (([dq] ++ sub x (S a0) j ++ [dq]) ++ lit ": ")
      by (rewrite <- !app_assoc; reflexivity).
    replace (keyColor ++ ([dq] ++ sub x (S a0) j ++ [dq])
                      ++ resetColor ++ lit ": ")
      with ((keyColor ++ ([dq] ++ sub x (S a0) j ++ [dq]) ++ resetColor)
              ++ lit ": ")
      by (rewrite <- !app_assoc; reflexivity).
    apply inserted_app_r. apply inserted_wrap; simpl; auto 10.
  - apply Forall_forall. intros [[a0 a1] c] Hin.
    unfold keysSpaced in Hk. rewrite forallb_forall in Hk.
    exact (Hk _ Hin).
Qed.

Lemma arrayStringPass_inserted (x : str) :
  exists y, arrayStringPass x = Returns y /\ inserted x y.
Proof.
  unfold arrayStringPass, ReplaceAllStringFunc.
  apply replaceAll_inserted with (Q := fun _ => True);
    [|apply Forall_trivial].
  intros a0 a1 c _ _. unfold ReplaceAllString.
  set (s := sub x a0 a1).
  apply replaceAll_inserted with (Q := fun _ => True);
    [|apply Forall_trivial].
  intros b0 b1 d _ [Hs _].
  destruct (quotedRegex_shape s b0 b1 d Hs) as [j [Hd Hsub]].
  eexists. split; [reflexivity|].
  rewrite (expand_arrayStringTemplate s b0 b1 (S b0) j d Hd).
  rewrite Hsub. apply inserted_wrap; simpl; auto 10.
Qed.

(** ** The colorizer *)

(** C1, as the code has it: when every match that the key pass rewrites
    ends in a colon and exactly one blank (as each key of pretty-printed
    JSON does), [colorizeJSON] returns, and what it returns is the input
    with directive tokens inserted: no character of the input is deleted,
    replaced or moved.  Passes two to seven only insert on every input;
    the key pass writes a colon and one blank for the colon and the blanks
    it matched. *)
Theorem colorizeJSON_inserts_only (x : str) :
  keysSpaced x = true ->
  exists y, colorizeJSON x = Returns y /\ inserted x y.
Proof.
  intros Hk. unfold colorizeJSON.
  destruct (keyPass_inserted x Hk) as [x1 [E1 I1]]. rewrite E1. simpl.
  destruct (stringPass_inserted x1) as [x2 [E2 I2]]. rewrite E2. simpl.
  destruct (arrayStringPass_inserted x2) as [x3 [E3 I3]]. rewrite E3. simpl.
  destruct (numberPass_inserted x3) as [x4 [E4 I4]]. rewrite E4. simpl.
  destruct (arrayNumberPass_inserted x4) as [x5 [E5 I5]]. rewrite E5. simpl.
  destruct (booleanPass_inserted x5) as [x6 [E6 I6]]. rewrite E6. simpl.
  destruct (nullPass_inserted x6) as [x7 [E7 I7]].
  exists x7. split; [exact E7|].
  repeat (eapply inserted_trans; [eassumption|]). apply inserted_refl.
Qed.

Lemma colorizeJSON_inserts_only_witness :
  exists y, colorizeJSON (MarshalIndent claimObject) = Returns y
            /\ inserted (MarshalIndent claimObject) y.
Proof.
  apply (colorizeJSON_inserts_only (MarshalIndent claimObject)).
  vm_compute. reflexivity.
Defined.

(** C1, as stated, fails: the text of [quoteObject] is pretty-printed
    JSON; the key pattern matches inside its string value, from the
    opening quote to the two blanks behind the escaped quote and the
    colon, and the key pass writes one blank for the two.  The result has
    a blank less than the input: stripping the tokens cannot give the
    input back. *)
Lemma colorizeJSON_drops_a_blank :
  MarshalIndent quoteObject = quoteText
  /\ colorizeJSON quoteText = Returns quoteColored
  /\ stripDirectives quoteColored <> quoteText
  /\ blanks quoteText = 5%nat /\ blanks quoteColored = 4%nat
  /\ ~ inserted quoteText quoteColored.
Proof.
  split; [vm_compute; reflexivity|].
  split; [vm_compute; reflexivity|].
  split; [vm_compute; discriminate|].
  split; [vm_compute; reflexivity|].
  split; [vm_compute; reflexivity|].
  intros H. apply inserted_blanks in H. vm_compute in H. discriminate H.
Qed.

(** C4, on the code: the object of the claim, pretty-printed, is
    [claimText], and [colorizeJSON] turns it into [claimColored].  The six
    keys, [true], [null], the two array strings and the three array
    numbers each stand between their color token and the reset token.
    The string value does not: the reset token comes before its closing
    quote.  Nor does the number value: the comma behind it is inside the
    colored span. *)
Theorem colorizeJSON_claim_object :
  MarshalIndent claimObject = claimText
  /\ colorizeJSON claimText = Returns claimColored
  /\ forallb (contains claimColored)
       [keyColor ++ jlit "'a'" ++ resetColor;
        keyColor ++ jlit "'n'" ++ resetColor;
        keyColor ++ jlit "'t'" ++ resetColor;
        keyColor ++ jlit "'z'" ++ resetColor;
        keyColor ++ jlit "'arr'" ++ resetColor;
        keyColor ++ jlit "'nums'" ++ resetColor;
        booleanColor ++ lit "true" ++ resetColor;
        nullColor ++ lit "null" ++ resetColor;
        arrayStringColor ++ jlit "'x'" ++ resetColor;
        arrayStringColor ++ jlit "'y'" ++ resetColor;
        arrayNumberColor ++ lit "1" ++ resetColor;
        arrayNumberColor ++ lit "2" ++ resetColor;
        arrayNumberColor ++ lit "3" ++ resetColor] = true
  /\ contains claimColored (stringColor ++ jlit "'b'" ++ resetColor) = false
  /\ contains claimColored (stringColor ++ jlit "'b" ++ resetColor ++ [dq])
     = true
  /\ contains claimColored (lit ": " ++ numberColor ++ lit "1" ++ resetColor)
     = false
  /\ contains claimColored (lit ": " ++ numberColor ++ lit "1," ++ resetColor)
     = true.
Proof.
  repeat split; vm_compute; reflexivity.
Qed.

(* ================================================================== *)
(** * Further properties of the code *)

(** ** [replaceAll] under any relation that concatenation respects *)

Section ReplaceAllRelated.

Variables (re : regex) (src : str) (repl : matchT -> outcome str).
Variable P : str -> str -> Prop.
Hypothesis P_refl : forall x, P x x.
Hypothesis P_app : forall a a' b b', P a a' -> P b b' -> P (a ++ b) (a' ++ b').
Hypothesis repl_related :
  forall a0 a1 c,
    isMatch re src (a0, a1, c) ->
    exists r, repl (a0, a1, c) = Returns r /\ P (sub src a0 a1) r.

Lemma replaceLoop_related (fuel : nat) :
  forall last pos buf,
    (last <= pos <= S (List.length src))%nat ->
    (List.length src + 2 <= fuel + pos)%nat ->
    P (firstn last src) buf ->
    exists y,
      replaceLoop re src repl fuel last pos buf = Returns y /\ P src y.
Proof.
  induction fuel as [|fuel IH]; intros last pos buf Hpos Hfuel Hbuf; [lia|].
  assert (Hend : P src (buf ++ skipn last src)).
  { rewrite <- (firstn_skipn last src) at 1.
    apply P_app; [exact Hbuf | apply P_refl]. }
  simpl.
  destruct (List.length src <? pos)%nat eqn:E; [eauto|].
  apply Nat.ltb_ge in E.
  destruct (doExecute re src pos) as [[[a0 a1] c]|] eqn:Ex; [|eauto].
  destruct (doExecute_sound _ _ _ _ E Ex)
    as [b0 [b1 [c' [Heq [Hb [Hl Hs]]]]]].
  injection Heq as <- <- <-.
  set (pos' := if (a1 <? pos + (if (pos <? List.length src)%nat
                                then 1 else 0))%nat
               then (pos + (if (pos <? List.length src)%nat
                            then 1 else 0))%nat
               else if (a1 <? pos + 1)%nat then (pos + 1)%nat else a1).
  assert (Hpos' : (a1 <= pos' /\ pos < pos' /\ pos' <= S (List.length src))%nat).
  { unfold pos'. destruct (pos <? List.length src)%nat eqn:E1.
    - apply Nat.ltb_lt in E1.
      destruct (a1 <? pos + 1)%nat eqn:E2;
        [apply Nat.ltb_lt in E2 | apply Nat.ltb_ge in E2]; lia.
    - apply Nat.ltb_ge in E1.
      destruct (a1 <? pos + 0)%nat eqn:E2;
        [apply Nat.ltb_lt in E2; lia|].
      destruct (a1 <? pos + 1)%nat eqn:E3;
        [apply Nat.ltb_lt in E3 | apply Nat.ltb_ge in E3]; lia. }
  assert (Hr : exists r,
             (if (last <? a1)%nat || (a0 =? 0)%nat
              then repl (a0, a1, c) else Returns []) = Returns r
             /\ P (sub src a0 a1) r).
  { destruct ((last <? a1)%nat || (a0 =? 0)%nat) eqn:Ec.
    - apply repl_related. split; assumption.
    - exists []. split; [reflexivity|].
      apply orb_false_iff in Ec. destruct Ec as [Ec _].
      apply Nat.ltb_ge in Ec.
      replace a1 with a0 by lia. rewrite sub_empty. apply P_refl. }
  destruct Hr as [r [Hr Hins]]. rewrite Hr. simpl.
  apply IH; [lia | lia |].
  rewrite <- sub_from_zero.
  rewrite (sub_split src 0 last a1) by lia.
  rewrite (sub_split src last a0 a1) by lia.
  rewrite sub_from_zero, <- app_assoc.
  apply P_app; [exact Hbuf|].
  apply P_app; [apply P_refl | exact Hins].
Qed.

Lemma replaceAll_related :
  exists y, replaceAll re src repl = Returns y /\ P src y.
Proof.
  unfold replaceAll.
  apply replaceLoop_related; [simpl; lia | lia | apply P_refl].
Qed.

End ReplaceAllRelated.

(** ** The colorizer on any input *)

Lemma squeeze_app (a b : str) : squeeze (a ++ b) = squeeze a ++ squeeze b.
Proof. apply filter_app. Qed.

Lemma squeeze_token (t : str) : In t directives -> squeeze t = t.
Proof.
  simpl. intros H.
  repeat (destruct H as [<- | H]; [reflexivity|]). contradiction.
Qed.

Lemma squeeze_blanks (w : str) :
  Forall (fun a => isSpace a = true) w -> squeeze w = [].
Proof.
  induction 1 as [|a w Ha _ IH]; [reflexivity|].
  simpl. rewrite Ha. exact IH.
Qed.

Lemma inserted_squeeze (x y : str) :
  inserted x y -> inserted (squeeze x) (squeeze y).
Proof.
  induction 1 as [x | a t b y Ht Hi IH]; [apply inserted_refl|].
  rewrite squeeze_app. eapply inserted_step; [exact Ht|].
  rewrite !squeeze_app, (squeeze_token t Ht) in IH. exact IH.
Qed.

Lemma keyPass_squeezed (x : str) :
  exists y, keyPass x = Returns y /\ inserted (squeeze x) (squeeze y).
Proof.
  unfold keyPass, ReplaceAllString.
  apply replaceAll_related
    with (P := fun a b => inserted (squeeze a) (squeeze b)).
  - intros a. apply inserted_refl.
  - intros a a' b b' Ha Hb. rewrite !squeeze_app.
    apply inserted_app; assumption.
  - intros a0 a1 c [Hs _].
    destruct (keyRegex_shape x a0 a1 c Hs) as [j [w [Hc [Hsub Hw]]]].
    eexists. split; [reflexivity|].
    rewrite (expand_keyTemplate x a0 a1 (S a0) j c Hc), Hsub.
    set (name := [dq] ++ sub x (S a0) j ++ [dq]).
    replace ([dq] ++ sub x (S a0) j ++ [dq] ++ [":"%char] ++ w)
      with (name ++ [":"%char] ++ w)
      by (unfold name; rewrite <- !app_assoc; reflexivity).
    rewrite !squeeze_app, (squeeze_blanks w Hw).
    rewrite (squeeze_token keyColor), (squeeze_token resetColor)
      by (simpl; auto 10).
    change (squeeze [":"%char]) with [":"%char].
    change (squeeze (lit ": ")) with [":"%char].
    rewrite app_nil_r.
    replace (keyColor ++ squeeze name ++ resetColor ++ [":"%char])
      with ((keyColor ++ squeeze name ++ resetColor) ++ [":"%char])
      by (rewrite <- !app_assoc; reflexivity).
    apply inserted_app_r. apply inserted_wrap; simpl; auto 10.
Qed.

(** The seven passes in sequence. *)
Lemma colorizeJSON_returns (x : str) :
  exists y,
    colorizeJSON x = Returns y /\ inserted (squeeze x) (squeeze y).
Proof.
  unfold colorizeJSON.
  destruct (keyPass_squeezed x) as [x1 [E1 I1]]. rewrite E1. simpl.
  destruct (stringPass_inserted x1) as [x2 [E2 I2]]. rewrite E2. simpl.
  destruct (arrayStringPass_inserted x2) as [x3 [E3 I3]]. rewrite E3. simpl.
  destruct (numberPass_inserted x3) as [x4 [E4 I4]]. rewrite E4. simpl.
  destruct (arrayNumberPass_inserted x4) as [x5 [E5 I5]]. rewrite E5. simpl.
  destruct (booleanPass_inserted x5) as [x6 [E6 I6]]. rewrite E6. simpl.
  destruct (nullPass_inserted x6) as [x7 [E7 I7]].
  exists x7. split; [exact E7|].
  apply inserted_squeeze in I2, I3, I4, I5, I6, I7.
  repeat (eapply inserted_trans; [eassumption|]). apply inserted_refl.
Qed.

(** X1: [colorizeJSON] returns on every input string, valid JSON or
    not: no slice it takes is out of range.  White space apart, what it
    returns is the input with directive tokens inserted: no other
    character is deleted, replaced or moved (the one thing the key pass
    rewrites is the white space behind a colon it matched). *)
Theorem colorizeJSON_total (x : str) :
  exists y,
    colorizeJSON x = Returns y /\ inserted (squeeze x) (squeeze y).
Proof. exact (colorizeJSON_returns x). Qed.

(** ** Text in which no pattern can begin *)

Lemma replaceAll_no_match (re : regex) (src : str)
      (repl : matchT -> outcome str) :
  doExecute re src 0 = None -> replaceAll re src repl = Returns src.
Proof.
  intros H. unfold replaceAll. simpl. rewrite H. reflexivity.
Qed.

Lemma sem_alt_inv (s : str) a b i c j c' :
  sem s (Alt a b) i c j c' -> sem s a i c j c' \/ sem s b i c j c'.
Proof. inversion 1; subst; auto. Qed.

Lemma sem_wordb_inv (s : str) i c j c' :
  sem s WordB i c j c' -> j = i /\ c' = c.
Proof. inversion 1; subst; auto. Qed.

(** A pattern that begins with the character [x] matches only where [x]
    stands. *)
Lemma sem_starts_with (s : str) (x : ascii) (r : regex) i c j c' :
  sem s (Seq (C x) r) i c j c' -> nth_error s i = Some x.
Proof.
  intros H. apply sem_seq_inv in H. destruct H as [j1 [c1 [H _]]].
  apply sem_chr_inv in H. destruct H as [_ [_ [a [Hn Ha]]]].
  unfold isChar in Ha. apply Ascii.eqb_eq in Ha. congruence.
Qed.

Lemma booleanRegex_starts (s : str) i c j c' :
  sem s booleanRegex i c j c' ->
  nth_error s i = Some "t"%char \/ nth_error s i = Some "f"%char.
Proof.
  intros H. unfold booleanRegex in H.
  apply sem_seq_inv in H. destruct H as [j1 [c1 [H1 H]]].
  apply sem_wordb_inv in H1. destruct H1 as [-> ->].
  apply sem_seq_inv in H. destruct H as [j2 [c2 [H _]]].
  apply sem_group_inv in H. destruct H as [c0 [H _]].
  apply sem_alt_inv in H. destruct H as [H | H].
  - left. exact (sem_starts_with _ _ _ _ _ _ _ H).
  - right. exact (sem_starts_with _ _ _ _ _ _ _ H).
Qed.

Section NoPatternStart.

Variable x : str.
Hypothesis no_start : forallb (fun c => negb (startsPattern c)) x = true.

Lemma no_start_at (i : nat) (a : ascii) :
  nth_error x i = Some a -> startsPattern a = false.
Proof.
  intros H. apply nth_error_In in H.
  rewrite forallb_forall in no_start. apply no_start in H.
  apply negb_true_iff in H. exact H.
Qed.

Lemma no_match_of (re : regex) :
  (forall i c j c', sem x re i c j c' ->
                    exists a, nth_error x i = Some a /\ startsPattern a = true) ->
  doExecute re x 0 = None.
Proof.
  intros Hre. destruct (doExecute re x 0) as [m|] eqn:E; [|reflexivity].
  apply doExecute_sound in E; [|lia].
  destruct E as [a0 [a1 [c [_ [_ [_ Hs]]]]]].
  destruct (Hre _ _ _ _ Hs) as [a [Hn Ha]].
  rewrite (no_start_at _ _ Hn) in Ha. discriminate.
Qed.

Lemma no_match_starting (c0 : ascii) (r : regex) :
  startsPattern c0 = true -> doExecute (Seq (C c0) r) x 0 = None.
Proof.
  intros Hc. apply no_match_of. intros i c j c' H.
  exists c0. split; [exact (sem_starts_with _ _ _ _ _ _ _ H) | exact Hc].
Qed.

Lemma no_match_boolean : doExecute booleanRegex x 0 = None.
Proof.
  apply no_match_of. intros i c j c' H.
  destruct (booleanRegex_starts _ _ _ _ _ H) as [Hn | Hn];
    eexists; (split; [exact Hn | reflexivity]).
Qed.

Lemma colorizeJSON_unchanged : colorizeJSON x = Returns x.
Proof.
  unfold colorizeJSON.
  unfold keyPass, ReplaceAllString.
  rewrite replaceAll_no_match
    by (apply no_match_starting; reflexivity).
  cbn [bind]. unfold stringPass, ReplaceAllStringFunc.
  rewrite replaceAll_no_match
    by (apply no_match_starting; reflexivity).
  cbn [bind]. unfold arrayStringPass, ReplaceAllStringFunc.
  rewrite replaceAll_no_match
    by (apply no_match_starting; reflexivity).
  cbn [bind]. unfold numberPass, ReplaceAllStringFunc.
  rewrite replaceAll_no_match
    by (apply no_match_starting; reflexivity).
  cbn [bind]. unfold arrayNumberPass, ReplaceAllStringFunc.
  rewrite replaceAll_no_match
    by (apply no_match_starting; reflexivity).
  cbn [bind]. unfold booleanPass, ReplaceAllStringFunc.
  rewrite replaceAll_no_match by (apply no_match_boolean).
  cbn [bind]. unfold nullPass, ReplaceAllStringFunc.
  apply replaceAll_no_match. apply no_match_starting. reflexivity.
Qed.

End NoPatternStart.

(** X2: a text that holds no double quote, no colon, no opening bracket
    and neither the letter t nor the letter f (the characters a match of
    the seven patterns can begin with) passes through [colorizeJSON]
    unchanged. *)
Theorem colorizeJSON_passes_through (x : str) :
  forallb (fun c => negb (startsPattern c)) x = true ->
  colorizeJSON x = Returns x.
Proof. exact (colorizeJSON_unchanged x). Qed.

Lemma colorizeJSON_passes_through_witness :
  colorizeJSON (lit "{ 42, null ]") = Returns (lit "{ 42, null ]").
Proof.
  apply colorizeJSON_passes_through. reflexivity.
Defined.

(** ** The literal search that ignores case *)

Lemma scanned_occurs (content q : str) (cursor : Z) (l : list Z) :
  scanned content q cursor l -> Forall (occursAt content q) l.
Proof.
  induction 1 as [|cursor p rest Hc Ho Hm Hs IH]; constructor; assumption.
Qed.

Lemma occursAt_bounds (content q : str) (p : Z) :
  occursAt content q p -> 0 <= p /\ p + len q <= len content.
Proof.
  intros [a [b [-> <-]]]. rewrite !len_app.
  pose proof (len_nonneg a). pose proof (len_nonneg b). lia.
Qed.

(** X3: with [useRegex] and [caseSensitive] both false, [performSearch]
    lower-cases the content and the query and scans the lower-cased
    content: for a query whose lower-cased form is not empty it returns
    the offsets a left-to-right scan of the lower-cased content reports
    (resuming behind each occurrence), every one of them a place where
    the lower-cased query fits into the lower-cased content, and it
    writes nothing to the error log. *)
Theorem performSearch_ignoring_case
        (Regexp : Type) (Compile : str -> Regexp + str)
        (FindAllStringIndex : Regexp -> str -> list (Z * Z))
        (ToLower : str -> str) (content q : str) :
  ToLower q <> [] ->
  exists positions,
    scanned (ToLower content) (ToLower q) 0 positions
    /\ Forall (fun p => 0 <= p /\ p + len (ToLower q) <= len (ToLower content))
              positions
    /\ forall fuel, (List.length (ToLower content) < fuel)%nat ->
         performSearch Regexp Compile FindAllStringIndex ToLower
                       fuel content q
                       {| caseSensitive := false; useRegex := false |}
         = Returns (positions, []).
Proof.
  intros Hq.
  destruct (performSearch_literal Regexp Compile FindAllStringIndex ToLower
                                  content q false Hq)
    as [positions [Hsc Hrun]].
  exists positions. split; [exact Hsc|]. split; [|exact Hrun].
  eapply Forall_impl; [|exact (scanned_occurs _ _ _ _ Hsc)].
  intros p. apply occursAt_bounds.
Qed.

Lemma performSearch_ignoring_case_witness :
  exists positions,
    scanned (asciiLower (lit "Banana")) (asciiLower (lit "AN")) 0 positions
    /\ Forall (fun p => 0 <= p /\ p + len (asciiLower (lit "AN"))
                                  <= len (asciiLower (lit "Banana")))
              positions
    /\ forall fuel, (List.length (asciiLower (lit "Banana")) < fuel)%nat ->
         performSearch regex toyCompile toyFindAll asciiLower
                       fuel (lit "Banana") (lit "AN")
                       {| caseSensitive := false; useRegex := false |}
         = Returns (positions, []).
Proof.
  apply performSearch_ignoring_case. discriminate.
Defined.

(** ** The line search where no line holds the query twice *)

Lemma scanLine_done (fuel : nat) (ln q : str) (i : Z) (acc : list result) :
  scanLine fuel ln q i (-1) acc = Returns acc.
Proof. destruct fuel; reflexivity. Qed.

Lemma Index_found (s q : str) :
  Index s q <> -1 ->
  occursAt s q (Index s q)
  /\ forall p, occursAt s q p -> Index s q <= p.
Proof.
  unfold Index. destruct (indexNat s q) as [n|] eqn:E; [|congruence].
  intros _. destruct (indexNat_some _ _ _ E) as [[a [b [Hs Ha]]] Hmin].
  split.
  - exists a, b. split; [exact Hs | unfold len; lia].
  - intros p [a' [b' [Hs' Ha']]]. apply Hmin in Hs'. unfold len in Ha'. lia.
Qed.

Lemma Index_missing (s q : str) :
  Index s q = -1 -> forall p, ~ occursAt s q p.
Proof.
  unfold Index. destruct (indexNat s q) as [n|] eqn:E; [lia|].
  intros _ p [a [b [Hs _]]]. exact (indexNat_none _ _ E _ _ Hs).
Qed.

Lemma Index_range (s q : str) : Index s q = -1 \/ 0 <= Index s q.
Proof. unfold Index. destruct (indexNat s q); lia. Qed.

Lemma scanLine_once (fuel : nat) (ln q : str) (i : Z) (acc : list result) :
  atMostOnce ln q -> Index ln q <> -1 ->
  scanLine (S fuel) ln q i (Index ln q) acc
  = Returns (acc ++ [{| line := i; pos := Index ln q |}]).
Proof.
  intros Honce Hf. destruct (Index_found ln q Hf) as [Hocc _].
  destruct (occursAt_bounds _ _ _ Hocc) as [H0 Hb].
  simpl. replace (Index ln q =? -1) with false
    by (symmetry; apply Z.eqb_neq; exact Hf).
  pose proof (len_nonneg q).
  rewrite sliceFrom_ok by lia. simpl.
  assert (E : Index (skipn (Z.to_nat (Index ln q + len q)) ln) q = -1).
  { destruct (Index_range (skipn (Z.to_nat (Index ln q + len q)) ln) q)
      as [E | E]; [exact E | exfalso].
    assert (Hne : Index (skipn (Z.to_nat (Index ln q + len q)) ln) q <> -1)
      by lia.
    destruct (Index_found _ _ Hne) as [[a [b [Hs Ha]]] _].
    assert (Hocc' : occursAt ln q (Index ln q + len q + len a)).
    { apply occurs_unskipn with (b := b); [lia | exact Hs]. }
    specialize (Honce _ _ Hocc Hocc'). pose proof (len_nonneg a). lia. }
  rewrite E. simpl. apply scanLine_done.
Qed.

Lemma scanLines_once (fuel : nat) (q : str) (lines : list str) :
  Forall (fun ln => atMostOnce ln q) lines ->
  forall i acc,
    scanLines (S fuel) lines q i acc = Returns (acc ++ lineHits lines q i).
Proof.
  induction 1 as [|ln rest Hln _ IH]; intros i acc.
  - simpl. rewrite app_nil_r. reflexivity.
  - cbn [scanLines lineHits].
    destruct (Index ln q =? -1) eqn:E.
    + apply Z.eqb_eq in E. rewrite E, scanLine_done. cbn [bind].
      rewrite IH. reflexivity.
    + apply Z.eqb_neq in E. rewrite (scanLine_once _ _ _ _ _ Hln E).
      cbn [bind]. rewrite IH, <- app_assoc. reflexivity.
Qed.

(** What [lineHits] lists: for each line that holds the query, the first
    occurrence in it. *)
Lemma lineHits_spec (q : str) (lines : list str) :
  forall i r,
    In r (lineHits lines q i) <->
    exists k ln,
      nth_error lines k = Some ln
      /\ line r = i + Z.of_nat k
      /\ occursAt ln q (pos r)
      /\ forall p, occursAt ln q p -> pos r <= p.
Proof.
  induction lines as [|ln0 rest IH]; intros i r; simpl.
  - split; [contradiction|]. intros [[|k] [ln [H _]]]; discriminate.
  - rewrite in_app_iff, IH. split.
    + intros [H | [k [ln [Hn [Hl Ho]]]]].
      * destruct (Index ln0 q =? -1) eqn:E; [contradiction|].
        apply Z.eqb_neq in E. destruct H as [<- | []].
        exists 0%nat, ln0. simpl. repeat split; try lia;
          apply (Index_found ln0 q E).
      * exists (S k), ln. simpl. repeat split; try tauto; lia.
    + intros [[|k] [ln [Hn [Hl [Ho Hmin]]]]]; simpl in Hn.
      * injection Hn as ->. left.
        destruct (Index ln q =? -1) eqn:E.
        -- apply Z.eqb_eq in E. exact (Index_missing _ _ E _ Ho).
        -- apply Z.eqb_neq in E. left.
           destruct (Index_found ln q E) as [Ho' Hmin'].
           destruct r as [l p]. simpl in *. f_equal; [lia|].
           specialize (Hmin _ Ho'). specialize (Hmin' _ Ho). lia.
      * right. exists k, ln. repeat split; try tauto; lia.
Qed.

(** X4: when no line of the shown text holds the query twice (no
    occurrence begins at or behind the end of another one in its line),
    [appState.performSearch] returns with any fuel but none, the current
    index is 0, and the results are, in the order of the lines, one entry
    for each line that holds the query: the number of the line and the
    offset of the first occurrence in it. *)
Theorem appState_performSearch_one_per_line
        (stripTags : str -> str) (fuel : nat) (st : appState) :
  let lines := splitLines (GetText stripTags (fileContent st) true) in
  searchString st <> [] ->
  Forall (fun ln => atMostOnce ln (searchString st)) lines ->
  exists st',
    appState_performSearch stripTags (S fuel) st = Returns st'
    /\ currentSearchIndex st' = 0
    /\ searchResults st' = lineHits lines (searchString st) 0
    /\ forall r,
         In r (searchResults st') <->
         exists k ln,
           nth_error lines k = Some ln
           /\ line r = Z.of_nat k
           /\ occursAt ln (searchString st) (pos r)
           /\ forall p, occursAt ln (searchString st) p -> pos r <= p.
Proof.
  intros lines Hq Honce.
  assert (Hspec : forall r,
             In r (lineHits lines (searchString st) 0) <->
             exists k ln,
               nth_error lines k = Some ln
               /\ line r = Z.of_nat k
               /\ occursAt ln (searchString st) (pos r)
               /\ forall p, occursAt ln (searchString st) p -> pos r <= p).
  { intros r. rewrite lineHits_spec. reflexivity. }
  unfold appState_performSearch.
  destruct (str_eqb (searchString st) []) eqn:E.
  { apply str_eqb_eq in E. contradiction. }
  fold lines. rewrite (scanLines_once fuel _ lines Honce 0 []).
  cbn [bind app].
  set (st1 := set_currentSearchIndex 0
                (set_searchResults (lineHits lines (searchString st) 0) st)).
  destruct (0 <? resultCount st1) eqn:Ep.
  - destruct (highlightCurrentResult_in_bounds st1) as [st2 [Hrun [Hr [Hc _]]]].
    { apply searchInvariant_index_zero. reflexivity. }
    rewrite Hrun. cbn [bind]. eexists. split; [reflexivity|].
    simpl. rewrite Hc, Hr. simpl. auto.
  - eexists. split; [reflexivity|]. simpl. auto.
Qed.

Lemma appState_performSearch_one_per_line_witness :
  exists st',
    appState_performSearch (fun s => s) 1
      (searchingFor (lit "ab") (lit "xab" ++ [nl] ++ lit "cd" ++ [nl] ++ lit "ab"))
    = Returns st'
    /\ currentSearchIndex st' = 0
    /\ searchResults st'
       = [{| line := 0; pos := 1 |}; {| line := 2; pos := 0 |}].
Proof.
  destruct (appState_performSearch_one_per_line (fun s => s) 0
              (searchingFor (lit "ab")
                            (lit "xab" ++ [nl] ++ lit "cd" ++ [nl] ++ lit "ab")))
    as [st' [Hrun [Hc [Hr _]]]].
  - discriminate.
  - repeat constructor; intros p p' [a [b [Ha La]]] [a' [b' [Ha' La']]];
      subst p p'; unfold len;
      destruct a as [|? [|? [|? [|? ?]]]]; try discriminate;
      destruct a' as [|? [|? [|? [|? ?]]]]; try discriminate;
      simpl; lia.
  - exists st'. repeat split; assumption.
Defined.

(** ** What the navigation shows *)

Lemma index_at_nth {A} (xs : list A) (k : Z) (x : A) :
  0 <= k -> nth_error xs (Z.to_nat k) = Some x -> index_at xs k = Returns x.
Proof.
  intros Hk Hn. unfold index_at.
  assert (Z.to_nat k < List.length xs)%nat
    by (apply nth_error_Some; congruence).
  replace ((0 <=? k) && (k <? Z.of_nat (List.length xs))) with true
    by (symmetry; rewrite andb_true_iff, Z.leb_le, Z.ltb_lt; lia).
  rewrite Hn. reflexivity.
Qed.

Lemma shown_at (st : appState) (k : Z) (r : result) :
  0 <= k < resultCount st -> resultCount st < maxResults ->
  nth_error (searchResults st) (Z.to_nat k) = Some r ->
  exists st',
    (st0 <- highlightCurrentResult (set_currentSearchIndex k st) ;;
     Returns (set_debugText (resultOf st0) st0)) = Returns st'
    /\ currentSearchIndex st' = k
    /\ tvHighlight (fileContent st') = []
    /\ tvScroll (fileContent st') = (pos r, line r)
    /\ tvText (fileContent st') = tvText (fileContent st)
    /\ tvText (debugView st')
       = lit "Result " ++ Itoa (k + 1) ++ lit " of " ++ Itoa (resultCount st).
Proof.
  intros Hk Hmax Hn. unfold highlightCurrentResult.
  change (resultCount (set_currentSearchIndex k st)) with (resultCount st).
  replace (resultCount st =? 0) with false by (symmetry; apply Z.eqb_neq; lia).
  change (searchResults (set_currentSearchIndex k st))
    with (searchResults st).
  change (currentSearchIndex (set_currentSearchIndex k st)) with k.
  rewrite (index_at_nth _ _ _ (proj1 Hk) Hn). cbn [bind].
  eexists. split; [reflexivity|].
  repeat split. unfold resultOf, add64. simpl.
  rewrite wrap64_small by (unfold maxResults in Hmax; lia). reflexivity.
Qed.

(** X5: on a sequence of L results (0 < L, a Go slice) with the current
    index i in range, [findNextResult] moves to the result r at index
    (i+1) mod L and [findPreviousResult] to the one at (i-1+L) mod L; the
    content pane is then scrolled with the offset of r in its line as the
    row and the line number of r as the column, and its text is
    untouched; no region is highlighted in it, since the line number that
    [Highlight] is given names no region of the view; the status line
    reads Result k of L, k counting from 1. *)
Theorem navigation_shows_result (st : appState) (next previous : result) :
  let L := resultCount st in
  let i := currentSearchIndex st in
  0 < L -> L < maxResults -> 0 <= i < L ->
  nth_error (searchResults st) (Z.to_nat ((i + 1) mod L)) = Some next ->
  nth_error (searchResults st) (Z.to_nat ((i - 1 + L) mod L)) = Some previous ->
  (exists st',
      findNextResult st = Returns st'
      /\ tvHighlight (fileContent st') = []
      /\ tvScroll (fileContent st') = (pos next, line next)
      /\ tvText (fileContent st') = tvText (fileContent st)
      /\ tvText (debugView st')
         = lit "Result " ++ Itoa ((i + 1) mod L + 1) ++ lit " of " ++ Itoa L)
  /\ (exists st',
         findPreviousResult st = Returns st'
         /\ tvHighlight (fileContent st') = []
         /\ tvScroll (fileContent st') = (pos previous, line previous)
         /\ tvText (fileContent st') = tvText (fileContent st)
         /\ tvText (debugView st')
            = lit "Result " ++ Itoa ((i - 1 + L) mod L + 1) ++ lit " of "
                  ++ Itoa L).
Proof.
  intros L i HL Hmax Hi Hn Hp. unfold findNextResult, findPreviousResult.
  fold L i. replace (L =? 0) with false by (symmetry; apply Z.eqb_neq; lia).
  rewrite (next_index i L Hi Hmax), (previous_index i L Hi Hmax).
  split.
  - destruct (shown_at st ((i + 1) mod L) next) as [st' [Hrun [_ H]]];
      [apply Z.mod_pos_bound; lia | exact Hmax | exact Hn |].
    exists st'. split; [exact Hrun | exact H].
  - destruct (shown_at st ((i - 1 + L) mod L) previous) as [st' [Hrun [_ H]]];
      [apply Z.mod_pos_bound; lia | exact Hmax | exact Hp |].
    exists st'. split; [exact Hrun | exact H].
Qed.

Lemma navigation_shows_result_witness :
  (exists st',
      findNextResult (browsing3 1) = Returns st'
      /\ tvHighlight (fileContent st') = []
      /\ tvScroll (fileContent st') = (0, 1)
      /\ tvText (fileContent st') = tvText (fileContent (browsing3 1))
      /\ tvText (debugView st') = lit "Result 3 of 3")
  /\ (exists st',
         findPreviousResult (browsing3 1) = Returns st'
         /\ tvHighlight (fileContent st') = []
         /\ tvScroll (fileContent st') = (0, 0)
         /\ tvText (fileContent st') = tvText (fileContent (browsing3 1))
         /\ tvText (debugView st') = lit "Result 1 of 3").
Proof.
  apply (navigation_shows_result (browsing3 1)
           {| line := 1; pos := 0 |} {| line := 0; pos := 0 |});
    vm_compute; try split; congruence.
Defined.

(** ** The file catalog *)

Lemma hasSuffix_iff (s suffix : str) :
  hasSuffix s suffix = true <-> exists base, s = base ++ suffix.
Proof.
  unfold hasSuffix. rewrite hasPrefix_iff. split.
  - intros [b H]. exists (rev b).
    rewrite <- (rev_involutive s), H, rev_app_distr, rev_involutive.
    reflexivity.
  - intros [base ->]. exists (rev base). apply rev_app_distr.
Qed.

Lemma Ext_is_suffix (name : str) : exists base, name = base ++ Ext name.
Proof.
  induction name as [|c t IH]; simpl.
  - exists []. reflexivity.
  - destruct (existsb _ t).
    + destruct IH as [base IH]. exists (c :: base). simpl. f_equal. exact IH.
    + destruct (Ascii.eqb c "."); [exists [] | exists (c :: t)];
        simpl; rewrite ?app_nil_r; reflexivity.
Qed.

Lemma Ext_of_dotted (base ext : str) :
  existsb (fun x => Ascii.eqb x "." || Ascii.eqb x "/") ext = false ->
  Ext (base ++ "."%char :: ext) = "."%char :: ext.
Proof.
  intros Hext. induction base as [|c t IH].
  - simpl. rewrite Hext. reflexivity.
  - simpl. rewrite IH.
    assert (H : existsb (fun x => Ascii.eqb x "." || Ascii.eqb x "/")
                        (t ++ "."%char :: ext) = true).
    { apply existsb_exists. exists "."%char. split; [|reflexivity].
      apply in_or_app. right. left. reflexivity. }
    rewrite H. reflexivity.
Qed.

Lemma Ext_of_json (base : str) : Ext (base ++ lit ".json") = lit ".json".
Proof. apply (Ext_of_dotted base (lit "json")). reflexivity. Qed.

(** [filepath.Ext] gives .json exactly for the names that end in .json. *)
Lemma Ext_json_hasSuffix (name : str) :
  str_eqb (Ext name) (lit ".json") = hasSuffix name (lit ".json").
Proof.
  destruct (hasSuffix name (lit ".json")) eqn:E.
  - apply hasSuffix_iff in E. destruct E as [base ->].
    rewrite Ext_of_json. reflexivity.
  - destruct (str_eqb (Ext name) (lit ".json")) eqn:E'; [|reflexivity].
    apply str_eqb_eq in E'. destruct (Ext_is_suffix name) as [base Hb].
    rewrite E' in Hb.
    assert (hasSuffix name (lit ".json") = true)
      by (apply hasSuffix_iff; eauto).
    congruence.
Qed.

Lemma jsonFile_test (e : walkEntry) :
  negb (weIsDir e) && str_eqb (Ext (weName e)) (lit ".json") = jsonFile e.
Proof. unfold jsonFile. rewrite Ext_json_hasSuffix. reflexivity. Qed.

Lemma walkCallbacks_inl (ctx : context) (entries : list walkEntry) :
  forall k acc files,
    walkCallbacks ctx entries k acc = inl files <->
    (forall j e, nth_error entries j = Some e ->
                 ctx (k + j)%nat = None /\ weErr e = None)
    /\ files = acc ++ map wePath (filter jsonFile entries).
Proof.
  induction entries as [|e rest IH]; intros k acc files;
    cbn [walkCallbacks filter].
  - cbn [map]. rewrite app_nil_r. split.
    + intros [= <-]. split; [|reflexivity]. intros [|j] e H; discriminate.
    + intros [_ ->]. reflexivity.
  - rewrite jsonFile_test.
    destruct (ctx k) as [err|] eqn:Ec.
    { split; [discriminate|]. intros [H _].
      destruct (H 0%nat e eq_refl) as [H0 _].
      rewrite Nat.add_0_r in H0. congruence. }
    destruct (weErr e) as [err|] eqn:Ee.
    { split; [discriminate|]. intros [H _].
      destruct (H 0%nat e eq_refl) as [_ H0]. congruence. }
    rewrite IH.
    assert (Hf : (if jsonFile e then acc ++ [wePath e] else acc)
                   ++ map wePath (filter jsonFile rest)
                 = acc ++ map wePath (if jsonFile e
                                      then e :: filter jsonFile rest
                                      else filter jsonFile rest)).
    { destruct (jsonFile e); cbn [map]; rewrite <- ?app_assoc; reflexivity. }
    rewrite Hf. split.
    + intros [H ->]. split; [|reflexivity].
      intros [|j] e' Hn; simpl in Hn.
      * injection Hn as <-. rewrite Nat.add_0_r. auto.
      * replace (k + S j)%nat with (S k + j)%nat by lia. eauto.
    + intros [H ->]. split; [|reflexivity].
      intros j e' Hn. replace (S k + j)%nat with (k + S j)%nat by lia.
      apply H. exact Hn.
Qed.

(** X6: [loadJSONFilesWithContext] succeeds exactly when, at every call
    the walk makes to the callback, the context is not yet done and the
    walk reports no error for the entry; the list it then returns holds,
    in the order of the walk, the path of every entry that is no
    directory and whose name ends in .json (and nothing else: a
    directory named like a JSON file is left out, its files are not).
    An error at any entry, the last one too, leaves no list at all. *)
Theorem loadJSONFilesWithContext_success
        (Walk : str -> list walkEntry) (ctx : context) (dir : str)
        (files : list str) :
  loadJSONFilesWithContext Walk ctx dir = inl files <->
  (forall k e, nth_error (Walk dir) k = Some e ->
               ctx k = None /\ weErr e = None)
  /\ files = map wePath (filter jsonFile (Walk dir)).
Proof.
  unfold loadJSONFilesWithContext.
  destruct (walkCallbacks ctx (Walk dir) 0 []) as [fs | err] eqn:E.
  - apply walkCallbacks_inl in E. destruct E as [Hok ->]. simpl. split.
    + intros [= <-]. auto.
    + intros [_ ->]. reflexivity.
  - split; [discriminate|]. intros [Hok Hf].
    assert (walkCallbacks ctx (Walk dir) 0 [] = inl files)
      by (apply walkCallbacks_inl; auto).
    congruence.
Qed.

Lemma loadJSONFilesWithContext_success_witness :
  loadJSONFilesWithContext walkMixed background (lit ".")
  = inl [lit "a.json"; lit "d.json/b.json"].
Proof.
  apply (proj2 (loadJSONFilesWithContext_success walkMixed background (lit ".")
                  [lit "a.json"; lit "d.json/b.json"])).
  split; [|reflexivity].
  intros k e Hn. split; [reflexivity|].
  destruct k as [|[|[|[|[|k]]]]]; simpl in Hn;
    try (injection Hn as <-; reflexivity).
  destruct k; discriminate Hn.
Defined.

Lemma addItems_spec (files : list str) :
  forall i st,
    addItems files i st
    = set_files (fileList st ++ itemsFor files i)
                (actionFuncs st ++ map snd (itemsFor files i)) st.
Proof.
  induction files as [|f rest IH]; intros i st.
  - simpl. rewrite !app_nil_r. destruct st. reflexivity.
  - cbn [addItems itemsFor map snd]. rewrite IH. unfold set_files.
    cbn [fileList actionFuncs fileContent debugView focus activeFileIndex
         searchString searchResults currentSearchIndex searchMode errorLog
         infoLog].
    rewrite <- !app_assoc. reflexivity.
Qed.

Lemma itemsFor_names (files : list str) :
  forall i, map fst (itemsFor files i) = files.
Proof.
  induction files as [|f rest IH]; intros i; simpl; [|rewrite IH];
    reflexivity.
Qed.

Lemma itemsFor_nth (files : list str) :
  forall i k f,
    nth_error files k = Some f ->
    nth_error (itemsFor files i) k
    = Some (f, {| actFile := f; actFileIndex := i + Z.of_nat k |}).
Proof.
  induction files as [|f0 rest IH]; intros i [|k] f H; simpl in H;
    try discriminate.
  - injection H as ->. simpl. rewrite Z.add_0_r. reflexivity.
  - cbn [itemsFor nth_error]. rewrite (IH (i + 1) k f H).
    replace (i + Z.of_nat (S k)) with (i + 1 + Z.of_nat k) by lia.
    reflexivity.
Qed.

(** X7: when the walk succeeds with the list [files],
    [reloadJSONFiles] replaces the list wholesale: the items are the
    paths of [files], in order and undecorated (no item keeps a
    highlight), whatever was listed before; there are as many action
    functions as items, and the k-th one opens the k-th path with the
    file index k.  The status line says to select a file, one line goes
    to the info log, none to the error log; the content pane and the
    active index are as they were. *)
Theorem reloadJSONFiles_lists_files
        (Walk : str -> list walkEntry) (ctx : context) (dir : str)
        (st : appState) (files : list str) :
  loadJSONFilesWithContext Walk ctx dir = inl files ->
  let st' := reloadJSONFiles Walk ctx dir st in
  map fst (fileList st') = files
  /\ map snd (fileList st') = actionFuncs st'
  /\ (forall k f,
         nth_error files k = Some f ->
         nth_error (actionFuncs st') k
         = Some {| actFile := f; actFileIndex := Z.of_nat k |})
  /\ tvText (debugView st') = lit "Select a file to view its content."
  /\ infoLog st' = infoLog st ++ [lit "JSON files loaded successfully"]
  /\ errorLog st' = errorLog st
  /\ fileContent st' = fileContent st
  /\ activeFileIndex st' = activeFileIndex st.
Proof.
  intros H st'. unfold st', reloadJSONFiles. rewrite H, addItems_spec.
  cbn [fileList actionFuncs set_files set_debugText log_info debugView
       SetText tvText infoLog errorLog fileContent activeFileIndex app].
  split; [apply itemsFor_names|]. split; [reflexivity|].
  split; [|repeat split].
  intros k f Hn. rewrite nth_error_map, (itemsFor_nth files 0 k f Hn).
  reflexivity.
Qed.

Lemma reloadJSONFiles_lists_files_witness :
  let st' := reloadJSONFiles walkMixed background (lit ".") listedOne in
  map fst (fileList st') = [lit "a.json"; lit "d.json/b.json"]
  /\ map snd (fileList st') = actionFuncs st'
  /\ (forall k f,
         nth_error [lit "a.json"; lit "d.json/b.json"] k = Some f ->
         nth_error (actionFuncs st') k
         = Some {| actFile := f; actFileIndex := Z.of_nat k |})
  /\ tvText (debugView st') = lit "Select a file to view its content."
  /\ infoLog st'
     = infoLog listedOne ++ [lit "JSON files loaded successfully"]
  /\ errorLog st' = errorLog listedOne
  /\ fileContent st' = fileContent listedOne
  /\ activeFileIndex st' = activeFileIndex listedOne.
Proof.
  apply (reloadJSONFiles_lists_files walkMixed background (lit ".") listedOne).
  reflexivity.
Defined.

(** ** [handleScroll] *)

Lemma handleScroll_step (key : scrollKey) (first second : TextView) (off : Z) :
  0 <= off < 2 ^ 63 - 10 ->
  exists off',
    handleScroll key first (Some second) off
    = (ScrollTo off' 0 first, Some (ScrollTo off' 0 second), off')
    /\ 0 <= off' <= off + 10.
Proof.
  intros H. unfold handleScroll, add64, sub64.
  destruct key; rewrite ?wrap64_small by lia;
    try (destruct (_ <? 0) eqn:E;
         [apply Z.ltb_lt in E | apply Z.ltb_ge in E]);
    eexists; (split; [reflexivity | lia]).
Qed.

(** X8: [handleScroll] does nothing when there is no second pane.  With
    a second pane, after any sequence of keys (short enough for the
    offset to stay in the range of an int) that starts from an offset
    that is not negative, the offset is still not negative and has grown
    by at most ten per key, the texts of both panes are untouched, and,
    if there was a key at all, both panes are scrolled to the same place:
    the row of the offset, column 0. *)
Theorem handleScroll_keeps_panes_aligned
        (keys : list scrollKey) (first second : TextView) (off : Z) :
  (forall key, handleScroll key first None off = (first, None, off))
  /\ (0 <= off ->
      off + 10 * Z.of_nat (List.length keys) < 2 ^ 63 ->
      exists first' second' off',
        scrollAll keys first second off = (first', second', off')
        /\ 0 <= off' <= off + 10 * Z.of_nat (List.length keys)
        /\ tvText first' = tvText first
        /\ tvText second' = tvText second
        /\ (keys <> [] ->
            tvScroll first' = (off', 0) /\ tvScroll second' = (off', 0))).
Proof.
  split; [reflexivity|].
  revert first second off.
  induction keys as [|key rest IH]; intros first second off H0 Hmax.
  - exists first, second, off. simpl.
    split; [reflexivity|]. split; [lia|]. split; [reflexivity|].
    split; [reflexivity|]. intros H. congruence.
  - cbn [List.length] in Hmax. cbn [scrollAll].
    destruct (handleScroll_step key first second off) as [o1 [E Ho1]];
      [lia|].
    rewrite E.
    destruct (IH (ScrollTo o1 0 first) (ScrollTo o1 0 second) o1)
      as [f' [s' [o' [Erun [Ho' [Hf [Hs Hscroll]]]]]]]; [lia | lia |].
    exists f', s', o'. split; [exact Erun|].
    split; [cbn [List.length]; lia|].
    split; [exact Hf|]. split; [exact Hs|].
    intros _. destruct rest as [|k2 rest'].
    + simpl in Erun. injection Erun as <- <- <-. auto.
    + apply Hscroll. discriminate.
Qed.

Lemma handleScroll_keeps_panes_aligned_witness :
  exists first' second' off',
    scrollAll [KeyUp; KeyPgDn; KeyDown; KeyPgUp; KeyUp]
              (viewOf (lit "a")) (viewOf (lit "b")) 0
    = (first', second', off')
    /\ 0 <= off' <= 0 + 10 * Z.of_nat 5
    /\ tvText first' = tvText (viewOf (lit "a"))
    /\ tvText second' = tvText (viewOf (lit "b"))
    /\ ([KeyUp; KeyPgDn; KeyDown; KeyPgUp; KeyUp] <> [] ->
        tvScroll first' = (off', 0) /\ tvScroll second' = (off', 0)).
Proof.
  apply (proj2 (handleScroll_keeps_panes_aligned
                  [KeyUp; KeyPgDn; KeyDown; KeyPgUp; KeyUp]
                  (viewOf (lit "a")) (viewOf (lit "b")) 0));
    vm_compute; congruence.
Defined.

(** ** [highlightSearchResult] *)

Lemma containsAnyPosition_existsb (start end_ : Z) (positions : list Z) :
  containsAnyPosition start end_ positions
  = existsb (fun p => (start <=? p) && (p <? end_)) positions.
Proof.
  induction positions as [|p rest IH]; [reflexivity|].
  simpl. rewrite IH. destruct ((start <=? p) && (p <? end_)); reflexivity.
Qed.

Lemma splitLines_cons (s : str) : exists ln rest, splitLines s = ln :: rest.
Proof.
  induction s as [|c t [ln [rest IH]]]; simpl; [eauto|].
  destruct (Ascii.eqb c nl); [eauto|]. rewrite IH. eauto.
Qed.

Lemma joinLines0_cons (x y : str) (r : list str) :
  joinLines0 (x :: y :: r) = x ++ [nl] ++ joinLines0 (y :: r).
Proof. reflexivity. Qed.

(** Joining the lines of a text gives the text back. *)
Lemma joinLines0_splitLines (s : str) : joinLines0 (splitLines s) = s.
Proof.
  induction s as [|c t IH]; [reflexivity|].
  simpl. destruct (splitLines_cons t) as [ln [rest E]].
  rewrite E in IH |- *.
  destruct (Ascii.eqb c nl) eqn:Ec.
  - apply Ascii.eqb_eq in Ec. subst c.
    rewrite joinLines0_cons, IH. reflexivity.
  - destruct rest as [|ln2 rest'].
    + simpl in IH |- *. rewrite IH. reflexivity.
    + rewrite joinLines0_cons in IH |- *. simpl. rewrite <- IH. reflexivity.
Qed.

Lemma highlightLoop_spans (ps : list Z) (lines : list str) :
  forall o,
    highlightLoop lines o ps
    = joinLines0
        (map (fun ol : Z * str =>
                if existsb (fun p => (fst ol <=? p)
                                     && (p <? fst ol + len (snd ol))) ps
                then bold (snd ol) else snd ol)
             (withOffsets lines o)).
Proof.
  induction lines as [|ln rest IH]; intros o; [reflexivity|].
  cbn [highlightLoop withOffsets map fst snd].
  rewrite containsAnyPosition_existsb, IH.
  destruct rest as [|ln2 rest'].
  - simpl. rewrite app_nil_r. reflexivity.
  - cbn [withOffsets map]. rewrite joinLines0_cons. reflexivity.
Qed.

Lemma withOffsets_lines (lines : list str) :
  forall o, map snd (withOffsets lines o) = lines.
Proof.
  induction lines as [|ln rest IH]; intros o; simpl; [|rewrite IH];
    reflexivity.
Qed.

Lemma withOffsets_true (lines : list str) :
  forall pre,
    Forall (fun ol : Z * str =>
              exists a b,
                pre ++ joinLines0 lines = a ++ snd ol ++ b
                /\ len a = fst ol)
           (withOffsets lines (len pre)).
Proof.
  induction lines as [|ln rest IH]; intros pre; [constructor|].
  cbn [withOffsets]. constructor.
  - simpl. exists pre. destruct rest as [|ln2 rest'].
    + exists []. rewrite app_nil_r. auto.
    + exists ([nl] ++ joinLines0 (ln2 :: rest')). auto.
  - destruct rest as [|ln2 rest']; [constructor|].
    specialize (IH (pre ++ ln ++ [nl])).
    replace (len (pre ++ ln ++ [nl])) with (len pre + len ln + 1) in IH
      by (rewrite !len_app; change (len [nl]) with 1; lia).
    eapply Forall_impl; [|exact IH].
    intros ol [a [b [E La]]]. exists a, b. split; [|exact La].
    rewrite <- E, joinLines0_cons, <- !app_assoc. reflexivity.
Qed.

(** X9: given at least one search position, [highlightSearchResult]
    sets the view to the lines of its tag-free text, joined by newlines
    again, a line in bold exactly when some position lies on one of its
    characters: at or behind the offset at which the line begins in the
    text and before its end.  The offsets the loop counts are the true
    ones, and without the bold markers the text is the tag-free text; so
    positions that are negative or behind the last character leave it as
    it is. *)
Theorem highlightSearchResult_bolds_hit_lines
        (stripTags : str -> str) (fileContent : TextView)
        (searchPositions : list Z) (searchString : str) :
  searchPositions <> [] ->
  let content := GetText stripTags fileContent true in
  let hit := fun ol : Z * str =>
               existsb (fun p => (fst ol <=? p) && (p <? fst ol + len (snd ol)))
                       searchPositions in
  let shown := tvText (highlightSearchResult stripTags fileContent
                                             searchPositions searchString) in
  shown = joinLines0 (map (fun ol => if hit ol then bold (snd ol) else snd ol)
                          (lineSpans content))
  /\ joinLines0 (map snd (lineSpans content)) = content
  /\ Forall (fun ol => exists a b,
                 content = a ++ snd ol ++ b /\ len a = fst ol)
            (lineSpans content)
  /\ ((forall p, In p searchPositions -> p < 0 \/ len content <= p) ->
      shown = content).
Proof.
  intros Hne content hit shown.
  assert (Hshown : shown
                   = joinLines0
                       (map (fun ol => if hit ol then bold (snd ol) else snd ol)
                            (lineSpans content))).
  { unfold shown, highlightSearchResult.
    destruct searchPositions as [|p ps]; [congruence|].
    cbn [List.length]. replace (Z.of_nat (S (List.length ps)) =? 0) with false
      by (symmetry; apply Z.eqb_neq; lia).
    cbn [SetText tvText]. apply highlightLoop_spans. }
  assert (Hjoin : joinLines0 (map snd (lineSpans content)) = content).
  { unfold lineSpans. rewrite withOffsets_lines. apply joinLines0_splitLines. }
  assert (Hspans : Forall (fun ol => exists a b,
                               content = a ++ snd ol ++ b /\ len a = fst ol)
                          (lineSpans content)).
  { pose proof (withOffsets_true (splitLines content) []) as H.
    rewrite joinLines0_splitLines in H. exact H. }
  split; [exact Hshown|]. split; [exact Hjoin|]. split; [exact Hspans|].
  intros Hout. rewrite Hshown.
  transitivity (joinLines0 (map snd (lineSpans content))); [|exact Hjoin].
  f_equal. apply map_ext_in. intros ol Hol.
  rewrite Forall_forall in Hspans. destruct (Hspans ol Hol) as [a [b [E La]]].
  replace (hit ol) with false; [reflexivity|].
  symmetry. unfold hit. apply not_true_is_false. intros Hex.
  apply existsb_exists in Hex. destruct Hex as [p [Hp Hr]].
  apply andb_true_iff in Hr. destruct Hr as [H1 H2].
  apply Z.leb_le in H1. apply Z.ltb_lt in H2.
  assert (len content = len a + len (snd ol) + len b).
  { rewrite E, !len_app. apply Z.add_assoc. }
  pose proof (len_nonneg a). pose proof (len_nonneg b).
  pose proof (len_nonneg (snd ol)).
  unfold str in *.
  destruct (Hout p Hp) as [Hneg | Hbig]; [lia|].
  rewrite H in Hbig. lia.
Qed.

Lemma highlightSearchResult_bolds_hit_lines_witness :
  tvText (highlightSearchResult (fun s => s)
            (viewOf (lit "ab" ++ [nl] ++ lit "cd")) [4; 2] [])
  = joinLines0 [lit "ab"; bold (lit "cd")].
Proof.
  apply (highlightSearchResult_bolds_hit_lines (fun s => s)
           (viewOf (lit "ab" ++ [nl] ++ lit "cd")) [4; 2] []).
  discriminate.
Defined.

(** ** A greedy star over a character class *)

Lemma skipn_nth_cons (s : str) (i : nat) (a : ascii) :
  nth_error s i = Some a -> skipn i s = a :: skipn (S i) s.
Proof.
  revert i. induction s as [|x s IH]; intros [|i] H; simpl in H;
    try discriminate.
  - injection H as ->. reflexivity.
  - simpl. apply IH. exact H.
Qed.

Lemma skipn_nth_none (s : str) (i : nat) :
  nth_error s i = None -> skipn i s = [].
Proof.
  intros H. apply nth_error_None in H. apply skipn_all2. exact H.
Qed.

Lemma nth_error_skipn_head (s : str) (i : nat) :
  nth_error s i = match skipn i s with [] => None | a :: _ => Some a end.
Proof.
  destruct (nth_error s i) as [a|] eqn:E.
  - rewrite (skipn_nth_cons _ _ _ E). reflexivity.
  - rewrite (skipn_nth_none _ _ E). reflexivity.
Qed.

(** When the continuation fails on every character of the class, the
    greedy star takes the whole run of them and continues behind it. *)
Lemma starLoop_greedy_class (s : str) (R : Type) (p : ascii -> bool)
      (k : nat -> caps -> option R) (c : caps) (n : nat) :
  forall i,
    (spanLen p (skipn i s) < n)%nat ->
    (forall j, (i <= j < i + spanLen p (skipn i s))%nat -> k j c = None) ->
    starLoop R (run s R (Chr p)) true k n i c
    = k (i + spanLen p (skipn i s))%nat c.
Proof.
  induction n as [|n IH]; intros i Hn Hk; [lia|].
  cbn [starLoop run].
  destruct (nth_error s i) as [a|] eqn:E.
  - rewrite (skipn_nth_cons _ _ _ E) in Hn, Hk |- *. cbn [spanLen] in *.
    destruct (p a) eqn:Ep.
    + replace (i <? S i)%nat with true by (symmetry; apply Nat.ltb_lt; lia).
      rewrite IH; [| lia | intros j Hj; apply Hk; lia].
      replace (i + S (spanLen p (skipn (S i) s)))%nat
        with (S i + spanLen p (skipn (S i) s))%nat by lia.
      destruct (k (S i + spanLen p (skipn (S i) s))%nat c) eqn:Ek;
        [reflexivity|].
      apply Hk. lia.
    + rewrite Nat.add_0_r. reflexivity.
  - rewrite (skipn_nth_none _ _ E). cbn [spanLen].
    rewrite Nat.add_0_r. reflexivity.
Qed.

Lemma spanLen_le (p : ascii -> bool) (l : str) :
  (spanLen p l <= List.length l)%nat.
Proof.
  induction l as [|c t IH]; simpl; [lia|]. destruct (p c); simpl; lia.
Qed.

Lemma spanLen_inside (p : ascii -> bool) (s : str) (i j : nat) (a : ascii) :
  (i <= j < i + spanLen p (skipn i s))%nat ->
  nth_error s j = Some a -> p a = true.
Proof.
  revert i j. induction s as [|x s IH]; intros i j Hj Hn.
  - rewrite skipn_nil in Hj. simpl in Hj. lia.
  - destruct i as [|i].
    + simpl in Hj. destruct (p x) eqn:Ep; [|lia].
      destruct j as [|j]; simpl in Hn.
      * injection Hn as <-. exact Ep.
      * apply (IH 0%nat j); [simpl; lia | exact Hn].
    + destruct j as [|j]; [lia|]. simpl in Hj, Hn.
      apply (IH i j); [lia | exact Hn].
Qed.

(** ** The color-code pattern against the scanner [untag] *)

(** Where the text continues behind the first closing bracket. *)
Lemma untag_skipping (l : str) :
  untag true l
  = match nth_error l (spanLen (isNot "]") l) with
    | Some _ => untag false (skipn (S (spanLen (isNot "]") l)) l)
    | None => []
    end.
Proof.
  induction l as [|c t IH]; [reflexivity|].
  cbn [untag spanLen]. unfold isNot at 1 3 4.
  destruct (Ascii.eqb c "]"); simpl; [reflexivity | exact IH].
Qed.

Lemma closing_ahead (l : str) :
  existsb (fun x => Ascii.eqb x "]") l
  = match nth_error l (spanLen (isNot "]") l) with
    | Some _ => true
    | None => false
    end.
Proof.
  induction l as [|c t IH]; [reflexivity|].
  cbn [existsb spanLen]. unfold isNot at 1 2.
  destruct (Ascii.eqb c "]"); simpl; [reflexivity | exact IH].
Qed.

Lemma span_stops_at_closing (l : str) (a : ascii) :
  nth_error l (spanLen (isNot "]") l) = Some a -> a = "]"%char.
Proof.
  induction l as [|c t IH]; [discriminate|].
  cbn [spanLen]. unfold isNot at 1 2.
  destruct (Ascii.eqb c "]") eqn:E; simpl.
  - intros [= <-]. apply Ascii.eqb_eq. exact E.
  - exact IH.
Qed.

Lemma nth_error_skipn_plus (s : str) (i m : nat) :
  nth_error (skipn i s) m = nth_error s (i + m).
Proof.
  revert i. induction s as [|x s IH]; intros [|i]; simpl;
    try reflexivity.
  - destruct m; reflexivity.
  - apply IH.
Qed.

(** The match of the color-code pattern at offset [i], if there is one. *)
Lemma matchAt_tagRegex (s : str) (i : nat) :
  matchAt tagRegex s i
  = match skipn i s with
    | c :: t =>
        if Ascii.eqb c "[" && existsb (fun x => Ascii.eqb x "]") t
        then Some (i, S (S (i + spanLen (isNot "]") t)), noCaps)
        else None
    | [] => None
    end.
Proof.
  unfold matchAt, tagRegex.
  change (run s matchT
              (Seq (C "[") (Seq (Star true (Chr (isNot "]"))) (C "]")))
              i noCaps (fun j c => Some (i, j, c)))
    with (match nth_error s i with
          | Some a =>
              if isChar "[" a
              then starLoop matchT (run s matchT (Chr (isNot "]"))) true
                            (fun j c' =>
                               run s matchT (C "]") j c'
                                   (fun j c => Some (i, j, c)))
                            (S (List.length s - S i)) (S i) noCaps
              else None
          | None => None
          end).
  rewrite nth_error_skipn_head.
  destruct (skipn i s) as [|c t] eqn:El; [reflexivity|].
  assert (Ht : skipn (S i) s = t).
  { replace (S i) with (i + 1)%nat by lia.
    rewrite skipn_plus, El. reflexivity. }
  unfold isChar at 1. destruct (Ascii.eqb c "[") eqn:Ec; [|reflexivity].
  cbn [andb].
  rewrite starLoop_greedy_class.
  - rewrite Ht. cbn beta. cbn [run C].
    rewrite <- (nth_error_skipn_plus s (S i)), Ht, closing_ahead.
    destruct (nth_error t (spanLen (isNot "]") t)) as [a|] eqn:En;
      [|reflexivity].
    rewrite (span_stops_at_closing _ _ En).
    change (isChar "]" "]") with true. cbv iota. reflexivity.
  - rewrite Ht. pose proof (spanLen_le (isNot "]") t).
    assert (List.length t = List.length s - S i)%nat
      by (rewrite <- Ht, length_skipn; reflexivity).
    lia.
  - intros j Hj. cbn [run C].
    destruct (nth_error s j) as [a|] eqn:En; [|reflexivity].
    pose proof (spanLen_inside _ _ _ _ _ Hj En) as Ha.
    unfold isNot in Ha. unfold isChar.
    apply negb_true_iff in Ha. rewrite Ha. reflexivity.
Qed.

Lemma scanFrom_tagRegex (s : str) (n : nat) :
  forall pos,
    n = (List.length s - pos)%nat -> (pos <= List.length s)%nat ->
    match scanFrom tagRegex s n pos with
    | None => untag false (skipn pos s) = skipn pos s
    | Some (a0, a1, _) =>
        (pos <= a0 /\ a0 < a1 /\ a1 <= List.length s)%nat
        /\ untag false (skipn pos s)
           = sub s pos a0 ++ untag false (skipn a1 s)
    end.
Proof.
  induction n as [|n IH]; intros pos Hn Hp.
  - assert (El : skipn pos s = []) by (apply skipn_all2; lia).
    cbn [scanFrom]. rewrite matchAt_tagRegex, El. reflexivity.
  - cbn [scanFrom]. rewrite matchAt_tagRegex.
    destruct (skipn pos s) as [|c t] eqn:El.
    { exfalso. assert (List.length (skipn pos s) = 0%nat)
        by (rewrite El; reflexivity).
      rewrite length_skipn in H. lia. }
    assert (Ht : skipn (S pos) s = t).
    { replace (S pos) with (pos + 1)%nat by lia.
      rewrite skipn_plus, El. reflexivity. }
    assert (Hlt : List.length t = (List.length s - S pos)%nat)
      by (rewrite <- Ht; apply length_skipn).
    cbn [untag].
    destruct (Ascii.eqb c "[" && existsb (fun x => Ascii.eqb x "]") t)
      eqn:Ec.
    + apply andb_true_iff in Ec. destruct Ec as [_ Ec].
      rewrite closing_ahead in Ec. rewrite untag_skipping.
      destruct (nth_error t (spanLen (isNot "]") t)) as [a|] eqn:En;
        [|discriminate].
      assert (spanLen (isNot "]") t < List.length t)%nat
        by (apply nth_error_Some; congruence).
      split; [lia|]. rewrite sub_empty. cbn [app].
      f_equal. rewrite <- Ht, <- skipn_plus. f_equal. lia.
    + specialize (IH (S pos) ltac:(lia) ltac:(lia)).
      destruct (scanFrom tagRegex s n (S pos)) as [[[a0 a1] c0]|].
      * destruct IH as [Hb IH]. split; [lia|].
        rewrite Ht in IH. rewrite IH.
        rewrite (sub_split s pos (S pos) a0) by lia.
        assert (Hn1 : nth_error s pos = Some c)
          by (rewrite nth_error_skipn_head, El; reflexivity).
        rewrite (sub_one _ _ _ Hn1). reflexivity.
      * rewrite Ht in IH. rewrite IH. reflexivity.
Qed.

Lemma expand_empty (src : str) (m : matchT) : expand [] src m = [].
Proof. destruct m as [[a0 a1] c]. reflexivity. Qed.

Lemma replaceLoop_tagRegex (s : str) (fuel : nat) :
  forall pos buf,
    (pos <= List.length s)%nat ->
    (List.length s + 2 <= fuel + pos)%nat ->
    replaceLoop tagRegex s (fun m => Returns (expand [] s m)) fuel pos pos buf
    = Returns (buf ++ untag false (skipn pos s)).
Proof.
  induction fuel as [|fuel IH]; intros pos buf Hp Hf; [lia|].
  cbn [replaceLoop].
  replace (List.length s <? pos)%nat with false
    by (symmetry; apply Nat.ltb_ge; exact Hp).
  unfold doExecute.
  pose proof (scanFrom_tagRegex s (List.length s - pos) pos eq_refl Hp) as H.
  destruct (scanFrom tagRegex s (List.length s - pos) pos)
    as [[[a0 a1] c]|].
  - destruct H as [[H1 [H2 H3]] H]. rewrite expand_empty.
    replace ((pos <? a1)%nat || (a0 =? 0)%nat) with true
      by (symmetry; apply orb_true_iff; left; apply Nat.ltb_lt; lia).
    cbn [bind].
    replace (if (a1 <? pos + (if (pos <? List.length s)%nat then 1 else 0))%nat
             then (pos + (if (pos <? List.length s)%nat then 1 else 0))%nat
             else if (a1 <? pos + 1)%nat then (pos + 1)%nat else a1)
      with a1.
    + rewrite IH by lia. rewrite H, app_nil_r, <- app_assoc. reflexivity.
    + replace (pos <? List.length s)%nat with true
        by (symmetry; apply Nat.ltb_lt; lia).
      replace (a1 <? pos + 1)%nat with false
        by (symmetry; apply Nat.ltb_ge; lia).
      reflexivity.
  - rewrite H. reflexivity.
Qed.

Lemma ReplaceAllString_tagRegex (s : str) :
  ReplaceAllString tagRegex s [] = Returns (untag false s).
Proof.
  unfold ReplaceAllString, replaceAll.
  rewrite replaceLoop_tagRegex by lia. reflexivity.
Qed.

(** ** [updateActiveFileHighlight] *)

(** X10: the first loop of [updateActiveFileHighlight], which replaces
    every match of the pattern for a color code by nothing, never fails
    and keeps the items and their actions in place; from each item text
    it drops every span from an opening bracket to the next closing
    bracket, and nothing else: an opening bracket that has no closing
    bracket behind it stays, and so does a closing bracket that no
    opening one precedes. *)
Theorem stripItems_untags (items : list (str * action)) :
  stripItems items
  = Returns (map (fun it => (untag false (fst it), snd it)) items).
Proof.
  induction items as [|[t a] rest IH]; [reflexivity|].
  cbn [stripItems map fst snd].
  rewrite ReplaceAllString_tagRegex, IH. reflexivity.
Qed.

Lemma untag_plain (s : str) :
  existsb (fun x => Ascii.eqb x "[") s = false -> untag false s = s.
Proof.
  induction s as [|c t IH]; [reflexivity|].
  cbn [existsb untag]. intros H. apply orb_false_iff in H.
  destruct H as [Hc Ht]. rewrite Hc. cbn [andb]. rewrite (IH Ht).
  reflexivity.
Qed.

Lemma untag_plain_reset (s : str) :
  existsb (fun x => Ascii.eqb x "[") s = false ->
  untag false (s ++ lit "[-]") = s.
Proof.
  induction s as [|c t IH]; [reflexivity|].
  cbn [existsb]. intros H. apply orb_false_iff in H.
  destruct H as [Hc Ht]. cbn [app untag]. rewrite Hc. cbn [andb].
  rewrite (IH Ht). reflexivity.
Qed.

Lemma untag_wrapped (s : str) :
  existsb (fun x => Ascii.eqb x "[") s = false ->
  untag false (lit "[lightgreen]" ++ s ++ lit "[-]") = s.
Proof.
  intros H. rewrite <- (untag_plain_reset s H) at 2. reflexivity.
Qed.

Lemma markActive_outside (items : list (str * action)) :
  forall k i, i < k \/ k + Z.of_nat (List.length items) <= i ->
              markActive items k i = items.
Proof.
  induction items as [|[t a] rest IH]; intros k i H; [reflexivity|].
  cbn [markActive List.length] in *.
  replace (k =? i) with false by (symmetry; apply Z.eqb_neq; lia).
  rewrite IH by lia. reflexivity.
Qed.

Lemma stripItems_markActive (items : list (str * action)) :
  bracketFree items ->
  forall k i, stripItems (markActive items k i) = Returns items.
Proof.
  induction 1 as [|[t a] rest Ht _ IH]; intros k i; [reflexivity|].
  cbn [markActive stripItems]. rewrite ReplaceAllString_tagRegex, IH.
  simpl in Ht. destruct (k =? i);
    [rewrite (untag_wrapped t Ht) | rewrite (untag_plain t Ht)];
    reflexivity.
Qed.

Lemma markActive_nth (items : list (str * action)) :
  forall k i n t a,
    nth_error items n = Some (t, a) ->
    nth_error (markActive items k i) n
    = Some (if k + Z.of_nat n =? i
            then lit "[lightgreen]" ++ t ++ lit "[-]" else t, a).
Proof.
  induction items as [|[t0 a0] rest IH]; intros k i n t a H;
    destruct n as [|n]; simpl in H; try discriminate.
  - injection H as -> ->. cbn [markActive nth_error].
    rewrite Z.add_0_r. reflexivity.
  - cbn [markActive nth_error]. rewrite (IH (k + 1) i n t a H).
    replace (k + 1 + Z.of_nat n) with (k + Z.of_nat (S n)) by lia.
    reflexivity.
Qed.

Lemma updateActiveFileHighlight_marked (items : list (str * action)) (i j : Z) :
  bracketFree items ->
  updateActiveFileHighlight (markActive items 0 i) j
  = Returns (markActive items 0 j).
Proof.
  intros Hfree. unfold updateActiveFileHighlight.
  rewrite (stripItems_markActive items Hfree). reflexivity.
Qed.

Lemma updateActiveFileHighlight_plain (items : list (str * action)) (j : Z) :
  bracketFree items ->
  updateActiveFileHighlight items j = Returns (markActive items 0 j).
Proof.
  intros Hfree.
  rewrite <- (markActive_outside items 0 (-1)) at 1 by lia.
  apply updateActiveFileHighlight_marked. exact Hfree.
Qed.

(** X11: on a list whose item texts hold no opening bracket,
    [updateActiveFileHighlight] returns the items with the text of the
    item at the active index wrapped in the light-green code and the
    reset code, every other text and every action as it was; an index
    outside the list marks nothing.  Run again on its own result with
    another index it moves the mark: the old code pair is taken out
    before the new one is put in, so at most one item is marked. *)
Theorem updateActiveFileHighlight_moves_mark
        (items : list (str * action)) (i j : Z) :
  bracketFree items ->
  updateActiveFileHighlight items i = Returns (markActive items 0 i)
  /\ updateActiveFileHighlight (markActive items 0 i) j
     = Returns (markActive items 0 j)
  /\ (forall n t a,
         nth_error items n = Some (t, a) ->
         nth_error (markActive items 0 i) n
         = Some (if Z.of_nat n =? i
                 then lit "[lightgreen]" ++ t ++ lit "[-]" else t, a))
  /\ (i < 0 \/ Z.of_nat (List.length items) <= i ->
      markActive items 0 i = items).
Proof.
  intros Hfree. unfold updateActiveFileHighlight.
  split; [|split; [|split]].
  - rewrite <- (markActive_outside items 0 (-1)) at 1 by lia.
    rewrite (stripItems_markActive items Hfree). reflexivity.
  - rewrite (stripItems_markActive items Hfree). reflexivity.
  - intros n t a H. rewrite (markActive_nth items 0 i n t a H). reflexivity.
  - intros H. apply markActive_outside. lia.
Qed.

Lemma updateActiveFileHighlight_moves_mark_witness :
  updateActiveFileHighlight (fileList listedOne) 0
  = Returns (markActive (fileList listedOne) 0 0)
  /\ updateActiveFileHighlight (markActive (fileList listedOne) 0 0) 5
     = Returns (fileList listedOne).
Proof.
  destruct (updateActiveFileHighlight_moves_mark (fileList listedOne) 0 5)
    as [H1 [H2 _]].
  - repeat constructor.
  - split; [exact H1 | exact H2].
Defined.

(** ** Opening a file *)

Lemma runAction_success
      (readFileContent : str -> str + str) (Value : Type)
      (Unmarshal : str -> Value + str) (MarshalIndentValue : Value -> str)
      (act : action) (st : appState) (content : str) (v : Value) :
  readFileContent (actFile act) = inl content ->
  Unmarshal content = inl v ->
  bracketFree (fileList st) ->
  exists colored,
    colorizeJSON (MarshalIndentValue v) = Returns colored
    /\ runAction readFileContent Value Unmarshal MarshalIndentValue act st
       = Returns
           (set_files (markActive (fileList st) 0 (actFileIndex act))
                      (actionFuncs st)
                      (set_activeFileIndex (actFileIndex act)
                         (set_fileContent
                            (SetTitle (Base (actFile act))
                                      (SetText colored (fileContent st)))
                            st))).
Proof.
  intros H1 H2 Hfree. unfold runAction. rewrite H1, H2.
  destruct (colorizeJSON_returns (MarshalIndentValue v)) as [colored [Ec _]].
  exists colored. split; [exact Ec|]. rewrite Ec. cbn [bind].
  cbn [fileList activeFileIndex set_activeFileIndex set_fileContent].
  rewrite (updateActiveFileHighlight_plain
             (fileList st) (actFileIndex act) Hfree). reflexivity.
Qed.





(** X14: with the file list focused, Enter panics when the index the
    list reports as current is no index of an action function: the slice
    is indexed before anything else happens.  This is so for every index
    when no file is listed (a directory without JSON files, or a walk
    that failed). *)
Theorem openSelected_without_action_panics
        (readFileContent : str -> str + str) (Value : Type)
        (Unmarshal : str -> Value + str) (MarshalIndentValue : Value -> str)
        (current : Z) (st : appState) :
  current < 0 \/ Z.of_nat (List.length (actionFuncs st)) <= current ->
  openSelected readFileContent Value Unmarshal MarshalIndentValue current st
  = Panics.
Proof.
  intros H. unfold openSelected, index_at.
  cbn [actionFuncs activeFileIndex set_activeFileIndex].
  replace ((0 <=? current)
           && (current <? Z.of_nat (List.length (actionFuncs st))))
    with false; [reflexivity|].
  symmetry. apply andb_false_iff.
  destruct H; [left; apply Z.leb_gt | right; apply Z.ltb_ge]; lia.
Qed.

Lemma openSelected_without_action_panics_witness :
  openSelected readOnlyA str braceDecoder (fun v => v) 0
               (reloadJSONFiles walkOne expired (lit ".") listedOne)
  = Panics.
Proof.
  apply openSelected_without_action_panics. right. vm_compute. congruence.
Defined.

Lemma bracketFree_itemsFor (files : list str) :
  Forall (fun f => existsb (fun x => Ascii.eqb x "[") f = false) files ->
  forall i, bracketFree (itemsFor files i).
Proof.
  induction 1 as [|f rest Hf _ IH]; intros i; unfold bracketFree;
    cbn [itemsFor]; constructor; [exact Hf | apply IH].
Qed.



(** X16: after a reload that listed [files] (paths without opening
    bracket), Enter on item [k], whose file is read and decoded, shows
    that file: the content pane holds its colorized pretty-printed text
    under its base name, [k] is the active index, item [k] and no other
    is marked in the list, and the focus is on the content pane. *)
Theorem openSelected_after_reload_shows_file
        (Walk : str -> list walkEntry) (ctx : context) (dir : str)
        (readFileContent : str -> str + str) (Value : Type)
        (Unmarshal : str -> Value + str) (MarshalIndentValue : Value -> str)
        (st0 : appState) (files : list str) (k : nat) (file content : str)
        (v : Value) :
  loadJSONFilesWithContext Walk ctx dir = inl files ->
  Forall (fun f => existsb (fun x => Ascii.eqb x "[") f = false) files ->
  nth_error files k = Some file ->
  readFileContent file = inl content ->
  Unmarshal content = inl v ->
  exists colored st',
    colorizeJSON (MarshalIndentValue v) = Returns colored
    /\ openSelected readFileContent Value Unmarshal MarshalIndentValue
                    (Z.of_nat k) (reloadJSONFiles Walk ctx dir st0)
       = Returns st'
    /\ tvText (fileContent st') = colored
    /\ tvTitle (fileContent st') = Base file
    /\ activeFileIndex st' = Z.of_nat k
    /\ fileList st' = markActive (itemsFor files 0) 0 (Z.of_nat k)
    /\ focus st' = FileContentW.
Proof.
  intros Hload Hfree Hn Hread Hdec.
  pose proof (bracketFree_itemsFor files Hfree 0) as Hitems.
  set (act := {| actFile := file; actFileIndex := Z.of_nat k |}).
  set (st := reloadJSONFiles Walk ctx dir st0).
  assert (Hlist : fileList st = itemsFor files 0).
  { unfold st, reloadJSONFiles. rewrite Hload, addItems_spec. reflexivity. }
  assert (Hacts : nth_error (actionFuncs st) k = Some act).
  { unfold st, reloadJSONFiles. rewrite Hload, addItems_spec.
    cbn [actionFuncs set_files set_debugText log_info app].
    rewrite nth_error_map, (itemsFor_nth files 0 k file Hn). reflexivity. }
  destruct (runAction_success readFileContent Value Unmarshal
              MarshalIndentValue act (set_activeFileIndex (Z.of_nat k) st)
              content v Hread Hdec)
    as [colored [Ec Hrun]].
  { cbn [fileList set_activeFileIndex]. rewrite Hlist. exact Hitems. }
  exists colored. unfold openSelected.
  cbn [actionFuncs activeFileIndex set_activeFileIndex].
  rewrite (index_at_nth _ (Z.of_nat k) act)
    by (rewrite ?Nat2Z.id; auto; lia).
  cbn [bind]. rewrite Hrun. cbn [bind].
  cbn [fileList activeFileIndex actionFuncs set_files set_activeFileIndex
       set_fileContent actFileIndex act].
  rewrite Hlist, (updateActiveFileHighlight_marked _ _ _ Hitems).
  cbn [bind]. eexists. split; [exact Ec|]. split; [reflexivity|].
  repeat split.
Qed.

Lemma openSelected_after_reload_shows_file_witness :
  exists colored st',
    colorizeJSON (jlit "{'k': 1}") = Returns colored
    /\ openSelected readOnlyA str braceDecoder (fun v => v)
                    (Z.of_nat 0)
                    (reloadJSONFiles walkTwo background (lit ".") listedOne)
       = Returns st'
    /\ tvText (fileContent st') = colored
    /\ tvTitle (fileContent st') = Base (lit "a.json")
    /\ activeFileIndex st' = Z.of_nat 0
    /\ fileList st'
       = markActive (itemsFor [lit "a.json"; lit "b.json"] 0) 0 (Z.of_nat 0)
    /\ focus st' = FileContentW.
Proof.
  apply (openSelected_after_reload_shows_file
           walkTwo background (lit ".") readOnlyA str braceDecoder
           (fun v => v) listedOne [lit "a.json"; lit "b.json"] 0
           (lit "a.json") (jlit "{'k': 1}") (jlit "{'k': 1}")).
  - reflexivity.
  - repeat constructor.
  - reflexivity.
  - reflexivity.
  - reflexivity.
Defined.

(** ** The layout *)

(** X17: [toggleLayout] does nothing while the second pane is hidden.
    While it is shown, each call flips [layoutHorizontal] and lays the
    three panes out anew, in the same order: in rows with equal shares
    after a horizontal layout, in columns with shares 1, 2, 2 after a
    vertical one.  So after the first call a pair of calls changes
    nothing. *)
Theorem toggleLayout_alternates (l : layout) :
  toggleLayout (toggleLayout (toggleLayout l)) = toggleLayout l
  /\ (if secondFileVisible l then
        layoutHorizontal (toggleLayout l) = negb (layoutHorizontal l)
        /\ mainDirection (toggleLayout l)
           = (if layoutHorizontal l then FlexRow else FlexColumn)
        /\ map itemPane (mainItems (toggleLayout l))
           = [FileListPane; FileContentPane; SecondContentPane]
        /\ map proportion (mainItems (toggleLayout l))
           = (if layoutHorizontal l then [1; 1; 1] else [1; 2; 2])
      else toggleLayout l = l).
Proof.
  destruct l as [d items h v s]. unfold toggleLayout.
  destruct v, h; cbn; repeat split.
Qed.

Lemma index_at_nat {A} (xs : list A) (k : nat) (x : A) :
  nth_error xs k = Some x -> index_at xs (Z.of_nat k) = Returns x.
Proof.
  intros H. apply index_at_nth; [lia|]. rewrite Nat2Z.id. exact H.
Qed.

(** X18: after file [k] of the list was opened, its item text carries
    the mark; [toggleCompareView] on that item asks [readFileContent] for
    the joined path of the marked text, color codes included.  When no
    such file can be read the second pane is not shown: the flex is as
    it was, the pane exists but stays hidden, the status line reports
    the failure and the error log names the marked text. *)
Theorem toggleCompareView_reads_marked_name
        (readFileContent : str -> str + str) (Value : Type)
        (Unmarshal : str -> Value + str) (MarshalIndentValue : Value -> str)
        (Join : str -> str -> str)
        (files : list str) (k : nat) (file err : str)
        (st : appState) (l : layout) :
  fileList st = markActive (itemsFor files 0) 0 (Z.of_nat k) ->
  nth_error files k = Some file ->
  secondFileVisible l = false ->
  readFileContent (Join (lit ".") (lit "[lightgreen]" ++ file ++ lit "[-]"))
  = inr err ->
  exists st' l',
    toggleCompareView readFileContent Value Unmarshal MarshalIndentValue Join
                      (Z.of_nat k) st l
    = Returns (st', l')
    /\ secondFileVisible l' = false
    /\ mainItems l' = mainItems l
    /\ secondFileContent l' <> None
    /\ errorLog st'
       = errorLog st
         ++ [lit "Failed to read file " ++ lit "[lightgreen]" ++ file
                 ++ lit "[-]" ++ lit ": " ++ err]
    /\ tvText (debugView st')
       = lit "[red]Failed to read file. Check error log for details.[-]"
    /\ fileContent st' = fileContent st.
Proof.
  intros Hlist Hn Hvis Hread. unfold toggleCompareView. rewrite Hvis, Hlist.
  pose proof (markActive_nth (itemsFor files 0) 0 (Z.of_nat k) k file _
                (itemsFor_nth files 0 k file Hn)) as Hit.
  cbn [Z.add] in Hit. rewrite Z.eqb_refl in Hit.
  rewrite (index_at_nat _ _ _ Hit). cbn [bind fst].
  rewrite Hread. do 2 eexists. split; [reflexivity|].
  cbn. repeat split; try reflexivity.
  - destruct (secondFileContent l); discriminate.
  - rewrite <- !app_assoc. reflexivity.
Qed.

Lemma toggleCompareView_reads_marked_name_witness :
  exists st' l',
    toggleCompareView readOnlyA str braceDecoder (fun v => v) joinPlain
                      (Z.of_nat 0)
                      (set_files (markActive (fileList listedTwo) 0 0)
                                 (actionFuncs listedTwo) listedTwo)
                      setupLayout
    = Returns (st', l')
    /\ secondFileVisible l' = false
    /\ mainItems l' = mainItems setupLayout
    /\ secondFileContent l' <> None
    /\ errorLog st'
       = errorLog listedTwo
         ++ [lit "Failed to read file " ++ lit "[lightgreen]" ++ lit "a.json"
                 ++ lit "[-]" ++ lit ": "
                 ++ lit "failed to open file: no such file or directory"]
    /\ tvText (debugView st')
       = lit "[red]Failed to read file. Check error log for details.[-]"
    /\ fileContent st' = fileContent listedTwo.
Proof.
  apply (toggleCompareView_reads_marked_name
           readOnlyA str braceDecoder (fun v => v) joinPlain
           [lit "a.json"; lit "b.json"] 0 (lit "a.json")
           (lit "failed to open file: no such file or directory")
           (set_files (markActive (fileList listedTwo) 0 0)
                      (actionFuncs listedTwo) listedTwo)
           setupLayout); reflexivity.
Defined.

Lemma filter_keeps_all {A} (f : A -> bool) (xs : list A) :
  forallb f xs = true -> filter f xs = xs.
Proof.
  induction xs as [|x rest IH]; [reflexivity|].
  cbn [forallb filter]. intros H. apply andb_true_iff in H.
  destruct H as [H1 H2]. rewrite H1, (IH H2). reflexivity.
Qed.

(** X19: with the second pane hidden and not in the flex,
    [toggleCompareView] on an item whose file is read and decoded adds
    the pane as the last item of the flex with share 2, shows the
    colorized text in it under the item text as title and sets the
    visible flag; called again it takes the pane out of the flex and
    clears the flag, so that flex and flag are as before the first call,
    whereas the pane keeps text and title.  Neither call touches the
    application state. *)
Theorem toggleCompareView_show_then_hide
        (readFileContent : str -> str + str) (Value : Type)
        (Unmarshal : str -> Value + str) (MarshalIndentValue : Value -> str)
        (Join : str -> str -> str)
        (k : nat) (item : str * action) (content : str) (v : Value)
        (st : appState) (l : layout) :
  secondFileVisible l = false ->
  forallb (fun it => negb (isSecondPane it)) (mainItems l) = true ->
  nth_error (fileList st) k = Some item ->
  readFileContent (Join (lit ".") (fst item)) = inl content ->
  Unmarshal content = inl v ->
  exists colored shown hidden,
    colorizeJSON (MarshalIndentValue v) = Returns colored
    /\ toggleCompareView readFileContent Value Unmarshal MarshalIndentValue
                         Join (Z.of_nat k) st l
       = Returns (st, shown)
    /\ secondFileVisible shown = true
    /\ mainItems shown
       = mainItems l ++ [ {| itemPane := SecondContentPane; fixedSize := 0;
                             proportion := 2; itemFocus := false |} ]
    /\ option_map tvText (secondFileContent shown) = Some colored
    /\ option_map tvTitle (secondFileContent shown) = Some (fst item)
    /\ toggleCompareView readFileContent Value Unmarshal MarshalIndentValue
                         Join (Z.of_nat k) st shown
       = Returns (st, hidden)
    /\ secondFileVisible hidden = false
    /\ mainItems hidden = mainItems l
    /\ mainDirection hidden = mainDirection l
    /\ layoutHorizontal hidden = layoutHorizontal l
    /\ secondFileContent hidden = secondFileContent shown.
Proof.
  intros Hvis Hitems Hn Hread Hdec.
  destruct (colorizeJSON_returns (MarshalIndentValue v)) as [colored [Ec _]].
  exists colored. unfold toggleCompareView at 1. rewrite Hvis.
  rewrite (index_at_nat _ _ _ Hn). cbn [bind].
  rewrite Hread, Hdec, Ec. cbn [bind].
  eexists. eexists. split; [reflexivity|]. split; [reflexivity|].
  unfold toggleCompareView. cbn [secondFileVisible mainItems mainDirection
                                 layoutHorizontal secondFileContent].
  split; [reflexivity|]. split; [reflexivity|].
  split; [reflexivity|]. split; [reflexivity|].
  split; [reflexivity|]. split; [reflexivity|].
  split; [|repeat split].
  rewrite filter_app. cbn [filter isSecondPane itemPane negb].
  rewrite app_nil_r. apply filter_keeps_all. exact Hitems.
Qed.

Lemma toggleCompareView_show_then_hide_witness :
  exists colored shown hidden,
    colorizeJSON (jlit "{'k': 1}") = Returns colored
    /\ toggleCompareView readOnlyA str braceDecoder (fun v => v) joinPlain
                         (Z.of_nat 0) listedTwo setupLayout
       = Returns (listedTwo, shown)
    /\ secondFileVisible shown = true
    /\ mainItems shown
       = mainItems setupLayout
         ++ [ {| itemPane := SecondContentPane; fixedSize := 0;
                 proportion := 2; itemFocus := false |} ]
    /\ option_map tvText (secondFileContent shown) = Some colored
    /\ option_map tvTitle (secondFileContent shown) = Some (lit "a.json")
    /\ toggleCompareView readOnlyA str braceDecoder (fun v => v) joinPlain
                         (Z.of_nat 0) listedTwo shown
       = Returns (listedTwo, hidden)
    /\ secondFileVisible hidden = false
    /\ mainItems hidden = mainItems setupLayout
    /\ mainDirection hidden = mainDirection setupLayout
    /\ layoutHorizontal hidden = layoutHorizontal setupLayout
    /\ secondFileContent hidden = secondFileContent shown.
Proof.
  apply (toggleCompareView_show_then_hide
           readOnlyA str braceDecoder (fun v => v) joinPlain 0
           (lit "a.json", {| actFile := lit "a.json"; actFileIndex := 0 |})
           (jlit "{'k': 1}") (jlit "{'k': 1}") listedTwo setupLayout);
    reflexivity.
Defined.

(** ** Reading a file *)

Lemma readLoop_chunks (chunks : list str) (tail : list readResult)
      (content : str) :
  Forall (fun c => c <> []) chunks ->
  readLoop (map okRead chunks ++ tail) content
  = readLoop tail (content ++ List.concat chunks).
Proof.
  intros H. revert content.
  induction H as [|c rest Hc _ IH]; intros content.
  - cbn. rewrite app_nil_r. reflexivity.
  - cbn [map app readLoop okRead readErr readBytes List.concat].
    destruct c as [|x c]; [congruence|].
    replace (len (x :: c) =? 0) with false.
    + rewrite IH, <- app_assoc. reflexivity.
    + symmetry. apply Z.eqb_neq. unfold len. cbn [List.length]. lia.
Qed.

(** X20: [readFileContent] returns the bytes of the reads in order, up
    to the first read of no byte, however the reader cuts the content
    into chunks; what would come after a read of no byte is not read.
    When a read fails with an error other than end of file, the bytes
    read before are dropped and the wrapped error is returned. *)
Theorem readFileContent_joins_chunks
        (Open : str -> list readResult + str) (filePath : str)
        (chunks : list str) (last : readResult) (rest : list readResult) :
  Forall (fun c => c <> []) chunks ->
  Open filePath = inl (map okRead chunks ++ last :: rest) ->
  (readBytes last = [] ->
   (forall msg, readErr last <> Some (ReadFailed msg)) ->
   readFileContent Open filePath = inl (List.concat chunks))
  /\ (forall msg,
         readErr last = Some (ReadFailed msg) ->
         readFileContent Open filePath
         = inr (lit "error reading file: " ++ msg)).
Proof.
  intros Hc Ho. unfold readFileContent. rewrite Ho.
  rewrite (readLoop_chunks chunks (last :: rest) [] Hc).
  cbn [readLoop app]. split.
  - intros Hb Hnf. rewrite Hb.
    destruct (readErr last) as [[|msg]|]; try reflexivity.
    exfalso. exact (Hnf msg eq_refl).
  - intros msg He. rewrite He. reflexivity.
Qed.

Lemma readFileContent_joins_chunks_witness :
  readFileContent openTwoChunks (lit "a.json") = inl (jlit "{'k': 1}").
Proof.
  apply (readFileContent_joins_chunks
           openTwoChunks (lit "a.json") [jlit "{'k':"; lit " 1}"]
           {| readBytes := []; readErr := Some EOF |} []).
  - repeat constructor; discriminate.
  - reflexivity.
  - reflexivity.
  - intros msg; discriminate.
Defined.

(** ** Typing a query *)

Lemma typeRunes_fields (rs : str) (st : appState) :
  let typed := typeRunes rs st in
  searchString typed = searchString st ++ rs
  /\ (rs <> [] ->
      tvText (debugView typed) = lit "Search: " ++ searchString st ++ rs)
  /\ searchMode typed = searchMode st
  /\ focus typed = focus st
  /\ searchResults typed = searchResults st
  /\ currentSearchIndex typed = currentSearchIndex st
  /\ fileContent typed = fileContent st
  /\ fileList typed = fileList st.
Proof.
  revert st. induction rs as [|r rs IH]; intros st.
  - cbn. rewrite app_nil_r. repeat split; try reflexivity. congruence.
  - cbn zeta. unfold typeRunes. cbn [fold_left].
    fold (typeRunes rs (typeRune r st)).
    destruct (IH (typeRune r st)) as [H1 [H2 [H3 [H4 [H5 [H6 [H7 H8]]]]]]].
    cbn zeta in *.
    rewrite H1, H3, H4, H5, H6, H7, H8.
    cbn [typeRune set_searchString set_debugText searchString searchMode
         focus searchResults currentSearchIndex fileContent fileList].
    rewrite <- !app_assoc. cbn [app].
    repeat split; try reflexivity.
    intros _. destruct rs as [|r' rs'].
    + reflexivity.
    + rewrite H2 by discriminate.
      cbn [typeRune set_searchString set_debugText searchString].
      rewrite <- !app_assoc. reflexivity.
Qed.

(** X21: in search mode every rune typed after [/] is appended to the
    query, whatever the rune (also [n], [q] or [/], which are commands
    outside search mode): after the runes [rs] the query is [rs], the
    status line shows the prompt followed by [rs], the focus is on the
    status line and search mode is on; the results, the current index,
    the content pane and the file list are those from before [/]. *)
Theorem typeRunes_builds_query (rs : str) (st : appState) :
  let typed := typeRunes rs (startSearch st) in
  searchString typed = rs
  /\ tvText (debugView typed) = lit "Search: " ++ rs
  /\ searchMode typed = true
  /\ focus typed = DebugViewW
  /\ searchResults typed = searchResults st
  /\ currentSearchIndex typed = currentSearchIndex st
  /\ fileContent typed = fileContent st
  /\ fileList typed = fileList st.
Proof.
  destruct (typeRunes_fields rs (startSearch st))
    as [H1 [H2 [H3 [H4 [H5 [H6 [H7 H8]]]]]]].
  cbn zeta in *. rewrite H1, H3, H4, H5, H6, H7, H8.
  repeat split; try reflexivity.
  destruct rs as [|r rs]; [reflexivity|].
  rewrite H2 by discriminate. reflexivity.
Qed.

(** X22: Enter right after [/], on a query still empty, returns
    without searching, whatever the fuel: search mode is left and
    the focus goes to the content pane, but the status line keeps the
    prompt, and the results and the current index of the search before
    stay for [n] and [N] to step through, the content pane as that
    search left it. *)
Theorem submitSearch_empty_query_keeps_results
        (stripTags : str -> str) (fuel : nat) (st : appState) :
  exists st',
    submitSearch stripTags fuel (startSearch st) = Returns st'
    /\ searchMode st' = false
    /\ focus st' = FileContentW
    /\ searchString st' = []
    /\ tvText (debugView st') = lit "Search: "
    /\ searchResults st' = searchResults st
    /\ currentSearchIndex st' = currentSearchIndex st
    /\ fileContent st' = fileContent st.
Proof.
  eexists. split; [reflexivity|]. cbn. repeat split.
Qed.

(** X23: with the second pane hidden, [toggleCompareView] on a file list
    without items (as at the start, or after a reload that failed)
    panics at [GetItemText], whatever index the list reports as current
    and whatever the file system holds: nothing is read, logged or
    shown. *)
Theorem toggleCompareView_empty_list_panics
        (readFileContent : str -> str + str) (Value : Type)
        (Unmarshal : str -> Value + str) (MarshalIndentValue : Value -> str)
        (Join : str -> str -> str)
        (selectedFileIndex : Z) (st : appState) (l : layout) :
  fileList st = [] ->
  secondFileVisible l = false ->
  toggleCompareView readFileContent Value Unmarshal MarshalIndentValue Join
                    selectedFileIndex st l
  = Panics.
Proof.
  intros Hlist Hvis. unfold toggleCompareView. rewrite Hvis, Hlist.
  unfold index_at.
  destruct ((0 <=? selectedFileIndex)
            && (selectedFileIndex <? Z.of_nat (List.length (@nil (str * action)))));
    [|reflexivity].
  destruct (Z.to_nat selectedFileIndex); reflexivity.
Qed.

Lemma toggleCompareView_empty_list_panics_witness :
  toggleCompareView readOnlyA str braceDecoder (fun v => v) joinPlain
                    0 initializeApp setupLayout
  = Panics.
Proof.
  apply toggleCompareView_empty_list_panics; reflexivity.
Defined.
